(** * Oxia: client options, WAL trimmer and the replication protocol

    Three parts of the repository are embedded here:

    - [Options]: the client option builder of [oxia/options.go];
    - [Trimmer]: the WAL retention pass ([doTrim], [binarySearch],
      [readAtOffset]) of the [wal] package;
    - [Replication]: the TLA+ module [OxiaReplication] (operators, nodes,
      election, replication, reconfiguration), as an executable step
      function over an explicit state. *)

From Stdlib Require Import ZArith List Bool Arith Lia String.
Import ListNotations.

(* ================================================================== *)
(** * Client options ([oxia/options.go]) *)
(* ================================================================== *)

Module Options.

Local Open Scope Z_scope.

(** [time.Duration] is an [int64] count of nanoseconds. *)
Definition Duration := Z.

Definition Millisecond : Duration := 1000000.
Definition Second : Duration := 1000 * Millisecond.

Definition DefaultBatchLinger : Duration := 5 * Millisecond.
Definition DefaultMaxRequestsPerBatch : Z := 1000.
Definition DefaultBatchRequestTimeout : Duration := 30 * Second.

(** The three sentinel errors of the package. *)
Inductive error : Type :=
| ErrorBatchLinger
| ErrorMaxRequestsPerBatch
| ErrorBatchRequestTimeout.

Record ClientOptions : Type := mkClientOptions {
  serviceUrl : string;
  batchLinger : Duration;
  maxRequestsPerBatch : Z;
  batchRequestTimeout : Duration
}.

(** The accessors [ServiceUrl], [BatchLinger], ... return the fields. *)
Definition BatchRequestTimeout (o : ClientOptions) : Duration :=
  batchRequestTimeout o.

(** [ClientOption] is an interface with the single method [apply]; the
    only implementation is [clientOptionFunc], a function. *)
Class ClientOption : Type := {
  apply : ClientOptions -> ClientOptions * option error
}.

(** [multierr.Append errs err] accumulates the non-nil errors in order;
    the aggregated error is nil exactly when the list is empty. *)
Definition multierr_Append (errs : list error) (err : error) : list error :=
  errs ++ [err].

(** One iteration of the loop of [NewClientOptions]: apply the option and
    append its error, when it has one, to the accumulated errors. *)
Definition loop_body (acc : ClientOptions * list error) (o : ClientOption)
  : ClientOptions * list error :=
  let '(options, errs) := acc in
  let '(options', err) := @apply o options in
  match err with
  | Some e => (options', multierr_Append errs e)
  | None => (options', errs)
  end.

Definition NewClientOptions (url : string) (opts : list ClientOption)
  : ClientOptions * list error :=
  let options := {| serviceUrl := url;
                    batchLinger := DefaultBatchLinger;
                    maxRequestsPerBatch := DefaultMaxRequestsPerBatch;
                    batchRequestTimeout := DefaultBatchRequestTimeout |} in
  fold_left loop_body opts (options, []).

Definition WithBatchLinger (d : Duration) : ClientOption :=
  {| apply := fun options =>
       if d <? 0 then (options, Some ErrorBatchLinger)
       else ({| serviceUrl := serviceUrl options;
                batchLinger := d;
                maxRequestsPerBatch := maxRequestsPerBatch options;
                batchRequestTimeout := batchRequestTimeout options |}, None) |}.

Definition WithMaxRequestsPerBatch (n : Z) : ClientOption :=
  {| apply := fun options =>
       if n <=? 0 then (options, Some ErrorMaxRequestsPerBatch)
       else ({| serviceUrl := serviceUrl options;
                batchLinger := batchLinger options;
                maxRequestsPerBatch := n;
                batchRequestTimeout := batchRequestTimeout options |}, None) |}.

Definition WithBatchRequestTimeout (d : Duration) : ClientOption :=
  {| apply := fun options =>
       if d <=? 0 then (options, Some ErrorBatchRequestTimeout)
       else ({| serviceUrl := serviceUrl options;
                batchLinger := batchLinger options;
                maxRequestsPerBatch := maxRequestsPerBatch options;
                batchRequestTimeout := d |}, None) |}.

(** [set_timeout o d] is [o] after the assignment
    [options.batchRequestTimeout = d]. *)
Definition set_timeout (o : ClientOptions) (d : Duration) : ClientOptions :=
  {| serviceUrl := serviceUrl o;
     batchLinger := batchLinger o;
     maxRequestsPerBatch := maxRequestsPerBatch o;
     batchRequestTimeout := d |}.

(** The three options that the package exports, as data: [option_of] is
    the option a setting stands for, [accepted] the guard of that option,
    and [error_of] the error it returns when the guard fails. *)
Inductive setting : Type :=
| BatchLingerOf (d : Duration)
| MaxRequestsPerBatchOf (n : Z)
| BatchRequestTimeoutOf (d : Duration).

Definition option_of (x : setting) : ClientOption :=
  match x with
  | BatchLingerOf d => WithBatchLinger d
  | MaxRequestsPerBatchOf n => WithMaxRequestsPerBatch n
  | BatchRequestTimeoutOf d => WithBatchRequestTimeout d
  end.

Definition accepted (x : setting) : bool :=
  match x with
  | BatchLingerOf d => negb (d <? 0)
  | MaxRequestsPerBatchOf n => negb (n <=? 0)
  | BatchRequestTimeoutOf d => negb (d <=? 0)
  end.

Definition error_of (x : setting) : error :=
  match x with
  | BatchLingerOf _ => ErrorBatchLinger
  | MaxRequestsPerBatchOf _ => ErrorMaxRequestsPerBatch
  | BatchRequestTimeoutOf _ => ErrorBatchRequestTimeout
  end.

(** The settings that assign a field. *)
Definition sets_linger (x : setting) : bool :=
  match x with BatchLingerOf _ => accepted x | _ => false end.
Definition sets_max_requests (x : setting) : bool :=
  match x with MaxRequestsPerBatchOf _ => accepted x | _ => false end.
Definition sets_timeout (x : setting) : bool :=
  match x with BatchRequestTimeoutOf _ => accepted x | _ => false end.

(** The ranges that the comments of the accessors and the messages of the
    three errors give for the fields. *)
Definition in_range (o : ClientOptions) : Prop :=
  0 <= batchLinger o /\ 0 < maxRequestsPerBatch o /\ 0 < batchRequestTimeout o.

(** [NewClientOptions] on the options of a list of settings. *)
Definition build (url : string) (l : list setting) : ClientOptions * list error :=
  NewClientOptions url (map option_of l).

Lemma loop_errors_grow (opts : list ClientOption) acc e :
  In e (snd acc) -> In e (snd (fold_left loop_body opts acc)).
Proof.
  revert acc. induction opts as [|o opts IH]; intros acc Hin; simpl; auto.
  apply IH. destruct acc as [options errs]. unfold loop_body.
  destruct (@apply o options) as [options' [e'|]]; simpl in *; auto.
  unfold multierr_Append. apply in_or_app. now left.
Qed.

Lemma loop_reports (pre post : list ClientOption) (o : ClientOption) acc e :
  (forall options, snd (@apply o options) = Some e) ->
  In e (snd (fold_left loop_body (pre ++ o :: post) acc)).
Proof.
  intros Herr. rewrite fold_left_app. simpl.
  apply loop_errors_grow.
  destruct (fold_left loop_body pre acc) as [options errs].
  unfold loop_body. specialize (Herr options).
  destruct (@apply o options) as [options' err]. simpl in Herr. subst err.
  simpl. unfold multierr_Append. apply in_or_app. right. now left.
Qed.

(** C10. [NewClientOptions] without options gives a [batchRequestTimeout]
    of 30 seconds and no error.  For every duration [d <= 0], an option list
    that includes [WithBatchRequestTimeout d] makes [NewClientOptions] return
    [ErrorBatchRequestTimeout] among its aggregated errors, the option
    itself leaves the options it is applied to untouched, and used alone it
    leaves the timeout at its default.  For every [d > 0] the option sets
    the field to [d] and contributes no error. *)
Theorem batch_request_timeout_option :
  (forall url,
      BatchRequestTimeout (fst (NewClientOptions url [])) = 30 * Second /\
      snd (NewClientOptions url []) = []) /\
  (forall d, d <= 0 ->
      (forall options,
          @apply (WithBatchRequestTimeout d) options
          = (options, Some ErrorBatchRequestTimeout)) /\
      (forall url pre post,
          In ErrorBatchRequestTimeout
             (snd (NewClientOptions url
                     (pre ++ WithBatchRequestTimeout d :: post)))) /\
      (forall url,
          BatchRequestTimeout
            (fst (NewClientOptions url [WithBatchRequestTimeout d]))
          = DefaultBatchRequestTimeout /\
          snd (NewClientOptions url [WithBatchRequestTimeout d])
          = [ErrorBatchRequestTimeout])) /\
  (forall d, 0 < d ->
      (forall options,
          @apply (WithBatchRequestTimeout d) options
          = (set_timeout options d, None)) /\
      (forall url,
          BatchRequestTimeout
            (fst (NewClientOptions url [WithBatchRequestTimeout d])) = d /\
          snd (NewClientOptions url [WithBatchRequestTimeout d]) = [])).
Proof.
  split; [|split].
  - intros url. split; reflexivity.
  - intros d Hd.
    assert (Happ : forall options,
               @apply (WithBatchRequestTimeout d) options
               = (options, Some ErrorBatchRequestTimeout)).
    { intros options. simpl.
      destruct (Z.leb_spec d 0) as [_|Hlt]; [reflexivity | lia]. }
    split; [exact Happ | split].
    + intros url pre post. unfold NewClientOptions.
      apply loop_reports. intros options. now rewrite Happ.
    + intros url. unfold NewClientOptions, BatchRequestTimeout.
      cbn [fold_left]. unfold loop_body. rewrite Happ. split; reflexivity.
  - intros d Hd.
    assert (Happ : forall options,
               @apply (WithBatchRequestTimeout d) options
               = (set_timeout options d, None)).
    { intros options. simpl.
      destruct (Z.leb_spec d 0) as [Hle|_]; [lia | reflexivity]. }
    split; [exact Happ |].
    intros url. unfold NewClientOptions, BatchRequestTimeout.
    cbn [fold_left]. unfold loop_body. rewrite Happ. split; reflexivity.
Qed.

(** The theorem at the durations [-1] and [2] seconds. *)
Lemma batch_request_timeout_option_witness :
  -1 <= 0 /\ 0 < 2 * Second /\
  In ErrorBatchRequestTimeout
     (snd (NewClientOptions "oxia:6648"
             ([WithBatchLinger 0] ++ WithBatchRequestTimeout (-1) :: []))) /\
  BatchRequestTimeout
    (fst (NewClientOptions "oxia:6648" [WithBatchRequestTimeout (2 * Second)]))
  = 2 * Second.
Proof.
  destruct batch_request_timeout_option as [_ [Hneg Hpos]].
  assert (H1 : -1 <= 0) by lia.
  assert (H2 : 0 < 2 * Second) by reflexivity.
  split; [exact H1 | split; [exact H2 | split]].
  - destruct (Hneg (-1) H1) as [_ [Hin _]]. apply Hin.
  - destruct (Hpos (2 * Second) H2) as [_ Hset].
    destruct (Hset "oxia:6648"%string) as [Hd _]. exact Hd.
Defined.

(** ** The option list as a whole *)

Lemma apply_rejected x options :
  accepted x = false ->
  @apply (option_of x) options = (options, Some (error_of x)).
Proof.
  destruct x; simpl; intros H; apply negb_false_iff in H; now rewrite H.
Qed.

Lemma apply_accepted x options :
  accepted x = true ->
  snd (@apply (option_of x) options) = None /\
  serviceUrl (fst (@apply (option_of x) options)) = serviceUrl options /\
  (in_range options -> in_range (fst (@apply (option_of x) options))).
Proof.
  unfold in_range.
  destruct x; simpl; intros H; apply negb_true_iff in H; rewrite H; simpl;
    (split; [reflexivity|]); (split; [reflexivity|]); intros [H1 [H2 H3]].
  - apply Z.ltb_ge in H. auto.
  - apply Z.leb_gt in H. auto.
  - apply Z.leb_gt in H. auto.
Qed.

(** The loop keeps the two components of its state apart: the errors do
    not influence the options, and are those of the rejected settings. *)
Lemma loop_settings l : forall options errs,
  fold_left loop_body (map option_of l) (options, errs)
  = (fst (fold_left loop_body (map option_of l) (options, [])),
     errs ++ map error_of (filter (fun x => negb (accepted x)) l)).
Proof.
  induction l as [|x l IH]; intros options errs; simpl.
  - now rewrite app_nil_r.
  - destruct (accepted x) eqn:E.
    + destruct (apply_accepted x options E) as [Hn _].
      destruct (@apply (option_of x) options) as [o' e'] eqn:Ea.
      simpl in Hn. subst e'. simpl.
      rewrite (IH o' errs). rewrite (IH o' []). reflexivity.
    + rewrite (apply_rejected x options E). simpl.
      rewrite (IH options (multierr_Append errs (error_of x))).
      rewrite (IH options (multierr_Append [] (error_of x))).
      simpl. unfold multierr_Append. now rewrite <- app_assoc.
Qed.

Lemma loop_in_range l : forall options,
  in_range options ->
  in_range (fst (fold_left loop_body (map option_of l) (options, []))) /\
  serviceUrl (fst (fold_left loop_body (map option_of l) (options, [])))
  = serviceUrl options.
Proof.
  induction l as [|x l IH]; intros options Hr; simpl; auto.
  destruct (accepted x) eqn:E.
  - destruct (apply_accepted x options E) as [Hn [Hu Hk]].
    destruct (@apply (option_of x) options) as [o' e'] eqn:Ea.
    simpl in *. subst e'. rewrite loop_settings. simpl.
    destruct (IH o' (Hk Hr)) as [H1 H2]. split; [exact H1|congruence].
  - rewrite (apply_rejected x options E). simpl. rewrite loop_settings. simpl.
    now apply IH.
Qed.

Lemma loop_skips_rejected l : forall options,
  fst (fold_left loop_body (map option_of l) (options, []))
  = fst (fold_left loop_body (map option_of (filter accepted l)) (options, [])).
Proof.
  induction l as [|x l IH]; intros options; simpl; auto.
  destruct (accepted x) eqn:E; simpl.
  - destruct (apply_accepted x options E) as [Hn _].
    destruct (@apply (option_of x) options) as [o' e'] eqn:Ea.
    simpl in Hn. subst e'. simpl. apply IH.
  - rewrite (apply_rejected x options E). simpl.
    rewrite loop_settings. simpl. apply IH.
Qed.

(** The loop leaves a field alone when no setting of the list assigns
    it. *)
Lemma loop_keeps post : forall options,
  (forallb (fun x => negb (sets_linger x)) post = true ->
   batchLinger (fst (fold_left loop_body (map option_of post) (options, [])))
   = batchLinger options) /\
  (forallb (fun x => negb (sets_max_requests x)) post = true ->
   maxRequestsPerBatch
     (fst (fold_left loop_body (map option_of post) (options, [])))
   = maxRequestsPerBatch options) /\
  (forallb (fun x => negb (sets_timeout x)) post = true ->
   batchRequestTimeout
     (fst (fold_left loop_body (map option_of post) (options, [])))
   = batchRequestTimeout options).
Proof.
  induction post as [|x post IH]; intros options; simpl; [auto|].
  assert (Hstep : exists o' e',
             @apply (option_of x) options = (o', e') /\
             (sets_linger x = false -> batchLinger o' = batchLinger options) /\
             (sets_max_requests x = false ->
              maxRequestsPerBatch o' = maxRequestsPerBatch options) /\
             (sets_timeout x = false ->
              batchRequestTimeout o' = batchRequestTimeout options)).
  { destruct x as [d|n|d]; simpl.
    - destruct (d <? 0); simpl; eexists; eexists;
        (split; [reflexivity|]); repeat split; auto; discriminate.
    - destruct (n <=? 0); simpl; eexists; eexists;
        (split; [reflexivity|]); repeat split; auto; discriminate.
    - destruct (d <=? 0); simpl; eexists; eexists;
        (split; [reflexivity|]); repeat split; auto; discriminate. }
  destruct Hstep as [o' [e' [Ha [H1 [H2 H3]]]]]. rewrite Ha.
  assert (Hfst : forall errs,
             fst (fold_left loop_body (map option_of post) (o', errs))
             = fst (fold_left loop_body (map option_of post) (o', []))).
  { intros errs. now rewrite loop_settings. }
  destruct (IH o') as [K1 [K2 K3]].
  destruct e' as [e|]; rewrite ?Hfst;
    (split; [|split]); intros H; apply andb_true_iff in H as [Hx Hpost];
    apply negb_true_iff in Hx; rewrite ?K1, ?K2, ?K3; auto.
Qed.

Lemma build_app url pre x post :
  fst (build url (pre ++ x :: post))
  = fst (fold_left loop_body (map option_of post)
           (fst (@apply (option_of x) (fst (build url pre))), [])).
Proof.
  unfold build, NewClientOptions. rewrite map_app, fold_left_app. simpl.
  destruct (fold_left loop_body (map option_of pre) _) as [o errs].
  unfold loop_body at 2. simpl.
  destruct (@apply (option_of x) o) as [o' [e|]]; now rewrite loop_settings.
Qed.

(** X1.  Whatever options of the package [NewClientOptions] is given, and
    whether or not it reports errors, the options it returns are in range:
    the linger is not negative, the batch size and the request timeout are
    positive; and the service URL is the one passed in. *)
Theorem new_client_options_in_range (url : string) (l : list setting) :
  in_range (fst (build url l)) /\ serviceUrl (fst (build url l)) = url.
Proof.
  unfold build, NewClientOptions. apply loop_in_range.
  unfold in_range. simpl.
  unfold DefaultBatchLinger, DefaultMaxRequestsPerBatch,
    DefaultBatchRequestTimeout, Second, Millisecond. lia.
Qed.

(** X2.  The aggregated error of [NewClientOptions] holds one error for
    each rejected option, in the order of the options; it is nil exactly
    when every option is accepted. *)
Theorem new_client_options_errors (url : string) (l : list setting) :
  snd (build url l) = map error_of (filter (fun x => negb (accepted x)) l) /\
  (snd (build url l) = [] <-> forallb accepted l = true) /\
  List.length (snd (build url l))
  = List.length (filter (fun x => negb (accepted x)) l).
Proof.
  assert (H : snd (build url l)
              = map error_of (filter (fun x => negb (accepted x)) l)).
  { unfold build, NewClientOptions. now rewrite loop_settings. }
  split; [exact H|]. split.
  - rewrite H. clear H. induction l as [|x l IH]; simpl; [tauto|].
    destruct (accepted x); simpl; [exact IH|]. split; discriminate.
  - rewrite H. apply length_map.
Qed.

(** X3.  A rejected option changes nothing but the error: the options
    returned are those that the accepted options alone give, and these
    alone give no error. *)
Theorem rejected_options_are_skipped (url : string) (l : list setting) :
  fst (build url l) = fst (build url (filter accepted l)) /\
  snd (build url (filter accepted l)) = [].
Proof.
  split.
  - unfold build, NewClientOptions. apply loop_skips_rejected.
  - unfold build, NewClientOptions. rewrite loop_settings. simpl.
    induction l as [|x l IH]; simpl; auto.
    destruct (accepted x) eqn:E; simpl; auto. now rewrite E.
Qed.

(** X4.  For each field the last accepted option wins: an accepted option
    sets the field in the result when no accepted option for the same field
    follows it, whatever comes before and whatever other options follow; a
    field that no accepted option sets keeps its default. *)
Theorem last_accepted_option_wins (url : string) (pre post : list setting) :
  (forall d,
      0 <= d -> forallb (fun x => negb (sets_linger x)) post = true ->
      batchLinger (fst (build url (pre ++ BatchLingerOf d :: post))) = d) /\
  (forall n,
      0 < n -> forallb (fun x => negb (sets_max_requests x)) post = true ->
      maxRequestsPerBatch
        (fst (build url (pre ++ MaxRequestsPerBatchOf n :: post))) = n) /\
  (forall d,
      0 < d -> forallb (fun x => negb (sets_timeout x)) post = true ->
      batchRequestTimeout
        (fst (build url (pre ++ BatchRequestTimeoutOf d :: post))) = d) /\
  (forallb (fun x => negb (sets_linger x)) post = true ->
   batchLinger (fst (build url post)) = DefaultBatchLinger) /\
  (forallb (fun x => negb (sets_max_requests x)) post = true ->
   maxRequestsPerBatch (fst (build url post)) = DefaultMaxRequestsPerBatch) /\
  (forallb (fun x => negb (sets_timeout x)) post = true ->
   batchRequestTimeout (fst (build url post)) = DefaultBatchRequestTimeout).
Proof.
  split; [|split; [|split; [|split; [|split]]]].
  - intros d Hd Hpost. rewrite build_app.
    destruct (loop_keeps post (fst (@apply (option_of (BatchLingerOf d))
                                           (fst (build url pre)))))
      as [K _].
    rewrite (K Hpost). simpl.
    destruct (Z.ltb_spec d 0); [lia | reflexivity].
  - intros n Hn Hpost. rewrite build_app.
    destruct (loop_keeps post (fst (@apply (option_of (MaxRequestsPerBatchOf n))
                                           (fst (build url pre)))))
      as [_ [K _]].
    rewrite (K Hpost). simpl.
    destruct (Z.leb_spec n 0); [lia | reflexivity].
  - intros d Hd Hpost. rewrite build_app.
    destruct (loop_keeps post (fst (@apply (option_of (BatchRequestTimeoutOf d))
                                           (fst (build url pre)))))
      as [_ [_ K]].
    rewrite (K Hpost). simpl.
    destruct (Z.leb_spec d 0); [lia | reflexivity].
  - intros Hpost. unfold build, NewClientOptions.
    now rewrite (proj1 (loop_keeps post _) Hpost).
  - intros Hpost. unfold build, NewClientOptions.
    now rewrite (proj1 (proj2 (loop_keeps post _)) Hpost).
  - intros Hpost. unfold build, NewClientOptions.
    now rewrite (proj2 (proj2 (loop_keeps post _)) Hpost).
Qed.

(** The theorem on a list that sets the linger twice, the second time to
    zero, and then has a rejected linger and a timeout. *)
Lemma last_accepted_option_wins_witness :
  0 <= 0 /\
  forallb (fun x => negb (sets_linger x))
          [BatchLingerOf (-5); BatchRequestTimeoutOf Second] = true /\
  batchLinger
    (fst (build "oxia:6648"
            ([BatchLingerOf Millisecond] ++
             BatchLingerOf 0 ::
             [BatchLingerOf (-5); BatchRequestTimeoutOf Second]))) = 0.
Proof.
  assert (H1 : 0 <= 0) by lia.
  assert (H2 : forallb (fun x => negb (sets_linger x))
                       [BatchLingerOf (-5); BatchRequestTimeoutOf Second] = true)
    by reflexivity.
  split; [exact H1 | split; [exact H2|]].
  destruct (last_accepted_option_wins
              "oxia:6648"%string [BatchLingerOf Millisecond]
              [BatchLingerOf (-5); BatchRequestTimeoutOf Second]) as [H _].
  exact (H 0 H1 H2).
Defined.

End Options.

(* ================================================================== *)
(** * WAL trimmer ([wal] package: [doTrim], [binarySearch]) *)
(* ================================================================== *)

Module Trimmer.

Local Open Scope Z_scope.

(** ** [int64] arithmetic *)

Definition MaxInt64 : Z := 2 ^ 63 - 1.
Definition MinInt64 : Z := - 2 ^ 63.

(** Two's complement wrap-around of a mathematical integer into [int64]. *)
Definition int64_wrap (z : Z) : Z := (z + 2 ^ 63) mod 2 ^ 64 - 2 ^ 63.

Definition add64 (a b : Z) : Z := int64_wrap (a + b).
Definition sub64 (a b : Z) : Z := int64_wrap (a - b).
(** Go's [/] and [%] truncate toward zero: [Z.quot] and [Z.rem]. *)
Definition div64 (a b : Z) : Z := int64_wrap (Z.quot a b).
Definition rem64 (a b : Z) : Z := Z.rem a b.

(** ** Time

    A [time.Time] is modelled by the instant it denotes, as a count of
    nanoseconds since the Unix epoch; a [time.Duration] is a count of
    nanoseconds. *)
Definition Time := Z.
Definition Duration := Z.

Definition UnixMilli (msec : Z) : Time := msec * 1000000.
Definition Time_Add (t : Time) (d : Duration) : Time := t + d.
Definition Time_Before (t u : Time) : bool := t <? u.

Definition Hour : Duration := 3600 * 1000000000.
Definition Minute : Duration := 60 * 1000000000.
Definition DefaultRetention : Duration := 1 * Hour.
Definition DefaultCheckInterval : Duration := 10 * Minute.

(** ** The log *)

Definition InvalidOffset : Z := -1.

(** Modelled from the spec: the [Wal] interface is declared outside the
    trimmer's file.  Following the specification, a WAL is an ordered
    sequence of entries at contiguous offsets [first_offset .. last_offset];
    [FirstOffset] and [LastOffset] return the invalid-offset sentinel [-1]
    on an empty log; a reader created after offset [o] yields the entry at
    [o + 1], and fails when there is none; [Trim o] discards the prefix up to
    and including offset [o].  An entry is represented by its [Timestamp]
    field (a [uint64] count of milliseconds), the only field the trimmer
    reads. *)
Record Wal : Type := mkWal {
  base : Z;              (* offset of the first stored entry *)
  stamps : list Z        (* timestamps of the stored entries, in offset order *)
}.

Definition FirstOffset (w : Wal) : Z :=
  match stamps w with
  | [] => InvalidOffset
  | _ => base w
  end.

Definition LastOffset (w : Wal) : Z :=
  match stamps w with
  | [] => InvalidOffset
  | _ => base w + Z.of_nat (List.length (stamps w)) - 1
  end.

(** The entry stored at an offset, when there is one. *)
Definition entryAt (w : Wal) (offset : Z) : option Z :=
  if (base w <=? offset) && (offset <? base w + Z.of_nat (List.length (stamps w)))
  then nth_error (stamps w) (Z.to_nat (offset - base w))
  else None.

(** A reader positioned after an offset. *)
Record Reader : Type := mkReader { r_wal : Wal; r_after : Z }.

Definition NewReader (w : Wal) (after : Z) : option Reader :=
  Some {| r_wal := w; r_after := after |}.

Definition ReadNext (r : Reader) : option Z :=
  entryAt (r_wal r) (add64 (r_after r) 1).

Definition Trim (w : Wal) (offset : Z) : option Wal :=
  Some {| base := offset + 1;
          stamps := skipn (Z.to_nat (offset + 1 - base w)) (stamps w) |}.

(** ** The trimmer *)

Record trimmer : Type := mkTrimmer {
  wal : Wal;
  retention : Duration;
  clock_Now : Time       (* what [t.clock.Now()] returns during the pass *)
}.

(** [NewTrimmer]: a zero retention means the default. *)
Definition NewTrimmer (w : Wal) (retention : Duration) (now : Time) : trimmer :=
  {| wal := w;
     retention := if retention =? 0 then DefaultRetention else retention;
     clock_Now := now |}.

(** Results: a value, an error, or the fuel of the loop ran out. *)
Inductive result (A : Type) : Type :=
| Ret (a : A)
| Err
| OutOfFuel.
Arguments Ret {A} a.
Arguments Err {A}.
Arguments OutOfFuel {A}.

Definition readAtOffset (t : trimmer) (offset : Z) : result Time :=
  match NewReader (wal t) (sub64 offset 1) with
  | None => Err
  | Some reader =>
      match ReadNext reader with
      | None => Err
      | Some ts => Ret (UnixMilli (int64_wrap ts))
      end
  end.

(** The loop of [binarySearch]; one unit of fuel per evaluation of the
    loop condition. *)
Fixpoint binarySearch (fuel : nat) (t : trimmer)
         (firstOffset lastOffset : Z) (cutoffTime : Time) : result Z :=
  match fuel with
  | O => OutOfFuel
  | S fuel' =>
      if firstOffset <? lastOffset then
        let med := div64 (add64 firstOffset lastOffset) 2 in
        let med := if rem64 (add64 firstOffset lastOffset) 2 >? 0
                   then add64 med 1 else med in
        match readAtOffset t med with
        | Ret tsMed =>
            if Time_Before cutoffTime tsMed
            then binarySearch fuel' t firstOffset (sub64 med 1) cutoffTime
            else binarySearch fuel' t med lastOffset cutoffTime
        | _ => Err
        end
      else Ret firstOffset
  end.

(** [doTrim] returns the log after the pass together with the argument of
    the call to [Trim], when the pass made one. *)
Definition doTrim (fuel : nat) (t : trimmer) : result (Wal * option Z) :=
  if LastOffset (wal t) =? InvalidOffset then Ret (wal t, None)
  else
    let cutoffTime := Time_Add (clock_Now t) (- retention t) in
    match readAtOffset t (FirstOffset (wal t)) with
    | Ret tsFirst =>
        if Time_Before cutoffTime tsFirst then Ret (wal t, None)
        else
          match binarySearch fuel t (FirstOffset (wal t)) (LastOffset (wal t))
                             cutoffTime with
          | Ret trimOffset =>
              match Trim (wal t) trimOffset with
              | Some w' => Ret (w', Some trimOffset)
              | None => Err
              end
          | Err => Err
          | OutOfFuel => OutOfFuel
          end
    | _ => Err
    end.

(** The time [readAtOffset] reports for the entry at an offset. *)
Definition entryTime (t : trimmer) (offset : Z) : option Time :=
  match entryAt (wal t) offset with
  | Some ts => Some (UnixMilli (int64_wrap ts))
  | None => None
  end.

Definition cutoff (t : trimmer) : Time := Time_Add (clock_Now t) (- retention t).



(** The offsets of the log are non-negative [int64] values. *)
Definition wal_ok (w : Wal) : Prop :=
  0 <= base w /\ base w + Z.of_nat (List.length (stamps w)) - 1 <= MaxInt64.


(** A small log: offsets 5..9, the first three entries expired. *)
Definition small_trimmer : trimmer :=
  {| wal := {| base := 5; stamps := [10; 20; 20; 7200001; 7200002] |};
     retention := Hour; clock_Now := UnixMilli 7200000 |}.

(** A log that is not ordered: offsets 5..9, the entries at 5, 6 and 8
    expired. *)
Definition unordered_trimmer : trimmer :=
  {| wal := {| base := 5; stamps := [10; 20; 7200001; 30; 7200002] |};
     retention := Hour; clock_Now := UnixMilli 7200000 |}.

(** The entry at an offset has expired; has not expired. *)
Definition expired (t : trimmer) (o : Z) : Prop :=
  exists ts, entryTime t o = Some ts /\ ts <= cutoff t.
Definition unexpired (t : trimmer) (o : Z) : Prop :=
  exists ts, entryTime t o = Some ts /\ cutoff t < ts.

(** The evaluations of the loop condition that a search over the offsets
    [lo .. hi] needs at most: one per halving, and the last one. *)
Definition search_bound (lo hi : Z) : nat :=
  S (Z.to_nat (Z.log2_up (hi - lo + 1))).

(** ** Arithmetic of the loop *)

Lemma int64_wrap_id z : MinInt64 <= z <= MaxInt64 -> int64_wrap z = z.
Proof.
  unfold MinInt64, MaxInt64, int64_wrap. intros H.
  rewrite Z.mod_small; lia.
Qed.

Lemma ceil_mid lo hi :
  0 <= lo -> lo < hi -> lo + hi <= MaxInt64 ->
  let sum := add64 lo hi in
  let med := div64 sum 2 in
  let med' := if rem64 sum 2 >? 0 then add64 med 1 else med in
  lo < med' <= hi.
Proof.
  intros Hlo Hlt Hsum. cbv zeta. unfold add64, div64, rem64.
  assert (HM : MaxInt64 = 9223372036854775807) by reflexivity.
  assert (Hm : MinInt64 = -9223372036854775808) by reflexivity.
  rewrite (int64_wrap_id (lo + hi)) by lia.
  rewrite Z.quot_div_nonneg by lia.
  rewrite Z.rem_mod_nonneg by lia.
  pose proof (Z.div_mod (lo + hi) 2 ltac:(lia)) as Hdm.
  pose proof (Z.mod_pos_bound (lo + hi) 2 ltac:(lia)) as Hb.
  rewrite (int64_wrap_id ((lo + hi) / 2)) by lia.
  destruct (Z.gtb_spec ((lo + hi) mod 2) 0).
  - rewrite int64_wrap_id by lia. lia.
  - lia.
Qed.

Lemma readAtOffset_entryTime t o :
  0 <= o <= MaxInt64 ->
  readAtOffset t o = match entryTime t o with
                     | Some ts => Ret ts
                     | None => Err
                     end.
Proof.
  intros Ho. unfold readAtOffset, NewReader, ReadNext, entryTime. simpl.
  assert (HM : MaxInt64 = 9223372036854775807) by reflexivity.
  assert (Hm : MinInt64 = -9223372036854775808) by reflexivity.
  unfold sub64, add64. rewrite (int64_wrap_id (o - 1)) by lia.
  replace (o - 1 + 1) with o by lia. rewrite int64_wrap_id by lia.
  destruct (entryAt (wal t) o); reflexivity.
Qed.

Lemma entryTime_defined t o :
  base (wal t) <= o < base (wal t) + Z.of_nat (List.length (stamps (wal t))) ->
  exists ts, entryTime t o = Some ts.
Proof.
  intros Ho. unfold entryTime, entryAt.
  destruct (Z.leb_spec (base (wal t)) o); [|lia].
  destruct (Z.ltb_spec o (base (wal t) + Z.of_nat (List.length (stamps (wal t)))));
    [|lia].
  simpl.
  destruct (nth_error (stamps (wal t)) (Z.to_nat (o - base (wal t)))) eqn:E.
  - eauto.
  - apply nth_error_None in E. lia.
Qed.

Lemma entryTime_range t o ts :
  entryTime t o = Some ts ->
  base (wal t) <= o < base (wal t) + Z.of_nat (List.length (stamps (wal t))).
Proof.
  unfold entryTime, entryAt.
  destruct (Z.leb_spec (base (wal t)) o);
    destruct (Z.ltb_spec o (base (wal t) + Z.of_nat (List.length (stamps (wal t)))));
    simpl; try discriminate.
  lia.
Qed.



Lemma doTrim_first_offset w :
  stamps w <> [] ->
  FirstOffset w = base w /\
  LastOffset w = base w + Z.of_nat (List.length (stamps w)) - 1 /\
  (LastOffset w =? InvalidOffset) = (base w + Z.of_nat (List.length (stamps w)) - 1 =? -1).
Proof.
  unfold FirstOffset, LastOffset. destruct (stamps w); [congruence|].
  intros _. repeat split.
Qed.




(** ** The search on a log that is not ordered *)

(** The loop invariant without an order on the timestamps: the entry at
    [lo] has expired, and [hi] is the top of the search or the entry after
    [hi] has not expired. *)
Lemma binarySearch_boundary t (Hok : wal_ok (wal t)) (top : Z) :
  forall fuel lo hi,
    base (wal t) <= lo -> lo <= hi ->
    hi < base (wal t) + Z.of_nat (List.length (stamps (wal t))) ->
    2 * hi <= MaxInt64 ->
    (Z.to_nat (hi - lo) < fuel)%nat ->
    expired t lo ->
    (hi = top \/ unexpired t (hi + 1)) ->
    exists k,
      binarySearch fuel t lo hi (cutoff t) = Ret k /\
      lo <= k <= hi /\
      expired t k /\
      (k = top \/ unexpired t (k + 1)).
Proof.
  destruct Hok as [Hbase Hlast].
  induction fuel as [|fuel IH]; intros lo hi Hlo Hle Hhi Hsum Hfuel Hexp Habove.
  - lia.
  - simpl. destruct (Z.ltb_spec lo hi) as [Hlt|Hge].
    + pose proof (ceil_mid lo hi ltac:(lia) Hlt ltac:(lia)) as Hmed.
      cbv zeta in Hmed.
      set (med := if rem64 (add64 lo hi) 2 >? 0
                  then add64 (div64 (add64 lo hi) 2) 1
                  else div64 (add64 lo hi) 2) in *.
      rewrite readAtOffset_entryTime by lia.
      destruct (entryTime_defined t med ltac:(lia)) as [tm Htm].
      rewrite Htm. unfold Time_Before.
      assert (HM : MaxInt64 = 9223372036854775807) by reflexivity.
      assert (Hm : MinInt64 = -9223372036854775808) by reflexivity.
      destruct (Z.ltb_spec (cutoff t) tm) as [Hafter|Hexpired].
      * unfold sub64. rewrite int64_wrap_id by lia.
        assert (Habove' : med - 1 = top \/ unexpired t (med - 1 + 1)).
        { right. replace (med - 1 + 1) with med by lia. exists tm. auto. }
        destruct (IH lo (med - 1) Hlo ltac:(lia) ltac:(lia) ltac:(lia)
                     ltac:(lia) Hexp Habove') as [k [Hk [Hr [Hek Hnext]]]].
        exists k. split; [exact Hk|]. split; [lia|]. split; assumption.
      * assert (Hexp' : expired t med) by (exists tm; split; [exact Htm | lia]).
        destruct (IH med hi ltac:(lia) ltac:(lia) Hhi ltac:(lia) ltac:(lia)
                     Hexp' Habove) as [k [Hk [Hr [Hek Hnext]]]].
        exists k. split; [exact Hk|]. split; [lia|]. split; assumption.
    + assert (lo = hi) by lia. subst hi.
      exists lo. split; [reflexivity|]. split; [lia|]. split; assumption.
Qed.

(** X5.  Without any order on the timestamps, a trim pass whose first entry
    has expired still trims at a boundary: the entry at the offset passed to
    [Trim] has expired, and that offset is the last one of the log or the
    entry after it has not expired.  (Offsets are non-negative and the last
    one is below [2^62].) *)
Theorem doTrim_trims_at_a_boundary (t : trimmer) :
  wal_ok (wal t) ->
  2 * LastOffset (wal t) <= MaxInt64 ->
  expired t (FirstOffset (wal t)) ->
  forall fuel,
    (Z.to_nat (LastOffset (wal t) - FirstOffset (wal t)) < fuel)%nat ->
    exists k w',
      doTrim fuel t = Ret (w', Some k) /\
      FirstOffset (wal t) <= k <= LastOffset (wal t) /\
      expired t k /\
      (k = LastOffset (wal t) \/ unexpired t (k + 1)).
Proof.
  intros Hok Hsmall [tf [Htf Hexp]] fuel Hfuel.
  assert (HM : MaxInt64 = 9223372036854775807) by reflexivity.
  pose proof (entryTime_range _ _ _ Htf) as Hr.
  assert (Hne : stamps (wal t) <> []).
  { intros Hnil. rewrite Hnil in Hr. simpl in Hr. lia. }
  destruct (doTrim_first_offset (wal t) Hne) as [Hf [Hl Hinv]].
  pose proof Hok as [Hb Hlast].
  destruct (binarySearch_boundary t Hok (LastOffset (wal t)) fuel
              (FirstOffset (wal t)) (LastOffset (wal t))
              ltac:(lia) ltac:(lia) ltac:(lia) Hsmall Hfuel
              ltac:(exists tf; auto) ltac:(now left))
    as [k [Hrun [Hk [Hek Hnext]]]].
  exists k. eexists. split; [|split; [exact Hk | split; assumption]].
  unfold doTrim. rewrite Hinv.
  destruct (Z.eqb_spec (base (wal t) + Z.of_nat (List.length (stamps (wal t))) - 1) (-1));
    [lia|].
  rewrite readAtOffset_entryTime by (rewrite Hf in *; lia).
  rewrite Htf. unfold Time_Before. fold (cutoff t).
  destruct (Z.ltb_spec (cutoff t) tf); [lia|].
  rewrite Hrun. reflexivity.
Qed.

(** The theorem on a log that is not ordered: offsets 5..9, the entries at
    5, 6 and 8 expired, those at 7 and 9 not; the pass trims at 6. *)
Lemma doTrim_trims_at_a_boundary_witness :
  wal_ok (wal unordered_trimmer) /\
  2 * LastOffset (wal unordered_trimmer) <= MaxInt64 /\
  expired unordered_trimmer (FirstOffset (wal unordered_trimmer)) /\
  exists k w',
    doTrim 5 unordered_trimmer = Ret (w', Some k) /\
    expired unordered_trimmer k /\
    (k = LastOffset (wal unordered_trimmer) \/ unexpired unordered_trimmer (k + 1)).
Proof.
  assert (Hok : wal_ok (wal unordered_trimmer)).
  { unfold wal_ok, MaxInt64. simpl. lia. }
  assert (Hsmall : 2 * LastOffset (wal unordered_trimmer) <= MaxInt64).
  { unfold MaxInt64. simpl. lia. }
  assert (Hexp : expired unordered_trimmer (FirstOffset (wal unordered_trimmer))).
  { exists (UnixMilli 10). split; [reflexivity|].
    unfold cutoff, UnixMilli, Time_Add. simpl. lia. }
  split; [exact Hok|]. split; [exact Hsmall|]. split; [exact Hexp|].
  destruct (doTrim_trims_at_a_boundary unordered_trimmer Hok Hsmall Hexp 5)
    as [k [w' [Hrun [_ [Hk Hnext]]]]].
  - simpl. lia.
  - exists k, w'. auto.
Defined.

(** ** The number of reads of the search *)

Lemma log2_up_half d d' :
  1 <= d -> 0 <= d' -> 2 * d' <= d ->
  Z.log2_up (d' + 1) + 1 <= Z.log2_up (d + 1).
Proof.
  intros Hd Hd' Hhalf.
  assert (Hm : 0 < Z.log2_up (d + 1)) by (apply Z.log2_up_pos; lia).
  pose proof (Z.log2_up_spec (d + 1) ltac:(lia)) as [_ Hup].
  set (m := Z.log2_up (d + 1)) in *.
  assert (Hpow : 2 ^ m = 2 * 2 ^ (m - 1)).
  { replace m with (Z.succ (m - 1)) at 1 by lia. apply Z.pow_succ_r. lia. }
  assert (Hle : d' + 1 <= 2 ^ (m - 1)) by lia.
  assert (Z.log2_up (d' + 1) <= m - 1).
  { apply Z.log2_up_le_pow2; lia. }
  lia.
Qed.

(** Each iteration halves the distance between the two offsets. *)
Lemma binarySearch_within_bound t c :
  forall fuel lo hi,
    0 <= lo -> lo <= hi -> 2 * hi <= MaxInt64 ->
    (search_bound lo hi <= fuel)%nat ->
    binarySearch fuel t lo hi c <> OutOfFuel.
Proof.
  unfold search_bound.
  induction fuel as [|fuel IH]; intros lo hi Hlo Hle Hsum Hfuel.
  - lia.
  - simpl. destruct (Z.ltb_spec lo hi) as [Hlt|Hge]; [|discriminate].
    pose proof (ceil_mid lo hi Hlo Hlt ltac:(lia)) as Hmed.
    cbv zeta in Hmed.
    assert (HM : MaxInt64 = 9223372036854775807) by reflexivity.
    assert (Hm : MinInt64 = -9223372036854775808) by reflexivity.
    assert (Hhalf : let sum := add64 lo hi in
                    let med := div64 sum 2 in
                    let med' := if rem64 sum 2 >? 0 then add64 med 1 else med in
                    2 * (med' - 1 - lo) <= hi - lo /\ 2 * (hi - med') <= hi - lo).
    { cbv zeta. unfold add64, div64, rem64.
      rewrite (int64_wrap_id (lo + hi)) by lia.
      rewrite Z.quot_div_nonneg by lia.
      rewrite Z.rem_mod_nonneg by lia.
      pose proof (Z.div_mod (lo + hi) 2 ltac:(lia)) as Hdm.
      pose proof (Z.mod_pos_bound (lo + hi) 2 ltac:(lia)) as Hb.
      rewrite (int64_wrap_id ((lo + hi) / 2)) by lia.
      destruct (Z.gtb_spec ((lo + hi) mod 2) 0).
      - rewrite int64_wrap_id by lia. lia.
      - lia. }
    cbv zeta in Hhalf.
    set (med := if rem64 (add64 lo hi) 2 >? 0
                then add64 (div64 (add64 lo hi) 2) 1
                else div64 (add64 lo hi) 2) in *.
    destruct (readAtOffset t med) as [tsMed| |]; try discriminate.
    destruct (Time_Before c tsMed).
    + unfold sub64. rewrite int64_wrap_id by lia.
      apply IH; try lia.
      pose proof (log2_up_half (hi - lo) (med - 1 - lo) ltac:(lia) ltac:(lia)
                               ltac:(lia)).
      pose proof (Z.log2_up_nonneg (med - 1 - lo + 1)).
      lia.
    + apply IH; try lia.
      pose proof (log2_up_half (hi - lo) (hi - med) ltac:(lia) ltac:(lia)
                               ltac:(lia)).
      pose proof (Z.log2_up_nonneg (hi - med + 1)).
      lia.
Qed.

(** More fuel does not change the result of a search that finished. *)
Lemma binarySearch_more_fuel t c :
  forall fuel lo hi,
    binarySearch fuel t lo hi c <> OutOfFuel ->
    forall fuel', (fuel <= fuel')%nat ->
      binarySearch fuel' t lo hi c = binarySearch fuel t lo hi c.
Proof.
  induction fuel as [|fuel IH]; intros lo hi H fuel' Hle.
  - now contradiction H.
  - destruct fuel' as [|fuel']; [lia|]. simpl in *.
    destruct (lo <? hi); [|reflexivity].
    destruct (readAtOffset t _) as [tsMed| |]; try reflexivity.
    destruct (Time_Before c tsMed); apply IH; auto; lia.
Qed.

(** X6.  The binary search is logarithmic: over the offsets [lo .. hi] (non-
    negative, [hi] below [2^62]) it returns, with an offset or with the
    error of a read, within [ceil (log2 (hi - lo + 1)) + 1] evaluations of
    its loop condition, that is after at most [ceil (log2 (hi - lo + 1))]
    reads of the log, whatever the log holds. *)
Theorem binarySearch_logarithmic (t : trimmer) (c : Time) (lo hi : Z) :
  0 <= lo -> lo <= hi -> 2 * hi <= MaxInt64 ->
  binarySearch (search_bound lo hi) t lo hi c <> OutOfFuel /\
  forall fuel, (search_bound lo hi <= fuel)%nat ->
    binarySearch fuel t lo hi c = binarySearch (search_bound lo hi) t lo hi c.
Proof.
  intros Hlo Hle Hsum.
  assert (H : binarySearch (search_bound lo hi) t lo hi c <> OutOfFuel)
    by (apply binarySearch_within_bound; auto).
  split; [exact H|]. intros fuel Hfuel.
  now apply binarySearch_more_fuel.
Qed.

(** The theorem on the small log: five offsets, four evaluations. *)
Lemma binarySearch_logarithmic_witness :
  0 <= 5 /\ 5 <= 9 /\ 2 * 9 <= MaxInt64 /\
  search_bound 5 9 = 4%nat /\
  binarySearch 4 small_trimmer 5 9 (cutoff small_trimmer) <> OutOfFuel /\
  binarySearch 4 small_trimmer 5 9 (cutoff small_trimmer) = Ret 7.
Proof.
  assert (H1 : 0 <= 5) by lia.
  assert (H2 : 5 <= 9) by lia.
  assert (H3 : 2 * 9 <= MaxInt64) by (unfold MaxInt64; lia).
  split; [exact H1|]. split; [exact H2|]. split; [exact H3|].
  split; [reflexivity|].
  destruct (binarySearch_logarithmic small_trimmer (cutoff small_trimmer) 5 9
              H1 H2 H3) as [H _].
  split; [exact H | reflexivity].
Defined.

End Trimmer.

(* ================================================================== *)
(** * The replication protocol (TLA+ module [OxiaReplication]) *)
(* ================================================================== *)

Module Replication.

Local Open Scope nat_scope.

(** ** Constants and basic types

    Nodes, operators and client values are identified by natural numbers.
    The model values of the TLA+ module become the constructors of
    enumerations; [NIL] becomes [None] of an option type, or a [NIL]
    constructor where the TLA+ set lists it among the statuses. *)

Definition Node := nat.
Definition Operator := nat.
Definition Value := nat.
Definition Epoch := nat.

Inductive ShardStatus := SS_NIL | STEADY_STATE | ELECTION | RECONFIGURATION.
Inductive OperatorStatus := RUNNING | NOT_RUNNING.
Inductive NodeStatus := FENCED | LEADER | FOLLOWER | NOT_MEMBER.
Inductive ElectionPhase := EP_NIL | FENCING | NOTIFY_LEADER | LEADER_ELECTED.
Inductive ReconfigOp := NODE_SWAP | EXPAND | CONTRACT.
Inductive ReconfigPhase := PREPARE | COMMIT.
Inductive ReturnCode := OK | INVALID_EPOCH.
Inductive CursorStatus := CS_NIL | ATTACHED | PENDING_TRUNCATE | PENDING_REMOVAL.

Record EntryId := mkEntryId { offset : nat; epoch : Epoch }.
Record LogEntry := mkLogEntry { entry_id : EntryId; value : option Value }.
Record Cursor := mkCursor {
  status : CursorStatus;
  last_pushed : EntryId;
  last_confirmed : EntryId
}.

Definition NoEntryId : EntryId := {| offset := 0; epoch := 0 |}.
Definition NoLogEntry : LogEntry := {| entry_id := NoEntryId; value := None |}.
Definition NoCursor : Cursor :=
  {| status := CS_NIL; last_pushed := NoEntryId; last_confirmed := NoEntryId |}.

(** ** Messages

    A field that only some variants of a message carry ([old_node],
    [new_node], [head_index], the snapshot payload) is an option. *)

Record FenceResponse := mkFenceResponse {
  fr_node : Node;
  fr_operator : Operator;
  fr_head_index : EntryId;
  fr_epoch : Epoch
}.

Inductive Message :=
| FENCE_REQUEST (node : Node) (operator : Operator) (ep : Epoch)
| FENCE_RESPONSE (r : FenceResponse)
| BECOME_LEADER_REQUEST (node : Node) (operator : Operator) (ep : Epoch)
    (rep_factor : nat) (follower_map : list (Node * EntryId))
| BECOME_LEADER_RESPONSE (node : Node) (operator : Operator) (ep : Epoch)
| ADD_FOLLOWER_REQUEST (node follower : Node) (head_index : EntryId) (ep : Epoch)
| TRUNCATE_REQUEST (dest_node source_node : Node) (ep : Epoch) (head_index : EntryId)
| TRUNCATE_RESPONSE (dest_node source_node : Node) (ep : Epoch) (head_index : EntryId)
| ADD_ENTRY_REQUEST (dest_node source_node : Node) (entry : LogEntry)
    (commit_index : EntryId) (ep : Epoch)
| ADD_ENTRY_RESPONSE (dest_node source_node : Node) (code : ReturnCode)
    (eid : EntryId) (ep : Epoch)
| PREPARE_RECONFIG_REQUEST (op : ReconfigOp) (ep : Epoch) (node : Node)
    (operator : Operator) (old_node : option Node)
| PREPARE_RECONFIG_RESPONSE (op : ReconfigOp) (ep : Epoch) (node : Node)
    (operator : Operator)
    (payload : option (list LogEntry * EntryId * EntryId))
| SNAPSHOT_REQUEST (node : Node) (operator : Operator) (ep : Epoch)
    (snapshot : list LogEntry) (head_index commit_index : EntryId)
| SNAPSHOT_RESPONSE (node : Node) (operator : Operator) (ep : Epoch)
    (head_index : EntryId)
| COMMIT_RECONFIG_REQUEST (op : ReconfigOp) (node : Node) (operator : Operator)
    (ep : Epoch) (rep_factor : nat) (old_node new_node : option Node)
    (head_index : option EntryId)
| COMMIT_RECONFIG_RESPONSE (op : ReconfigOp) (node : Node) (operator : Operator)
    (ep : Epoch) (old_node new_node : option Node).

(** ** Metadata, node and operator state *)

Record ReconfigMetadata := mkReconfig {
  phase : ReconfigPhase;
  rc_op : ReconfigOp;
  rc_epoch : Epoch;
  rc_rep_factor : nat;
  rc_old_node : option Node;
  rc_new_node : option Node;
  new_node_head_index : option EntryId
}.

Record Metadata := mkMetadata {
  shard_status : ShardStatus;
  md_epoch : Epoch;
  ensemble : list Node;
  md_rep_factor : nat;
  md_leader : option Node;
  reconfig : option ReconfigMetadata
}.

Record NodeState := mkNodeState {
  n_id : Node;
  n_status : NodeStatus;
  n_epoch : Epoch;
  n_leader : option Node;
  n_rep_factor : nat;
  log : list LogEntry;
  commit_index : EntryId;
  head_index : EntryId;
  follow_cursor : Node -> Cursor;
  reconfig_inprog : bool
}.

Record OperatorState := mkOperatorState {
  o_id : Operator;
  o_status : OperatorStatus;
  md_version : nat;
  md : option Metadata;
  election_phase : ElectionPhase;
  election_fencing_ensemble : list Node;
  election_final_ensemble : list Node;
  election_leader : option Node;
  election_fence_responses : list FenceResponse
}.

Record State := mkState {
  metadata_version : nat;
  metadata : Metadata;
  node_state : Node -> NodeState;
  operator_state : Operator -> OperatorState;
  confirmed : list (Value * bool);
  messages : list Message;
  operator_stop_ctr : nat
}.

(** ** Decidable equalities *)

Definition ShardStatus_eq_dec (x y : ShardStatus) : {x = y} + {x <> y}.
Proof. decide equality. Defined.
Definition OperatorStatus_eq_dec (x y : OperatorStatus) : {x = y} + {x <> y}.
Proof. decide equality. Defined.
Definition NodeStatus_eq_dec (x y : NodeStatus) : {x = y} + {x <> y}.
Proof. decide equality. Defined.
Definition ElectionPhase_eq_dec (x y : ElectionPhase) : {x = y} + {x <> y}.
Proof. decide equality. Defined.
Definition ReconfigOp_eq_dec (x y : ReconfigOp) : {x = y} + {x <> y}.
Proof. decide equality. Defined.
Definition ReconfigPhase_eq_dec (x y : ReconfigPhase) : {x = y} + {x <> y}.
Proof. decide equality. Defined.
Definition ReturnCode_eq_dec (x y : ReturnCode) : {x = y} + {x <> y}.
Proof. decide equality. Defined.
Definition CursorStatus_eq_dec (x y : CursorStatus) : {x = y} + {x <> y}.
Proof. decide equality. Defined.
Definition EntryId_eq_dec (x y : EntryId) : {x = y} + {x <> y}.
Proof. decide equality; apply Nat.eq_dec. Defined.
Definition LogEntry_eq_dec (x y : LogEntry) : {x = y} + {x <> y}.
Proof.
  decide equality;
    [ decide equality; apply Nat.eq_dec | apply EntryId_eq_dec ].
Defined.
Definition FenceResponse_eq_dec (x y : FenceResponse) : {x = y} + {x <> y}.
Proof. decide equality; try apply Nat.eq_dec; apply EntryId_eq_dec. Defined.
Definition Message_eq_dec (x y : Message) : {x = y} + {x <> y}.
Proof.
  decide equality;
    repeat (first
      [ apply Nat.eq_dec | apply EntryId_eq_dec | apply LogEntry_eq_dec
      | apply FenceResponse_eq_dec | apply ReconfigOp_eq_dec
      | apply ReturnCode_eq_dec
      | apply list_eq_dec | decide equality ]).
Defined.

(** ** Sets and functions

    A TLA+ set is a list read as a set; a TLA+ function over [Nodes] or
    [Operators] is a Rocq function, updated pointwise. *)

Definition mem (n : nat) (s : list nat) : bool := existsb (Nat.eqb n) s.
Definition subset (s1 s2 : list nat) : bool := forallb (fun n => mem n s2) s1.
Definition add_node (n : Node) (s : list Node) : list Node :=
  if mem n s then s else s ++ [n].
Definition remove_node (n : Node) (s : list Node) : list Node :=
  remove Nat.eq_dec n s.
Definition card_nodes (s : list Node) : nat := List.length (nodup Nat.eq_dec s).

Definition mem_response (r : FenceResponse) (s : list FenceResponse) : bool :=
  if in_dec FenceResponse_eq_dec r s then true else false.
Definition add_response (r : FenceResponse) (s : list FenceResponse)
  : list FenceResponse :=
  if mem_response r s then s else s ++ [r].
Definition card_responses (s : list FenceResponse) : nat :=
  List.length (nodup FenceResponse_eq_dec s).

Definition mem_entry (e : LogEntry) (s : list LogEntry) : bool :=
  if in_dec LogEntry_eq_dec e s then true else false.
Definition add_entry (e : LogEntry) (s : list LogEntry) : list LogEntry :=
  if mem_entry e s then s else s ++ [e].

Definition upd {A : Type} (f : nat -> A) (k : nat) (v : A) : nat -> A :=
  fun x => if x =? k then v else f x.

Definition eqb_opt_node (a b : option Node) : bool :=
  match a, b with
  | Some x, Some y => x =? y
  | None, None => true
  | _, _ => false
  end.

Definition status_eqb (a b : NodeStatus) : bool :=
  if NodeStatus_eq_dec a b then true else false.
Definition cstatus_eqb (a b : CursorStatus) : bool :=
  if CursorStatus_eq_dec a b then true else false.
Definition shard_eqb (a b : ShardStatus) : bool :=
  if ShardStatus_eq_dec a b then true else false.
Definition ostatus_eqb (a b : OperatorStatus) : bool :=
  if OperatorStatus_eq_dec a b then true else false.
Definition ephase_eqb (a b : ElectionPhase) : bool :=
  if ElectionPhase_eq_dec a b then true else false.
Definition rphase_eqb (a b : ReconfigPhase) : bool :=
  if ReconfigPhase_eq_dec a b then true else false.
Definition op_eqb (a b : ReconfigOp) : bool :=
  if ReconfigOp_eq_dec a b then true else false.

(** ** Record updates ([EXCEPT]) *)

Definition set_status (c : Cursor) (st : CursorStatus) : Cursor :=
  {| status := st; last_pushed := last_pushed c;
     last_confirmed := last_confirmed c |}.
Definition set_last_pushed (c : Cursor) (i : EntryId) : Cursor :=
  {| status := status c; last_pushed := i;
     last_confirmed := last_confirmed c |}.
Definition set_last_confirmed (c : Cursor) (i : EntryId) : Cursor :=
  {| status := status c; last_pushed := last_pushed c;
     last_confirmed := i |}.

Definition set_n_status (n : NodeState) (x : NodeStatus) : NodeState :=
  mkNodeState (n_id n) x (n_epoch n) (n_leader n) (n_rep_factor n) (log n)
              (commit_index n) (head_index n) (follow_cursor n)
              (reconfig_inprog n).
Definition set_n_epoch (n : NodeState) (x : Epoch) : NodeState :=
  mkNodeState (n_id n) (n_status n) x (n_leader n) (n_rep_factor n) (log n)
              (commit_index n) (head_index n) (follow_cursor n)
              (reconfig_inprog n).
Definition set_n_leader (n : NodeState) (x : option Node) : NodeState :=
  mkNodeState (n_id n) (n_status n) (n_epoch n) x (n_rep_factor n) (log n)
              (commit_index n) (head_index n) (follow_cursor n)
              (reconfig_inprog n).
Definition set_n_rep_factor (n : NodeState) (x : nat) : NodeState :=
  mkNodeState (n_id n) (n_status n) (n_epoch n) (n_leader n) x (log n)
              (commit_index n) (head_index n) (follow_cursor n)
              (reconfig_inprog n).
Definition set_log (n : NodeState) (x : list LogEntry) : NodeState :=
  mkNodeState (n_id n) (n_status n) (n_epoch n) (n_leader n) (n_rep_factor n) x
              (commit_index n) (head_index n) (follow_cursor n)
              (reconfig_inprog n).
Definition set_commit_index (n : NodeState) (x : EntryId) : NodeState :=
  mkNodeState (n_id n) (n_status n) (n_epoch n) (n_leader n) (n_rep_factor n)
              (log n) x (head_index n) (follow_cursor n) (reconfig_inprog n).
Definition set_head_index (n : NodeState) (x : EntryId) : NodeState :=
  mkNodeState (n_id n) (n_status n) (n_epoch n) (n_leader n) (n_rep_factor n)
              (log n) (commit_index n) x (follow_cursor n) (reconfig_inprog n).
Definition set_follow_cursor (n : NodeState) (x : Node -> Cursor) : NodeState :=
  mkNodeState (n_id n) (n_status n) (n_epoch n) (n_leader n) (n_rep_factor n)
              (log n) (commit_index n) (head_index n) x (reconfig_inprog n).
Definition set_reconfig_inprog (n : NodeState) (x : bool) : NodeState :=
  mkNodeState (n_id n) (n_status n) (n_epoch n) (n_leader n) (n_rep_factor n)
              (log n) (commit_index n) (head_index n) (follow_cursor n) x.

Definition set_shard_status (m : Metadata) (x : ShardStatus) : Metadata :=
  mkMetadata x (md_epoch m) (ensemble m) (md_rep_factor m) (md_leader m)
             (reconfig m).
Definition set_md_epoch (m : Metadata) (x : Epoch) : Metadata :=
  mkMetadata (shard_status m) x (ensemble m) (md_rep_factor m) (md_leader m)
             (reconfig m).
Definition set_ensemble (m : Metadata) (x : list Node) : Metadata :=
  mkMetadata (shard_status m) (md_epoch m) x (md_rep_factor m) (md_leader m)
             (reconfig m).
Definition set_md_rep_factor (m : Metadata) (x : nat) : Metadata :=
  mkMetadata (shard_status m) (md_epoch m) (ensemble m) x (md_leader m)
             (reconfig m).
Definition set_md_leader (m : Metadata) (x : option Node) : Metadata :=
  mkMetadata (shard_status m) (md_epoch m) (ensemble m) (md_rep_factor m) x
             (reconfig m).
Definition set_reconfig (m : Metadata) (x : option ReconfigMetadata) : Metadata :=
  mkMetadata (shard_status m) (md_epoch m) (ensemble m) (md_rep_factor m)
             (md_leader m) x.

Definition set_phase (r : ReconfigMetadata) (x : ReconfigPhase) : ReconfigMetadata :=
  mkReconfig x (rc_op r) (rc_epoch r) (rc_rep_factor r) (rc_old_node r)
             (rc_new_node r) (new_node_head_index r).
Definition set_new_node_head_index (r : ReconfigMetadata) (x : option EntryId)
  : ReconfigMetadata :=
  mkReconfig (phase r) (rc_op r) (rc_epoch r) (rc_rep_factor r) (rc_old_node r)
             (rc_new_node r) x.

Definition set_md_version (o : OperatorState) (x : nat) : OperatorState :=
  mkOperatorState (o_id o) (o_status o) x (md o) (election_phase o)
                  (election_fencing_ensemble o) (election_final_ensemble o)
                  (election_leader o) (election_fence_responses o).
Definition set_md (o : OperatorState) (x : option Metadata) : OperatorState :=
  mkOperatorState (o_id o) (o_status o) (md_version o) x (election_phase o)
                  (election_fencing_ensemble o) (election_final_ensemble o)
                  (election_leader o) (election_fence_responses o).
Definition set_election_phase (o : OperatorState) (x : ElectionPhase)
  : OperatorState :=
  mkOperatorState (o_id o) (o_status o) (md_version o) (md o) x
                  (election_fencing_ensemble o) (election_final_ensemble o)
                  (election_leader o) (election_fence_responses o).
Definition set_election_fence_responses (o : OperatorState)
           (x : list FenceResponse) : OperatorState :=
  mkOperatorState (o_id o) (o_status o) (md_version o) (md o) (election_phase o)
                  (election_fencing_ensemble o) (election_final_ensemble o)
                  (election_leader o) x.

Definition set_metadata_version (s : State) (x : nat) : State :=
  mkState x (metadata s) (node_state s) (operator_state s) (confirmed s)
          (messages s) (operator_stop_ctr s).
Definition set_metadata (s : State) (x : Metadata) : State :=
  mkState (metadata_version s) x (node_state s) (operator_state s) (confirmed s)
          (messages s) (operator_stop_ctr s).
Definition set_node_state (s : State) (x : Node -> NodeState) : State :=
  mkState (metadata_version s) (metadata s) x (operator_state s) (confirmed s)
          (messages s) (operator_stop_ctr s).
Definition set_operator_state (s : State) (x : Operator -> OperatorState) : State :=
  mkState (metadata_version s) (metadata s) (node_state s) x (confirmed s)
          (messages s) (operator_stop_ctr s).
Definition set_confirmed (s : State) (x : list (Value * bool)) : State :=
  mkState (metadata_version s) (metadata s) (node_state s) (operator_state s) x
          (messages s) (operator_stop_ctr s).
Definition set_messages (s : State) (x : list Message) : State :=
  mkState (metadata_version s) (metadata s) (node_state s) (operator_state s)
          (confirmed s) x (operator_stop_ctr s).
Definition set_operator_stop_ctr (s : State) (x : nat) : State :=
  mkState (metadata_version s) (metadata s) (node_state s) (operator_state s)
          (confirmed s) (messages s) x.

(** Update of one node, of one operator. *)
Definition upd_node (s : State) (n : Node) (x : NodeState) : State :=
  set_node_state s (upd (node_state s) n x).
Definition upd_operator (s : State) (o : Operator) (x : OperatorState) : State :=
  set_operator_state s (upd (operator_state s) o x).

(** ** The message fabric *)

(** Modelled from the spec: the module [MessagePassing], which
    [OxiaReplication] extends, is not part of the sources.  Following the
    specification (reliable unicast; a message that was sent stays
    deliverable until it is processed; add-entry traffic between one pair of
    nodes is delivered in entry order; the messages of a stopped operator are
    lost), [messages] is the bag of messages in flight: sending adds a
    message, processing removes one occurrence, a message is receivable
    when it is in the bag.  Redelivery and duplication, which the fabric
    also permits, are not modelled. *)

Definition receivable (msgs : list Message) (msg : Message) : bool :=
  if in_dec Message_eq_dec msg msgs then true else false.

Fixpoint remove_one (msg : Message) (msgs : list Message) : list Message :=
  match msgs with
  | [] => []
  | m :: rest => if Message_eq_dec msg m then rest else m :: remove_one msg rest
  end.

Definition SendMessages (new : list Message) (s : State) : State :=
  set_messages s (messages s ++ new).
Definition SendMessage (m : Message) (s : State) : State :=
  SendMessages [m] s.
Definition MessageProcessed (msg : Message) (s : State) : State :=
  set_messages s (remove_one msg (messages s)).
Definition ProcessedOneAndSendMore (msg : Message) (new : list Message)
           (s : State) : State :=
  set_messages s (remove_one msg (messages s) ++ new).
Definition ProcessedOneAndSendAnother (msg : Message) (m : Message) (s : State)
  : State :=
  ProcessedOneAndSendMore msg [m] s.

(** The operator a message is addressed to or comes from. *)
Definition msg_operator (m : Message) : option Operator :=
  match m with
  | FENCE_REQUEST _ o _ => Some o
  | FENCE_RESPONSE r => Some (fr_operator r)
  | BECOME_LEADER_REQUEST _ o _ _ _ => Some o
  | BECOME_LEADER_RESPONSE _ o _ => Some o
  | PREPARE_RECONFIG_REQUEST _ _ _ o _ => Some o
  | PREPARE_RECONFIG_RESPONSE _ _ _ o _ => Some o
  | SNAPSHOT_REQUEST _ o _ _ _ _ => Some o
  | SNAPSHOT_RESPONSE _ o _ _ => Some o
  | COMMIT_RECONFIG_REQUEST _ _ o _ _ _ _ _ => Some o
  | COMMIT_RECONFIG_RESPONSE _ _ o _ _ _ => Some o
  | _ => None
  end.

Definition OperatorMessagesLost (o : Operator) (s : State) : State :=
  set_messages s
    (filter (fun m => match msg_operator m with
                      | Some o' => negb (o' =? o)
                      | None => true
                      end) (messages s)).

(** ** Helper operators *)

Local Open Scope Z_scope.

(** [CompareLogEntries]: 1, 0 or -1. *)
Definition CompareLogEntries (entry_id1 entry_id2 : EntryId) : Z :=
  if (epoch entry_id2 <? epoch entry_id1)%nat then 1
  else if (epoch entry_id1 =? epoch entry_id2)%nat
          && (offset entry_id2 <? offset entry_id1)%nat then 1
  else if (epoch entry_id1 =? epoch entry_id2)%nat
          && (offset entry_id1 =? offset entry_id2)%nat then 0
  else -1.

Definition IsLowerId (entry_id1 entry_id2 : EntryId) : bool :=
  CompareLogEntries entry_id1 entry_id2 =? -1.
Definition IsLowerOrEqualId (entry_id1 entry_id2 : EntryId) : bool :=
  (CompareLogEntries entry_id1 entry_id2 =? -1)
  || (CompareLogEntries entry_id1 entry_id2 =? 0).
Definition IsHigherId (entry_id1 entry_id2 : EntryId) : bool :=
  CompareLogEntries entry_id1 entry_id2 =? 1.
Definition IsHigherOrEqualId (entry_id1 entry_id2 : EntryId) : bool :=
  (CompareLogEntries entry_id1 entry_id2 =? 0)
  || (CompareLogEntries entry_id1 entry_id2 =? 1).
Definition IsSameId (entry_id1 entry_id2 : EntryId) : bool :=
  CompareLogEntries entry_id1 entry_id2 =? 0.

Local Close Scope Z_scope.

(** [IsQuorum], on the cardinalities of its two arguments. *)
Definition IsQuorum (card_nodes card_ensemble : nat) : bool :=
  card_ensemble / 2 + 1 <=? card_nodes.

(** Modelled from the spec: [IsEarliestReceivableEntryMessage] belongs to
    the absent module [MessagePassing].  Add-entry requests and responses
    between one pair of nodes are delivered in entry order: a message is the
    earliest receivable one when it is receivable and no receivable message
    of the same type between the same two nodes carries a lower entry id. *)
Definition IsEarliestReceivableEntryMessage (msgs : list Message) (msg : Message)
  : bool :=
  receivable msgs msg &&
  match msg with
  | ADD_ENTRY_REQUEST d src e _ _ =>
      negb (existsb (fun m => match m with
                              | ADD_ENTRY_REQUEST d' src' e' _ _ =>
                                  (d' =? d) && (src' =? src)
                                  && IsLowerId (entry_id e') (entry_id e)
                              | _ => false
                              end) msgs)
  | ADD_ENTRY_RESPONSE d src _ i _ =>
      negb (existsb (fun m => match m with
                              | ADD_ENTRY_RESPONSE d' src' _ i' _ =>
                                  (d' =? d) && (src' =? src) && IsLowerId i' i
                              | _ => false
                              end) msgs)
  | _ => false
  end.

(** Guards and partial results of an action. *)
Notation "'when' b 'then' k" := (if b then k else None)
  (at level 10, b at level 100, k at level 200).
Notation "'let?' x ':=' e 'in' k" :=
  (match e with Some x => k | None => None end)
  (at level 10, x name, e at level 100, k at level 200).

Section Protocol.

(** ** Constants of the module *)

Variable Operators : list Operator.
Variable Nodes : list Node.
Variable Values : list Value.
Variable RepFactor : nat.
Variable MaxEpochs : nat.
Variable MaxOperatorStops : nat.

(** [Init] picks the initial ensemble with [CHOOSE] among the subsets of
    [Nodes] of cardinality [RepFactor]; the subset picked is a constant of
    the model. *)
Variable InitEnsemble : list Node.

(** [CHOOSE x \in S : P(x)], on fence responses and on log entries: some
    fixed element of [S] that satisfies [P]; nothing when there is none. *)
Variable choose_response :
  (FenceResponse -> bool) -> list FenceResponse -> option FenceResponse.
Variable choose_entry : (LogEntry -> bool) -> list LogEntry -> option LogEntry.

Definition HeadEntry (log : list LogEntry) : option LogEntry :=
  match log with
  | [] => Some NoLogEntry
  | _ => choose_entry
           (fun entry =>
              forallb (fun e => IsHigherOrEqualId (entry_id entry) (entry_id e))
                      log)
           log
  end.

(** ** Initial state *)

Definition init_node (n : Node) : NodeState :=
  {| n_id := n; n_status := NOT_MEMBER; n_epoch := 0; n_leader := None;
     n_rep_factor := 0; log := []; commit_index := NoEntryId;
     head_index := NoEntryId; follow_cursor := fun _ => NoCursor;
     reconfig_inprog := false |}.

Definition init_operator (o : Operator) : OperatorState :=
  {| o_id := o; o_status := NOT_RUNNING; md_version := 0; md := None;
     election_phase := EP_NIL; election_fencing_ensemble := [];
     election_final_ensemble := []; election_leader := None;
     election_fence_responses := [] |}.

Definition Init : State :=
  {| metadata_version := 0;
     metadata := {| shard_status := SS_NIL; md_epoch := 0;
                    ensemble := InitEnsemble; md_rep_factor := RepFactor;
                    md_leader := None; reconfig := None |};
     node_state := init_node;
     operator_state := init_operator;
     confirmed := [];
     messages := [];
     operator_stop_ctr := 0 |}.

(** ** Operator starts, stops *)

Definition OperatorStarts (o : Operator) (s : State) : option State :=
  when mem o Operators then
  when ostatus_eqb (o_status (operator_state s o)) NOT_RUNNING then
  Some (upd_operator s o
          {| o_id := o; o_status := RUNNING;
             md_version := metadata_version s;
             md := Some (metadata s);
             election_phase := EP_NIL; election_fencing_ensemble := [];
             election_final_ensemble := []; election_leader := None;
             election_fence_responses := [] |}).

Definition OperatorStops (o : Operator) (s : State) : option State :=
  when operator_stop_ctr s <? MaxOperatorStops then
  when mem o Operators then
  when ostatus_eqb (o_status (operator_state s o)) RUNNING then
  Some (OperatorMessagesLost o
          (set_operator_stop_ctr
             (upd_operator s o
                {| o_id := o_id (operator_state s o); o_status := NOT_RUNNING;
                   md_version := 0; md := None;
                   election_phase := EP_NIL; election_fencing_ensemble := [];
                   election_final_ensemble := []; election_leader := None;
                   election_fence_responses := [] |})
             (operator_stop_ctr s + 1))).

(** ** Operator starts an election *)

Definition GetFenceRequests (o : Operator) (new_epoch : Epoch)
           (ensemble : list Node) : list Message :=
  map (fun n => FENCE_REQUEST n o new_epoch) ensemble.

Definition is_swap_or_expand_commit (r : option ReconfigMetadata) : bool :=
  match r with
  | Some rc => rphase_eqb (phase rc) COMMIT
               && (op_eqb (rc_op rc) NODE_SWAP || op_eqb (rc_op rc) EXPAND)
  | None => false
  end.

(** [FencingEnsemble]: the new node of a reconfiguration in its commit
    phase is included. *)
Definition FencingEnsemble (s : State) : option (list Node) :=
  if is_swap_or_expand_commit (reconfig (metadata s)) then
    let? rc := reconfig (metadata s) in
    let? new_node := rc_new_node rc in
    Some (add_node new_node (ensemble (metadata s)))
  else Some (ensemble (metadata s)).

Definition OperatorStartsElection (o : Operator) (visible_nodes : list Node)
           (s : State) : option State :=
  when mem o Operators then
  let ostate := operator_state s o in
  let? fencing_ensemble := FencingEnsemble s in
  when md_epoch (metadata s) <? MaxEpochs then
  when ostatus_eqb (o_status ostate) RUNNING then
  when md_version ostate =? metadata_version s then
  when subset visible_nodes fencing_ensemble then
  when IsQuorum (card_nodes visible_nodes) (card_nodes fencing_ensemble) then
  let? omd := md ostate in
  let new_epoch := md_epoch omd + 1 in
  let new_metadata :=
    set_reconfig
      (set_md_leader
         (set_shard_status (set_md_epoch (metadata s) new_epoch) ELECTION)
         None)
      (match reconfig (metadata s) with
       | Some rc => if rphase_eqb (phase rc) COMMIT then Some rc else None
       | None => None
       end) in
  let new_md_version := metadata_version s + 1 in
  Some (SendMessages (GetFenceRequests o new_epoch (ensemble omd))
          (upd_operator
             (set_metadata (set_metadata_version s new_md_version) new_metadata)
             o
             {| o_id := o; o_status := o_status ostate;
                md_version := new_md_version;
                md := Some new_metadata;
                election_phase := FENCING;
                election_fencing_ensemble := fencing_ensemble;
                election_final_ensemble := [];
                election_leader := None;
                election_fence_responses := [] |})).

(** ** Node handles a fence request *)

Definition GetFenceResponse (nstate : NodeState) (new_epoch : Epoch)
           (o : Operator) : Message :=
  FENCE_RESPONSE {| fr_node := n_id nstate; fr_operator := o;
                    fr_head_index := head_index nstate;
                    fr_epoch := new_epoch |}.

Definition NodeHandlesFencingRequest (msg : Message) (s : State) : option State :=
  match msg with
  | FENCE_REQUEST node o ep =>
      when receivable (messages s) msg then
      let nstate := node_state s node in
      when n_epoch nstate <? ep then
      Some (ProcessedOneAndSendAnother msg (GetFenceResponse nstate ep o)
              (upd_node s node
                 (set_reconfig_inprog
                    (set_follow_cursor
                       (set_n_rep_factor
                          (set_n_status (set_n_epoch nstate ep) FENCED) 0)
                       (fun _ => NoCursor))
                    false)))
  | _ => None
  end.

(** ** Operator handles fence responses *)

Definition OperatorHandlesPreQuorumFencingResponse (o : Operator) (msg : Message)
           (s : State) : option State :=
  when mem o Operators then
  let ostate := operator_state s o in
  when ostatus_eqb (o_status ostate) RUNNING then
  let? omd := md ostate in
  when shard_eqb (shard_status omd) ELECTION then
  when ephase_eqb (election_phase ostate) FENCING then
  match msg with
  | FENCE_RESPONSE r =>
      when receivable (messages s) msg then
      when fr_operator r =? o then
      when md_epoch omd =? fr_epoch r then
      let fenced_res := add_response r (election_fence_responses ostate) in
      when negb (IsQuorum (card_responses fenced_res)
                          (card_nodes (election_fencing_ensemble ostate))) then
      Some (MessageProcessed msg
              (upd_operator s o (set_election_fence_responses ostate fenced_res)))
  | _ => None
  end.

Definition FinalElectionEnsemble (ostate : OperatorState)
           (responses : list FenceResponse) : option (list Node) :=
  let? omd := md ostate in
  if is_swap_or_expand_commit (reconfig omd) then
    let? rc := reconfig omd in
    let? new_node := rc_new_node rc in
    if op_eqb (rc_op rc) NODE_SWAP then
      let? old_node := rc_old_node rc in
      Some (add_node new_node (remove_node old_node (ensemble omd)))
    else Some (add_node new_node (ensemble omd))
  else Some (ensemble omd).

Definition FollowerResponse (responses : list FenceResponse) (f : Node)
  : option FenceResponse :=
  choose_response (fun r => fr_node r =? f) responses.

(** The follower map holds the followers only, in place of a function that
    maps the other nodes to [NIL]. *)
Definition GetFollowerMap (ostate : OperatorState) (leader : Node)
           (responses : list FenceResponse) (final_ensemble : list Node)
  : option (list (Node * EntryId)) :=
  let followers :=
    filter (fun f => negb (f =? leader)
                     && existsb (fun r => fr_node r =? f) responses)
           (filter (fun f => mem f final_ensemble) Nodes) in
  fold_right
    (fun f acc =>
       let? acc' := acc in
       let? r := FollowerResponse responses f in
       Some ((f, fr_head_index r) :: acc'))
    (Some []) followers.

Definition GetBecomeLeaderRequest (n : Node) (ep : Epoch) (o : Operator)
           (follower_map : list (Node * EntryId)) (rep_factor : nat) : Message :=
  BECOME_LEADER_REQUEST n o ep rep_factor follower_map.

(** The predicate of the [CHOOSE] of [WinnerResponse]. *)
Definition is_winner (responses : list FenceResponse) (final_ensemble : list Node)
           (r1 : FenceResponse) : bool :=
  mem (fr_node r1) final_ensemble
  && negb (existsb (fun r2 => IsHigherId (fr_head_index r2) (fr_head_index r1)
                              && mem (fr_node r2) final_ensemble)
                   responses).

Definition WinnerResponse (responses : list FenceResponse)
           (final_ensemble : list Node) : option FenceResponse :=
  choose_response (is_winner responses final_ensemble) responses.

Definition OperatorHandlesQuorumFencingResponse (o : Operator) (msg : Message)
           (s : State) : option State :=
  when mem o Operators then
  let ostate := operator_state s o in
  when ostatus_eqb (o_status ostate) RUNNING then
  let? omd := md ostate in
  when shard_eqb (shard_status omd) ELECTION then
  when ephase_eqb (election_phase ostate) FENCING then
  match msg with
  | FENCE_RESPONSE r =>
      when receivable (messages s) msg then
      when fr_operator r =? o then
      when md_epoch omd =? fr_epoch r then
      let fenced_res := add_response r (election_fence_responses ostate) in
      when IsQuorum (card_responses fenced_res)
                    (card_nodes (election_fencing_ensemble ostate)) then
      let? final_ensemble := FinalElectionEnsemble ostate fenced_res in
      let? max_head_res := WinnerResponse fenced_res final_ensemble in
      let new_leader := fr_node max_head_res in
      let? follower_map :=
        GetFollowerMap ostate new_leader fenced_res final_ensemble in
      Some (ProcessedOneAndSendAnother msg
              (GetBecomeLeaderRequest new_leader (md_epoch omd) o follower_map
                                      (md_rep_factor omd))
              (upd_operator s o
                 {| o_id := o_id ostate; o_status := o_status ostate;
                    md_version := md_version ostate; md := md ostate;
                    election_phase := NOTIFY_LEADER;
                    election_fencing_ensemble := election_fencing_ensemble ostate;
                    election_final_ensemble := final_ensemble;
                    election_leader := Some new_leader;
                    election_fence_responses := fenced_res |}))
  | _ => None
  end.

(** ** Node handles a Become Leader request *)

Definition GetHighestEntryOfEpoch (nstate : NodeState) (target_epoch : Epoch)
  : option LogEntry :=
  if existsb (fun entry => epoch (entry_id entry) <=? target_epoch) (log nstate)
  then choose_entry
         (fun entry =>
            (epoch (entry_id entry) <=? target_epoch)
            && forallb
                 (fun e =>
                    (target_epoch <? epoch (entry_id e))
                    || ((epoch (entry_id e) <=? target_epoch)
                        && IsHigherOrEqualId (entry_id entry) (entry_id e)))
                 (log nstate))
         (log nstate)
  else Some NoLogEntry.

Definition NeedsTruncation (nstate : NodeState) (head : EntryId) : bool :=
  ((epoch head =? epoch (head_index nstate))
   && (offset (head_index nstate) <? offset head))
  || negb (epoch head =? epoch (head_index nstate)).

Definition GetCursor (nstate : NodeState) (head : EntryId) : Cursor :=
  if NeedsTruncation nstate head
  then {| status := PENDING_TRUNCATE; last_pushed := NoEntryId;
          last_confirmed := NoEntryId |}
  else {| status := ATTACHED; last_pushed := head; last_confirmed := head |}.

Fixpoint lookup_head (follower_map : list (Node * EntryId)) (n : Node)
  : option EntryId :=
  match follower_map with
  | [] => None
  | (f, h) :: rest => if f =? n then Some h else lookup_head rest n
  end.

Definition GetCursors (nstate : NodeState) (follower_map : list (Node * EntryId))
  : Node -> Cursor :=
  fun n => match lookup_head follower_map n with
           | Some h => GetCursor nstate h
           | None => NoCursor
           end.

Definition GetTruncateRequest (nstate : NodeState) (follower : Node)
           (target_epoch : Epoch) : option Message :=
  let? e := GetHighestEntryOfEpoch nstate target_epoch in
  Some (TRUNCATE_REQUEST follower (n_id nstate) (n_epoch nstate) (entry_id e)).

Definition FollowersToTruncate (nstate : NodeState)
           (follower_map : list (Node * EntryId)) : list Node :=
  filter (fun f => match lookup_head follower_map f with
                   | Some h => NeedsTruncation nstate h
                   | None => false
                   end) Nodes.

Definition GetTruncateRequests (nstate : NodeState)
           (follower_map : list (Node * EntryId)) : option (list Message) :=
  fold_right
    (fun f acc =>
       let? acc' := acc in
       let? h := lookup_head follower_map f in
       let? m := GetTruncateRequest nstate f (epoch h) in
       Some (m :: acc'))
    (Some []) (FollowersToTruncate nstate follower_map).

Definition GetBecomeLeaderResponse (n : Node) (ep : Epoch) (o : Operator)
  : Message :=
  BECOME_LEADER_RESPONSE n o ep.

Definition NodeHandlesBecomeLeaderRequest (msg : Message) (s : State)
  : option State :=
  match msg with
  | BECOME_LEADER_REQUEST node o ep rep_factor follower_map =>
      when receivable (messages s) msg then
      let nstate := node_state s node in
      when n_epoch nstate =? ep then
      let? truncate_requests := GetTruncateRequests nstate follower_map in
      let leader_response := GetBecomeLeaderResponse node ep o in
      let updated_cursors := GetCursors nstate follower_map in
      Some (ProcessedOneAndSendMore msg (truncate_requests ++ [leader_response])
              (upd_node s node
                 (set_follow_cursor
                    (set_n_rep_factor
                       (set_n_leader (set_n_status nstate LEADER) (Some node))
                       rep_factor)
                    updated_cursors)))
  | _ => None
  end.

(** ** Operator handles the Become Leader response *)

Definition OperatorHandlesBecomeLeaderResponse (o : Operator) (msg : Message)
           (s : State) : option State :=
  when mem o Operators then
  let ostate := operator_state s o in
  when ostatus_eqb (o_status ostate) RUNNING then
  let? omd := md ostate in
  when shard_eqb (shard_status omd) ELECTION then
  match msg with
  | BECOME_LEADER_RESPONSE node o' ep =>
      when receivable (messages s) msg then
      when o' =? o then
      when ephase_eqb (election_phase ostate) NOTIFY_LEADER then
      when md_epoch omd =? ep then
      when metadata_version s =? md_version ostate then
      let new_md :=
        set_reconfig
          (set_md_rep_factor
             (set_ensemble
                (set_md_leader (set_shard_status omd STEADY_STATE) (Some node))
                (election_final_ensemble ostate))
             (card_nodes (election_final_ensemble ostate)))
          None in
      Some (MessageProcessed msg
              (set_metadata_version
                 (set_metadata
                    (upd_operator s o
                       (set_md
                          (set_md_version
                             (set_election_phase ostate LEADER_ELECTED)
                             (metadata_version s + 1))
                          (Some new_md)))
                    new_md)
                 (metadata_version s + 1)))
  | _ => None
  end.

(** ** Operator handles a fence response after the election *)

Definition GetAddFollowerRequest (n : Node) (ep : Epoch) (follower : Node)
           (head : EntryId) : Message :=
  ADD_FOLLOWER_REQUEST n follower head ep.

Definition OperatorHandlesPostQuorumFencingResponse (o : Operator)
           (msg : Message) (s : State) : option State :=
  when mem o Operators then
  let ostate := operator_state s o in
  when ostatus_eqb (o_status ostate) RUNNING then
  when ephase_eqb (election_phase ostate) LEADER_ELECTED then
  match msg with
  | FENCE_RESPONSE r =>
      when receivable (messages s) msg then
      when fr_operator r =? o then
      let? omd := md ostate in
      when mem (fr_node r) (ensemble omd) then
      when md_epoch omd =? fr_epoch r then
      let? leader := election_leader ostate in
      Some (ProcessedOneAndSendAnother msg
              (GetAddFollowerRequest leader (md_epoch omd) (fr_node r)
                                     (fr_head_index r))
              (upd_operator s o
                 (set_election_fence_responses ostate
                    (add_response r (election_fence_responses ostate)))))
  | _ => None
  end.

(** ** Leader handles an Add Follower request *)

Definition LeaderHandlesAddFollowerRequest (msg : Message) (s : State)
  : option State :=
  match msg with
  | ADD_FOLLOWER_REQUEST node follower head ep =>
      when receivable (messages s) msg then
      let nstate := node_state s node in
      when n_epoch nstate =? ep then
      when status_eqb (n_status nstate) LEADER then
      when cstatus_eqb (status (follow_cursor nstate follower)) CS_NIL then
      let s' :=
        upd_node s node
          (set_follow_cursor nstate
             (upd (follow_cursor nstate) follower (GetCursor nstate head))) in
      if NeedsTruncation nstate head then
        let? m := GetTruncateRequest nstate follower (epoch head) in
        Some (ProcessedOneAndSendAnother msg m s')
      else Some (MessageProcessed msg s')
  | _ => None
  end.

(** ** Node handles a Truncate request *)

Definition GetTruncateResponse (dest_node source_node : Node) (ep : Epoch)
           (head : EntryId) : Message :=
  TRUNCATE_RESPONSE source_node dest_node ep head.

Definition TruncateLog (log : list LogEntry) (last_safe_entry_id : EntryId)
  : list LogEntry :=
  filter (fun entry => IsLowerOrEqualId (entry_id entry) last_safe_entry_id) log.

Definition NodeHandlesTruncateRequest (msg : Message) (s : State)
  : option State :=
  match msg with
  | TRUNCATE_REQUEST dest_node source_node ep head =>
      when receivable (messages s) msg then
      let nstate := node_state s dest_node in
      let truncated_log := TruncateLog (log nstate) head in
      when status_eqb (n_status nstate) FENCED then
      when n_epoch nstate =? ep then
      let? head_entry := HeadEntry truncated_log in
      Some (ProcessedOneAndSendAnother msg
              (GetTruncateResponse dest_node source_node ep (entry_id head_entry))
              (upd_node s dest_node
                 (set_follow_cursor
                    (set_head_index
                       (set_log
                          (set_n_leader
                             (set_n_epoch (set_n_status nstate FOLLOWER) ep)
                             (Some source_node))
                          truncated_log)
                       (entry_id head_entry))
                    (fun _ => NoCursor))))
  | _ => None
  end.

(** ** Leader handles a Truncate response *)

Definition LeaderHandlesTruncateResponse (msg : Message) (s : State)
  : option State :=
  match msg with
  | TRUNCATE_RESPONSE dest_node source_node ep head =>
      when receivable (messages s) msg then
      let nstate := node_state s dest_node in
      when status_eqb (n_status nstate) LEADER then
      when n_epoch nstate =? ep then
      Some (MessageProcessed msg
              (upd_node s dest_node
                 (set_follow_cursor nstate
                    (upd (follow_cursor nstate) source_node
                         {| status := ATTACHED; last_pushed := head;
                            last_confirmed := head |}))))
  | _ => None
  end.

(** ** A client writes an entry to the leader *)

Definition in_domain (v : Value) (confirmed : list (Value * bool)) : bool :=
  existsb (fun p => fst p =? v) confirmed.

Definition Write (n : Node) (v : Value) (s : State) : option State :=
  when mem n Nodes then
  when mem v Values then
  let nstate := node_state s n in
  when status_eqb (n_status nstate) LEADER then
  when negb (in_domain v (confirmed s)) then
  let eid := {| offset := offset (head_index nstate) + 1;
                epoch := n_epoch nstate |} in
  let log_entry := {| entry_id := eid; value := Some v |} in
  Some (set_confirmed
          (upd_node s n
             (set_head_index (set_log nstate (add_entry log_entry (log nstate)))
                             eid))
          (confirmed s ++ [(v, false)])).

(** ** The leader sends entries to followers *)

Definition CanSendToFollower (s : State) (lstate : NodeState) (follower : Node)
  : bool :=
  negb (status_eqb (n_status (node_state s follower)) NOT_MEMBER)
  && negb (follower =? n_id lstate)
  && cstatus_eqb (status (follow_cursor lstate follower)) ATTACHED
  && IsHigherId (head_index lstate) (last_pushed (follow_cursor lstate follower)).

Definition IncludesAllSendableFollowers (s : State) (lstate : NodeState)
           (followers : list Node) : bool :=
  forallb (CanSendToFollower s lstate) followers
  && negb (existsb (fun f => negb (f =? n_id lstate)
                             && negb (mem f followers)
                             && CanSendToFollower s lstate f)
                   Nodes).

Definition NextEntry (lstate : NodeState) (last_entry_id : EntryId)
  : option LogEntry :=
  choose_entry
    (fun e1 =>
       IsHigherId (entry_id e1) last_entry_id
       && negb (existsb
                  (fun e2 => IsLowerId (entry_id e2) (entry_id e1)
                             && IsHigherId (entry_id e2) last_entry_id)
                  (log lstate)))
    (log lstate).

Definition GetAddEntryRequest (lstate : NodeState) (entry : LogEntry)
           (follower : Node) : Message :=
  ADD_ENTRY_REQUEST follower (n_id lstate) entry (commit_index lstate)
                    (n_epoch lstate).

(** [GetNextEntries]: the next entry of each follower of the group. *)
Definition GetNextEntries (lstate : NodeState) (followers : list Node)
  : option (list (Node * LogEntry)) :=
  fold_right
    (fun f acc =>
       let? acc' := acc in
       let? e := NextEntry lstate (last_pushed (follow_cursor lstate f)) in
       Some ((f, e) :: acc'))
    (Some []) followers.

Fixpoint lookup_entry (next_entries : list (Node * LogEntry)) (n : Node)
  : option LogEntry :=
  match next_entries with
  | [] => None
  | (f, e) :: rest => if f =? n then Some e else lookup_entry rest n
  end.

Definition GetNextAddEntryRequests (lstate : NodeState)
           (next_entries : list (Node * LogEntry)) : list Message :=
  map (fun p => GetAddEntryRequest lstate (snd p) (fst p)) next_entries.

Definition LeaderSendsEntriesToFollowers (leader : Node) (followers : list Node)
           (s : State) : option State :=
  when mem leader Nodes then
  when subset followers Nodes then
  when negb (match followers with [] => true | _ => false end) then
  let lstate := node_state s leader in
  when status_eqb (n_status lstate) LEADER then
  when IncludesAllSendableFollowers s lstate followers then
  let? next_entries := GetNextEntries lstate followers in
  Some (SendMessages (GetNextAddEntryRequests lstate next_entries)
          (upd_node s leader
             (set_follow_cursor lstate
                (fun n => match lookup_entry next_entries n with
                          | Some e => set_last_pushed (follow_cursor lstate n)
                                                      (entry_id e)
                          | None => follow_cursor lstate n
                          end)))).

(** ** A follower confirms, or rejects, an entry *)

Definition GetAddEntryOkResponse (source_node : Node) (fstate : NodeState)
           (entry : LogEntry) : Message :=
  ADD_ENTRY_RESPONSE source_node (n_id fstate) OK (entry_id entry)
                     (n_epoch fstate).

Definition FollowerConfirmsEntry (msg : Message) (s : State) : option State :=
  match msg with
  | ADD_ENTRY_REQUEST dest_node source_node entry commit ep =>
      when IsEarliestReceivableEntryMessage (messages s) msg then
      let f := dest_node in
      let fstate := node_state s f in
      when status_eqb (n_status fstate) FOLLOWER
           || status_eqb (n_status fstate) FENCED then
      when n_epoch fstate <=? ep then
      Some (ProcessedOneAndSendAnother msg
              (GetAddEntryOkResponse source_node fstate entry)
              (upd_node s f
                 (set_commit_index
                    (set_head_index
                       (set_log
                          (set_n_leader
                             (set_n_epoch (set_n_status fstate FOLLOWER) ep)
                             (Some source_node))
                          (add_entry entry (log fstate)))
                       (entry_id entry))
                    commit)))
  | _ => None
  end.

Definition GetAddEntryInvalidEpochResponse (nstate : NodeState)
           (source_node : Node) (entry : LogEntry) (ep : Epoch) : Message :=
  ADD_ENTRY_RESPONSE source_node (n_id nstate) INVALID_EPOCH (entry_id entry) ep.

Definition FollowerRejectsEntry (msg : Message) (s : State) : option State :=
  match msg with
  | ADD_ENTRY_REQUEST dest_node source_node entry commit ep =>
      when IsEarliestReceivableEntryMessage (messages s) msg then
      let nstate := node_state s dest_node in
      when ep <? n_epoch nstate then
      Some (ProcessedOneAndSendAnother msg
              (GetAddEntryInvalidEpochResponse nstate source_node entry ep) s)
  | _ => None
  end.

(** ** The leader handles an add entry response *)

Definition GetEntry (eid : EntryId) (nstate : NodeState) : option LogEntry :=
  choose_entry (fun entry => IsSameId (entry_id entry) eid) (log nstate).

(** The follow cursors that count for an entry: attached, and confirmed up
    to the entry at least. *)
Definition quorum_cursors (eid : EntryId) (follow_cursor : Node -> Cursor)
  : list Node :=
  filter (fun n => cstatus_eqb (status (follow_cursor n)) ATTACHED
                   && IsLowerOrEqualId eid (last_confirmed (follow_cursor n)))
         Nodes.

(** The leader counts follow cursors only: it holds the entry itself. *)
Definition EntryReachedQuorum (eid : EntryId) (follow_cursor : Node -> Cursor)
           (rep_factor : nat) : bool :=
  rep_factor / 2 <=? card_nodes (quorum_cursors eid follow_cursor).

Definition LogPrefixAtQuorum (nstate : NodeState) (eid : EntryId)
           (follow_cursor : Node -> Cursor) (rep_factor : nat) : bool :=
  forallb (fun entry =>
             IsHigherId (entry_id entry) eid
             || (IsLowerOrEqualId (entry_id entry) eid
                 && EntryReachedQuorum (entry_id entry) follow_cursor rep_factor))
          (log nstate).

Definition EntryIsCommitted (nstate : NodeState) (eid : EntryId)
           (cursor : Node -> Cursor) (rep_factor : nat) : bool :=
  LogPrefixAtQuorum nstate eid cursor rep_factor
  && (epoch eid =? n_epoch nstate).

Definition set_confirmed_true (v : option Value) (confirmed : list (Value * bool))
  : list (Value * bool) :=
  match v with
  | Some v => map (fun p => if fst p =? v then (fst p, true) else p) confirmed
  | None => confirmed
  end.

Definition LeaderHandlesEntryConfirm (msg : Message) (s : State) : option State :=
  match msg with
  | ADD_ENTRY_RESPONSE dest_node source_node code eid ep =>
      when IsEarliestReceivableEntryMessage (messages s) msg then
      let leader := dest_node in
      let follower := source_node in
      let nstate := node_state s leader in
      when status_eqb (n_status nstate) LEADER then
      when n_epoch nstate =? ep then
      when (if ReturnCode_eq_dec code OK then true else false) then
      when cstatus_eqb (status (follow_cursor nstate follower)) ATTACHED then
      let updated_cursor :=
        upd (follow_cursor nstate) follower
            (set_last_confirmed (follow_cursor nstate follower) eid) in
      if EntryIsCommitted nstate eid updated_cursor (n_rep_factor nstate) then
        let? entry := GetEntry eid nstate in
        Some (MessageProcessed msg
                (set_confirmed
                   (upd_node s leader
                      (set_commit_index
                         (set_follow_cursor nstate updated_cursor)
                         (if IsHigherId eid (commit_index nstate)
                          then eid else commit_index nstate)))
                   (set_confirmed_true (value entry) (confirmed s))))
      else
        Some (MessageProcessed msg
                (upd_node s leader (set_follow_cursor nstate updated_cursor)))
  | _ => None
  end.

Definition LeaderHandlesEntryRejection (msg : Message) (s : State)
  : option State :=
  match msg with
  | ADD_ENTRY_RESPONSE dest_node source_node code eid ep =>
      when IsEarliestReceivableEntryMessage (messages s) msg then
      let nstate := node_state s dest_node in
      when status_eqb (n_status nstate) LEADER then
      when n_epoch nstate =? ep then
      when (if ReturnCode_eq_dec code INVALID_EPOCH then true else false) then
      Some (MessageProcessed msg
              (upd_node s dest_node
                 (set_follow_cursor (set_n_status nstate FENCED)
                                    (fun _ => NoCursor))))
  | _ => None
  end.

(** ** The operator starts a reconfiguration *)

Definition ReconfigurationAllowed (s : State) (ostate : OperatorState) : bool :=
  ostatus_eqb (o_status ostate) RUNNING
  && match md ostate with
     | Some omd => shard_eqb (shard_status omd) STEADY_STATE
                   && match reconfig omd with None => true | Some _ => false end
     | None => false
     end
  && (md_version ostate =? metadata_version s).

(** The common part of the three actions: the metadata and the operator
    take the reconfiguration, and the request goes to the leader. *)
Definition start_reconfiguration (o : Operator) (omd : Metadata)
           (rc : ReconfigMetadata) (request : Message) (s : State) : State :=
  let new_md_version := metadata_version s + 1 in
  let new_md :=
    set_reconfig
      (set_md_epoch (set_shard_status omd RECONFIGURATION) (rc_epoch rc))
      (Some rc) in
  SendMessage request
    (upd_operator
       (set_metadata (set_metadata_version s new_md_version) new_md)
       o
       (set_md (set_md_version (operator_state s o) new_md_version)
               (Some new_md))).

Definition GetPrepareNodeSwapReconfigRequest (ostate : OperatorState)
           (leader : Node) (old_node : Node) (new_epoch : Epoch) : Message :=
  PREPARE_RECONFIG_REQUEST NODE_SWAP new_epoch leader (o_id ostate)
                           (Some old_node).

Definition OperatorStartsNodeSwapReconfiguration (o : Operator)
           (old_node new_node : Node) (s : State) : option State :=
  when md_epoch (metadata s) <? MaxEpochs then
  when mem o Operators then
  let ostate := operator_state s o in
  when ReconfigurationAllowed s ostate then
  when mem old_node Nodes && mem new_node Nodes then
  let? omd := md ostate in
  when mem old_node (ensemble omd) then
  when negb (eqb_opt_node (Some old_node) (md_leader omd)) then
  when negb (mem new_node (ensemble omd)) then
  let? leader := md_leader omd in
  let new_epoch := md_epoch (metadata s) + 1 in
  let rc := {| phase := PREPARE; rc_op := NODE_SWAP; rc_epoch := new_epoch;
               rc_rep_factor := md_rep_factor omd;
               rc_old_node := Some old_node; rc_new_node := Some new_node;
               new_node_head_index := Some NoEntryId |} in
  Some (start_reconfiguration o omd rc
          (GetPrepareNodeSwapReconfigRequest ostate leader old_node new_epoch) s).

Definition GetPrepareExpandReconfigRequest (ostate : OperatorState)
           (leader : Node) (new_epoch : Epoch) : Message :=
  PREPARE_RECONFIG_REQUEST EXPAND new_epoch leader (o_id ostate) None.

Definition OperatorStartsExpandReconfiguration (o : Operator) (new_node : Node)
           (s : State) : option State :=
  when md_epoch (metadata s) <? MaxEpochs then
  when mem o Operators then
  let ostate := operator_state s o in
  when ReconfigurationAllowed s ostate then
  when mem new_node Nodes then
  let? omd := md ostate in
  when negb (mem new_node (ensemble omd)) then
  let? leader := md_leader omd in
  let new_epoch := md_epoch (metadata s) + 1 in
  let rc := {| phase := PREPARE; rc_op := EXPAND; rc_epoch := new_epoch;
               rc_rep_factor := md_rep_factor omd + 1;
               rc_old_node := None; rc_new_node := Some new_node;
               new_node_head_index := Some NoEntryId |} in
  Some (start_reconfiguration o omd rc
          (GetPrepareExpandReconfigRequest ostate leader new_epoch) s).

Definition GetPrepareContractReconfigRequest (ostate : OperatorState)
           (leader : Node) (old_node : Node) (new_epoch : Epoch) : Message :=
  PREPARE_RECONFIG_REQUEST CONTRACT new_epoch leader (o_id ostate)
                           (Some old_node).

Definition OperatorStartsContractReconfiguration (o : Operator) (old_node : Node)
           (s : State) : option State :=
  when md_epoch (metadata s) <? MaxEpochs then
  when mem o Operators then
  let ostate := operator_state s o in
  when ReconfigurationAllowed s ostate then
  let? omd := md ostate in
  when 3 <? md_rep_factor omd then
  when mem old_node Nodes then
  when mem old_node (ensemble omd) then
  when negb (eqb_opt_node (Some old_node) (md_leader omd)) then
  let? leader := md_leader omd in
  let new_epoch := md_epoch (metadata s) + 1 in
  let rc := {| phase := PREPARE; rc_op := CONTRACT; rc_epoch := new_epoch;
               rc_rep_factor := md_rep_factor omd - 1;
               rc_old_node := Some old_node; rc_new_node := None;
               new_node_head_index := None |} in
  Some (start_reconfiguration o omd rc
          (GetPrepareContractReconfigRequest ostate leader old_node new_epoch) s).

(** ** The leader handles the prepare request *)

Definition GetPrepareReconfigResponse (op : ReconfigOp) (ep : Epoch)
           (operator : Operator) (nstate : NodeState) : Message :=
  if op_eqb op CONTRACT
  then PREPARE_RECONFIG_RESPONSE op ep (n_id nstate) operator None
  else PREPARE_RECONFIG_RESPONSE op ep (n_id nstate) operator
         (Some (log nstate, head_index nstate, commit_index nstate)).

Definition LeaderHandlesPrepareReconfigRequest (msg : Message) (s : State)
  : option State :=
  match msg with
  | PREPARE_RECONFIG_REQUEST op ep node operator old_node =>
      when receivable (messages s) msg then
      let nstate := node_state s node in
      when n_epoch nstate <? ep then
      when status_eqb (n_status nstate) LEADER then
      when negb (reconfig_inprog nstate) then
      let? nstate' :=
        if op_eqb op EXPAND
        then Some (set_reconfig_inprog (set_n_epoch nstate ep) true)
        else
          let? old := old_node in
          Some (set_follow_cursor
                  (set_reconfig_inprog (set_n_epoch nstate ep) true)
                  (upd (follow_cursor nstate) old
                       (set_status (follow_cursor nstate old) PENDING_REMOVAL)))
      in
      Some (ProcessedOneAndSendAnother msg
              (GetPrepareReconfigResponse op ep operator nstate)
              (upd_node s (n_id nstate) nstate'))
  | _ => None
  end.

(** ** The operator handles the prepare response *)

Definition GetCommitContractReconfigRequest (ostate : OperatorState)
  : option Message :=
  let? omd := md ostate in
  let? rc := reconfig omd in
  let? leader := md_leader omd in
  let? old := rc_old_node rc in
  Some (COMMIT_RECONFIG_REQUEST CONTRACT leader (o_id ostate) (md_epoch omd)
                                (rc_rep_factor rc) (Some old) None None).

Definition GetSnapshotRequest (ostate : OperatorState) (snapshot : list LogEntry)
           (head commit : EntryId) : option Message :=
  let? omd := md ostate in
  let? rc := reconfig omd in
  let? new_node := rc_new_node rc in
  Some (SNAPSHOT_REQUEST new_node (o_id ostate) (md_epoch omd) snapshot head
                         commit).

Definition OperatorHandlesPrepareReconfigResponse (o : Operator) (msg : Message)
           (s : State) : option State :=
  when mem o Operators then
  let ostate := operator_state s o in
  when ostatus_eqb (o_status ostate) RUNNING then
  let? omd := md ostate in
  when shard_eqb (shard_status omd) RECONFIGURATION then
  let? rc := reconfig omd in
  when rphase_eqb (phase rc) PREPARE then
  when md_version ostate =? metadata_version s then
  match msg with
  | PREPARE_RECONFIG_RESPONSE op ep node operator payload =>
      when receivable (messages s) msg then
      when operator =? o then
      when md_epoch omd =? ep then
      if op_eqb op NODE_SWAP || op_eqb op EXPAND then
        let? snap := payload in
        let? request :=
          GetSnapshotRequest ostate (fst (fst snap)) (snd (fst snap)) (snd snap)
        in
        Some (ProcessedOneAndSendAnother msg request s)
      else
        let new_md := set_reconfig omd (Some (set_phase rc COMMIT)) in
        let? request := GetCommitContractReconfigRequest ostate in
        Some (ProcessedOneAndSendAnother msg request
                (upd_operator
                   (set_metadata
                      (set_metadata_version s (metadata_version s + 1)) new_md)
                   o
                   (set_md (set_md_version ostate (metadata_version s + 1))
                           (Some new_md))))
  | _ => None
  end.

(** ** The new follower handles a snapshot request *)

Definition GetSnapshotResponse (node : Node) (operator : Operator) (ep : Epoch)
           (head : EntryId) : Message :=
  SNAPSHOT_RESPONSE node operator ep head.

Definition NodeHandlesSnapshotRequest (msg : Message) (s : State)
  : option State :=
  match msg with
  | SNAPSHOT_REQUEST node operator ep snapshot head commit =>
      when receivable (messages s) msg then
      let nstate := node_state s node in
      when n_epoch nstate <? ep then
      Some (ProcessedOneAndSendAnother msg
              (GetSnapshotResponse node operator ep head)
              (upd_node s (n_id nstate)
                 (set_commit_index
                    (set_head_index
                       (set_log
                          (set_follow_cursor
                             (set_n_epoch (set_n_status nstate FENCED) ep)
                             (fun _ => NoCursor))
                          snapshot)
                       head)
                    commit)))
  | _ => None
  end.

(** ** The operator handles the snapshot response *)

Definition GetCommitReconfigRequest (ostate : OperatorState)
           (new_node_head : EntryId) : option Message :=
  let? omd := md ostate in
  let? rc := reconfig omd in
  let? leader := md_leader omd in
  let? new_node := rc_new_node rc in
  if op_eqb (rc_op rc) NODE_SWAP then
    let? old := rc_old_node rc in
    Some (COMMIT_RECONFIG_REQUEST NODE_SWAP leader (o_id ostate) (md_epoch omd)
                                  (rc_rep_factor rc) (Some old) (Some new_node)
                                  (Some new_node_head))
  else
    Some (COMMIT_RECONFIG_REQUEST EXPAND leader (o_id ostate) (md_epoch omd)
                                  (rc_rep_factor rc) None (Some new_node)
                                  (Some new_node_head)).

Definition OperatorHandlesSnapshotResponse (o : Operator) (msg : Message)
           (s : State) : option State :=
  when mem o Operators then
  let ostate := operator_state s o in
  when ostatus_eqb (o_status ostate) RUNNING then
  let? omd := md ostate in
  when shard_eqb (shard_status omd) RECONFIGURATION then
  let? rc := reconfig omd in
  when rphase_eqb (phase rc) PREPARE then
  when metadata_version s =? md_version ostate then
  match msg with
  | SNAPSHOT_RESPONSE node operator ep head =>
      when receivable (messages s) msg then
      when operator =? o then
      when md_epoch omd =? ep then
      let new_md :=
        set_reconfig omd
          (Some (set_new_node_head_index (set_phase rc COMMIT) (Some head))) in
      let? request := GetCommitReconfigRequest ostate head in
      Some (ProcessedOneAndSendAnother msg request
              (upd_operator
                 (set_metadata
                    (set_metadata_version s (metadata_version s + 1)) new_md)
                 o
                 (set_md (set_md_version ostate (metadata_version s + 1))
                         (Some new_md))))
  | _ => None
  end.

(** ** The leader handles the commit requests *)

Definition NewCommitIndex (nstate : NodeState) (updated_cursor : Node -> Cursor)
           (rep_factor : nat) : option EntryId :=
  if existsb (fun entry => EntryIsCommitted nstate (entry_id entry)
                                            updated_cursor rep_factor)
             (log nstate)
  then
    let? max_entry :=
      choose_entry
        (fun entry =>
           EntryIsCommitted nstate (entry_id entry) updated_cursor rep_factor
           && negb (existsb
                      (fun e1 =>
                         IsHigherId (entry_id e1) (entry_id entry)
                         && EntryIsCommitted nstate (entry_id e1)
                                             updated_cursor rep_factor)
                      (log nstate)))
        (log nstate) in
    Some (entry_id max_entry)
  else Some NoEntryId.

Definition UpdateConfirmed (confirmed : list (Value * bool)) (nstate : NodeState)
           (commit : EntryId) : list (Value * bool) :=
  map (fun p : Value * bool =>
         if snd p then (fst p, true)
         else if existsb
                   (fun entry =>
                      IsLowerOrEqualId (entry_id entry) commit
                      && match value entry with
                         | Some v => v =? fst p
                         | None => false
                         end)
                   (log nstate)
              then (fst p, true)
              else (fst p, false))
      confirmed.

Definition GetCommitNodeSwapReconfigResponse (operator : Operator) (node : Node)
           (ep : Epoch) (old_node new_node : Node) : Message :=
  COMMIT_RECONFIG_RESPONSE NODE_SWAP node operator ep (Some old_node)
                           (Some new_node).

Definition LeaderHandlesCommitNodeSwapReconfigRequest (msg : Message) (s : State)
  : option State :=
  match msg with
  | COMMIT_RECONFIG_REQUEST op node operator ep rep_factor
                            (Some old_node) (Some new_node) (Some head) =>
      when receivable (messages s) msg then
      let nstate := node_state s node in
      when n_epoch nstate =? ep then
      when status_eqb (n_status nstate) LEADER then
      when op_eqb op NODE_SWAP then
      when reconfig_inprog nstate then
      when cstatus_eqb (status (follow_cursor nstate old_node)) PENDING_REMOVAL then
      when cstatus_eqb (status (follow_cursor nstate new_node)) CS_NIL then
      let updated_cursor :=
        fun n => if n =? old_node then NoCursor
                 else if n =? new_node
                      then {| status := ATTACHED; last_pushed := head;
                              last_confirmed := head |}
                      else follow_cursor nstate n in
      let? new_commit_index := NewCommitIndex nstate updated_cursor rep_factor in
      Some (ProcessedOneAndSendAnother msg
              (GetCommitNodeSwapReconfigResponse operator node ep old_node
                                                 new_node)
              (set_confirmed
                 (upd_node s (n_id nstate)
                    (set_reconfig_inprog
                       (set_commit_index
                          (set_follow_cursor nstate updated_cursor)
                          new_commit_index)
                       false))
                 (UpdateConfirmed (confirmed s) nstate new_commit_index)))
  | _ => None
  end.

Definition GetCommitExpandReconfigResponse (operator : Operator) (node : Node)
           (ep : Epoch) (new_node : Node) : Message :=
  COMMIT_RECONFIG_RESPONSE EXPAND node operator ep None (Some new_node).

Definition LeaderHandlesCommitExpandReconfigRequest (msg : Message) (s : State)
  : option State :=
  match msg with
  | COMMIT_RECONFIG_REQUEST op node operator ep rep_factor
                            _ (Some new_node) (Some head) =>
      when receivable (messages s) msg then
      let nstate := node_state s node in
      when n_epoch nstate =? ep then
      when status_eqb (n_status nstate) LEADER then
      when reconfig_inprog nstate then
      when op_eqb op EXPAND then
      when cstatus_eqb (status (follow_cursor nstate new_node)) CS_NIL then
      let updated_cursor :=
        fun n => if n =? new_node
                 then {| status := ATTACHED; last_pushed := head;
                         last_confirmed := head |}
                 else follow_cursor nstate n in
      let? new_commit_index := NewCommitIndex nstate updated_cursor rep_factor in
      Some (ProcessedOneAndSendAnother msg
              (GetCommitExpandReconfigResponse operator node ep new_node)
              (set_confirmed
                 (upd_node s (n_id nstate)
                    (set_reconfig_inprog
                       (set_commit_index
                          (set_follow_cursor
                             (set_n_rep_factor nstate rep_factor)
                             updated_cursor)
                          new_commit_index)
                       false))
                 (UpdateConfirmed (confirmed s) nstate new_commit_index)))
  | _ => None
  end.

Definition GetCommitContractReconfigResponse (operator : Operator) (node : Node)
           (ep : Epoch) (old_node : Node) : Message :=
  COMMIT_RECONFIG_RESPONSE CONTRACT node operator ep (Some old_node) None.

(** The follow cursors of the leader once [old_node] is removed. *)
Definition contract_cursor (nstate : NodeState) (old_node : Node)
  : Node -> Cursor :=
  fun n => if n =? old_node then NoCursor else follow_cursor nstate n.

Definition LeaderHandlesCommitContractReconfigRequest (msg : Message) (s : State)
  : option State :=
  match msg with
  | COMMIT_RECONFIG_REQUEST op node operator ep rep_factor
                            (Some old_node) _ _ =>
      when receivable (messages s) msg then
      let nstate := node_state s node in
      when n_epoch nstate =? ep then
      when status_eqb (n_status nstate) LEADER then
      when reconfig_inprog nstate then
      when op_eqb op CONTRACT then
      when cstatus_eqb (status (follow_cursor nstate old_node)) PENDING_REMOVAL then
      let updated_cursor := contract_cursor nstate old_node in
      let? new_commit_index := NewCommitIndex nstate updated_cursor rep_factor in
      when IsSameId new_commit_index (commit_index nstate) then
      Some (ProcessedOneAndSendAnother msg
              (GetCommitContractReconfigResponse operator node ep old_node)
              (upd_node s (n_id nstate)
                 (set_reconfig_inprog
                    (set_follow_cursor (set_n_rep_factor nstate rep_factor)
                                       updated_cursor)
                    false)))
  | _ => None
  end.

(** ** The operator completes the reconfiguration *)

Definition NewEnsemble (omd : Metadata) (op : ReconfigOp)
           (old_node new_node : option Node) : option (list Node) :=
  match op with
  | NODE_SWAP =>
      let? old := old_node in
      let? new := new_node in
      Some (add_node new (remove_node old (ensemble omd)))
  | EXPAND =>
      let? new := new_node in
      Some (add_node new (ensemble omd))
  | CONTRACT =>
      let? old := old_node in
      Some (remove_node old (ensemble omd))
  end.

Definition OperatorCompletesReconfiguration (o : Operator) (msg : Message)
           (s : State) : option State :=
  when mem o Operators then
  let ostate := operator_state s o in
  when ostatus_eqb (o_status ostate) RUNNING then
  match msg with
  | COMMIT_RECONFIG_RESPONSE op node operator ep old_node new_node =>
      when receivable (messages s) msg then
      when operator =? o then
      let? omd := md ostate in
      when md_epoch omd =? ep then
      when shard_eqb (shard_status omd) RECONFIGURATION then
      let? rc := reconfig omd in
      when rphase_eqb (phase rc) COMMIT then
      let? new_ensemble := NewEnsemble omd op old_node new_node in
      let new_md :=
        set_reconfig
          (set_md_rep_factor
             (set_ensemble (set_shard_status omd STEADY_STATE) new_ensemble)
             (rc_rep_factor rc))
          None in
      Some (MessageProcessed msg
              (upd_operator
                 (set_metadata
                    (set_metadata_version s (metadata_version s + 1)) new_md)
                 o
                 (set_md (set_md_version ostate (metadata_version s + 1))
                         (Some new_md))))
  | _ => None
  end.

(** ** The next-state relation *)

(** One label per disjunct of [Next], with the values its existential
    quantifiers bind. *)
Inductive Action :=
| AOperatorStarts (o : Operator)
| AOperatorStops (o : Operator)
| AOperatorStartsElection (o : Operator) (visible_nodes : list Node)
| ANodeHandlesFencingRequest (msg : Message)
| AOperatorHandlesPreQuorumFencingResponse (o : Operator) (msg : Message)
| AOperatorHandlesQuorumFencingResponse (o : Operator) (msg : Message)
| ANodeHandlesBecomeLeaderRequest (msg : Message)
| AOperatorHandlesBecomeLeaderResponse (o : Operator) (msg : Message)
| ANodeHandlesTruncateRequest (msg : Message)
| ALeaderHandlesTruncateResponse (msg : Message)
| AOperatorHandlesPostQuorumFencingResponse (o : Operator) (msg : Message)
| ALeaderHandlesAddFollowerRequest (msg : Message)
| AWrite (n : Node) (v : Value)
| ALeaderSendsEntriesToFollowers (leader : Node) (followers : list Node)
| AFollowerConfirmsEntry (msg : Message)
| AFollowerRejectsEntry (msg : Message)
| ALeaderHandlesEntryConfirm (msg : Message)
| ALeaderHandlesEntryRejection (msg : Message)
| AOperatorStartsNodeSwapReconfiguration (o : Operator) (old_node new_node : Node)
| AOperatorStartsExpandReconfiguration (o : Operator) (new_node : Node)
| AOperatorStartsContractReconfiguration (o : Operator) (old_node : Node)
| ALeaderHandlesPrepareReconfigRequest (msg : Message)
| AOperatorHandlesPrepareReconfigResponse (o : Operator) (msg : Message)
| ANodeHandlesSnapshotRequest (msg : Message)
| AOperatorHandlesSnapshotResponse (o : Operator) (msg : Message)
| ALeaderHandlesCommitNodeSwapReconfigRequest (msg : Message)
| ALeaderHandlesCommitExpandReconfigRequest (msg : Message)
| ALeaderHandlesCommitContractReconfigRequest (msg : Message)
| AOperatorCompletesReconfiguration (o : Operator) (msg : Message).

Definition step (a : Action) (s : State) : option State :=
  match a with
  | AOperatorStarts o => OperatorStarts o s
  | AOperatorStops o => OperatorStops o s
  | AOperatorStartsElection o v => OperatorStartsElection o v s
  | ANodeHandlesFencingRequest m => NodeHandlesFencingRequest m s
  | AOperatorHandlesPreQuorumFencingResponse o m =>
      OperatorHandlesPreQuorumFencingResponse o m s
  | AOperatorHandlesQuorumFencingResponse o m =>
      OperatorHandlesQuorumFencingResponse o m s
  | ANodeHandlesBecomeLeaderRequest m => NodeHandlesBecomeLeaderRequest m s
  | AOperatorHandlesBecomeLeaderResponse o m =>
      OperatorHandlesBecomeLeaderResponse o m s
  | ANodeHandlesTruncateRequest m => NodeHandlesTruncateRequest m s
  | ALeaderHandlesTruncateResponse m => LeaderHandlesTruncateResponse m s
  | AOperatorHandlesPostQuorumFencingResponse o m =>
      OperatorHandlesPostQuorumFencingResponse o m s
  | ALeaderHandlesAddFollowerRequest m => LeaderHandlesAddFollowerRequest m s
  | AWrite n v => Write n v s
  | ALeaderSendsEntriesToFollowers l fs => LeaderSendsEntriesToFollowers l fs s
  | AFollowerConfirmsEntry m => FollowerConfirmsEntry m s
  | AFollowerRejectsEntry m => FollowerRejectsEntry m s
  | ALeaderHandlesEntryConfirm m => LeaderHandlesEntryConfirm m s
  | ALeaderHandlesEntryRejection m => LeaderHandlesEntryRejection m s
  | AOperatorStartsNodeSwapReconfiguration o old new =>
      OperatorStartsNodeSwapReconfiguration o old new s
  | AOperatorStartsExpandReconfiguration o new =>
      OperatorStartsExpandReconfiguration o new s
  | AOperatorStartsContractReconfiguration o old =>
      OperatorStartsContractReconfiguration o old s
  | ALeaderHandlesPrepareReconfigRequest m =>
      LeaderHandlesPrepareReconfigRequest m s
  | AOperatorHandlesPrepareReconfigResponse o m =>
      OperatorHandlesPrepareReconfigResponse o m s
  | ANodeHandlesSnapshotRequest m => NodeHandlesSnapshotRequest m s
  | AOperatorHandlesSnapshotResponse o m => OperatorHandlesSnapshotResponse o m s
  | ALeaderHandlesCommitNodeSwapReconfigRequest m =>
      LeaderHandlesCommitNodeSwapReconfigRequest m s
  | ALeaderHandlesCommitExpandReconfigRequest m =>
      LeaderHandlesCommitExpandReconfigRequest m s
  | ALeaderHandlesCommitContractReconfigRequest m =>
      LeaderHandlesCommitContractReconfigRequest m s
  | AOperatorCompletesReconfiguration o m =>
      OperatorCompletesReconfiguration o m s
  end.

Definition Next (s s' : State) : Prop := exists a, step a s = Some s'.

Inductive Reachable : State -> Prop :=
| Reachable_Init : Reachable Init
| Reachable_Next s s' : Reachable s -> Next s s' -> Reachable s'.

(** The run of a list of actions from a state. *)
Fixpoint run (trace : list Action) (s : State) : option State :=
  match trace with
  | [] => Some s
  | a :: rest => let? s' := step a s in run rest s'
  end.

(** ** Invariants *)

Definition AreEqual (entry1 entry2 : LogEntry) : bool :=
  (epoch (entry_id entry1) =? epoch (entry_id entry2))
  && (offset (entry_id entry1) =? offset (entry_id entry2))
  && match value entry1, value entry2 with
     | Some v1, Some v2 => v1 =? v2
     | None, None => true
     | _, _ => false
     end.

(** The log on all nodes matches at and below the commit index. *)
Definition NoLogDivergence (s : State) : bool :=
  match md_leader (metadata s) with
  | Some leader =>
      forallb
        (fun n =>
           forallb
             (fun entry =>
                if IsLowerOrEqualId (entry_id entry)
                                    (commit_index (node_state s n))
                then negb (existsb
                             (fun copy =>
                                IsSameId (entry_id entry) (entry_id copy)
                                && negb (AreEqual entry copy))
                             (log (node_state s n)))
                else true)
             (log (node_state s leader))
           && forallb
                (fun entry =>
                   if IsLowerOrEqualId (entry_id entry)
                                       (commit_index (node_state s n))
                   then existsb (fun m => AreEqual entry m)
                                (log (node_state s leader))
                   else true)
                (log (node_state s n)))
        (ensemble (metadata s))
  | None => true
  end.

(** There cannot be a confirmed write that does not exist in the leader's
    log. *)
Definition NoLossOfConfirmedWrite (s : State) : bool :=
  match md_leader (metadata s), confirmed s with
  | Some leader, _ :: _ =>
      forallb
        (fun p : Value * bool =>
           (snd p
            && existsb (fun entry => match value entry with
                                     | Some v => v =? fst p
                                     | None => false
                                     end)
                       (log (node_state s leader)))
           || negb (snd p))
        (confirmed s)
  | _, _ => true
  end.

(** At most one node is in [LEADER] status with a given epoch. *)
Definition UniqueLeaderPerTerm (s : State) : Prop :=
  forall n1 n2,
    In n1 Nodes -> In n2 Nodes ->
    n_status (node_state s n1) = LEADER ->
    n_status (node_state s n2) = LEADER ->
    n_epoch (node_state s n1) = n_epoch (node_state s n2) ->
    n1 = n2.

End Protocol.

(** ** Choice operators

    A choice operator is admissible when it behaves as [CHOOSE] does: its
    result is an element of the set that satisfies the predicate, it has a
    result whenever such an element exists, and the result depends only on
    the set of such elements. *)

Definition admissible {A : Type} (ch : (A -> bool) -> list A -> option A) : Prop :=
  (forall P l x, ch P l = Some x -> In x l /\ P x = true) /\
  (forall P l x, In x l -> P x = true -> ch P l <> None) /\
  (forall P Q l l',
      (forall x, (In x l /\ P x = true) <-> (In x l' /\ Q x = true)) ->
      ch P l = ch Q l').

(** Lexicographic order on lists of numbers. *)
Fixpoint lex_leb (a b : list nat) : bool :=
  match a, b with
  | [], _ => true
  | _ :: _, [] => false
  | x :: a', y :: b' => (x <? y) || ((x =? y) && lex_leb a' b')
  end.

(** The least element of a list for the order of the keys. *)
Fixpoint argmin {A : Type} (key : A -> list nat) (l : list A) : option A :=
  match l with
  | [] => None
  | x :: rest =>
      match argmin key rest with
      | None => Some x
      | Some y => if lex_leb (key x) (key y) then Some x else Some y
      end
  end.

Definition choose_by {A : Type} (key : A -> list nat)
  : (A -> bool) -> list A -> option A :=
  fun P l => argmin key (filter P l).

Definition response_key (r : FenceResponse) : list nat :=
  [fr_node r; fr_operator r; epoch (fr_head_index r);
   offset (fr_head_index r); fr_epoch r].

Definition entry_key (e : LogEntry) : list nat :=
  [epoch (entry_id e); offset (entry_id e);
   match value e with Some v => S v | None => 0 end].

(** A choice of responses that prefers the lowest node id, and one of log
    entries. *)
Definition choose_response_low : (FenceResponse -> bool) -> list FenceResponse
                                 -> option FenceResponse :=
  choose_by response_key.
Definition choose_entry_low : (LogEntry -> bool) -> list LogEntry
                              -> option LogEntry :=
  choose_by entry_key.

(** A choice of responses that prefers node 2 over node 0 when these are
    the only candidates, and the lowest node id otherwise. *)
Definition response_key_swapped (r : FenceResponse) : list nat :=
  (if fr_node r =? 0 then 1 else 0) :: response_key r.

Definition choose_response_cyclic : (FenceResponse -> bool) -> list FenceResponse
                                    -> option FenceResponse :=
  fun P l =>
    if forallb (fun r => (fr_node r =? 0) || (fr_node r =? 2)) (filter P l)
    then choose_by response_key_swapped P l
    else choose_by response_key P l.

(** A choice that is defined only where [CHOOSE] has a single candidate:
    every admissible choice operator agrees with it there. *)
Definition choose_forced {A : Type} (P : A -> bool) (l : list A) : option A :=
  match filter P l with
  | [x] => Some x
  | _ => None
  end.

(** [ch] takes every choice that [ch0] takes. *)
Definition refines {A : Type} (ch0 ch : (A -> bool) -> list A -> option A)
  : Prop :=
  forall P l x, ch0 P l = Some x -> ch P l = Some x.

Definition same_responses (l1 l2 : list FenceResponse) : bool :=
  forallb (fun r => mem_response r l2) l1
  && forallb (fun r => mem_response r l1) l2.

(** The forced choice, extended by the winners [r1] and [r2] of two sets of
    candidates. *)
Definition choose_tie (set1 : list FenceResponse) (r1 : FenceResponse)
           (set2 : list FenceResponse) (r2 : FenceResponse)
  : (FenceResponse -> bool) -> list FenceResponse -> option FenceResponse :=
  fun P l =>
    match choose_forced P l with
    | Some x => Some x
    | None =>
        if same_responses (filter P l) set1 then Some r1
        else if same_responses (filter P l) set2 then Some r2
        else None
    end.

(** ** Models and runs *)

Record Model := mkModel {
  Operators : list Operator;
  Nodes : list Node;
  Values : list Value;
  RepFactor : nat;
  MaxEpochs : nat;
  MaxOperatorStops : nat;
  InitEnsemble : list Node;
  choose_response :
    (FenceResponse -> bool) -> list FenceResponse -> option FenceResponse;
  choose_entry : (LogEntry -> bool) -> list LogEntry -> option LogEntry
}.

(** The initial ensemble is a subset of [Nodes] of cardinality [RepFactor],
    and both choice operators are admissible. *)
Definition well_formed (M : Model) : Prop :=
  NoDup (InitEnsemble M) /\
  List.length (InitEnsemble M) = RepFactor M /\
  (forall n, In n (InitEnsemble M) -> In n (Nodes M)) /\
  admissible (choose_response M) /\
  admissible (choose_entry M).

Definition init (M : Model) : State := Init (RepFactor M) (InitEnsemble M).

Definition step_in (M : Model) : Action -> State -> option State :=
  step (Operators M) (Nodes M) (Values M) (MaxEpochs M) (MaxOperatorStops M)
       (choose_response M) (choose_entry M).

Definition run_in (M : Model) : list Action -> State -> option State :=
  run (Operators M) (Nodes M) (Values M) (MaxEpochs M) (MaxOperatorStops M)
      (choose_response M) (choose_entry M).

Definition reachable (M : Model) : State -> Prop :=
  Reachable (Operators M) (Nodes M) (Values M) (RepFactor M) (MaxEpochs M)
            (MaxOperatorStops M) (InitEnsemble M)
            (choose_response M) (choose_entry M).

(** Four nodes, all in the initial ensemble, two operators, two values, and
    any two choice operators. *)
Definition four_nodes_with
           (chr : (FenceResponse -> bool) -> list FenceResponse
                  -> option FenceResponse)
           (che : (LogEntry -> bool) -> list LogEntry -> option LogEntry)
  : Model :=
  {| Operators := [0; 1];
     Nodes := [0; 1; 2; 3];
     Values := [7; 8];
     RepFactor := 4;
     MaxEpochs := 10;
     MaxOperatorStops := 0;
     InitEnsemble := [0; 1; 2; 3];
     choose_response := chr;
     choose_entry := che |}.

(** The same with the choices that prefer the lowest keys. *)
Definition four_nodes : Model :=
  four_nodes_with choose_response_low choose_entry_low.

(** Four nodes, three of them in the initial ensemble, one operator. *)
Definition three_of_four : Model :=
  {| Operators := [0];
     Nodes := [0; 1; 2; 3];
     Values := [7; 8; 9];
     RepFactor := 3;
     MaxEpochs := 10;
     MaxOperatorStops := 0;
     InitEnsemble := [0; 1; 2];
     choose_response := choose_response_low;
     choose_entry := choose_entry_low |}.

(** The response of a node with an empty log to a fence request. *)
Definition fence_record (n : Node) (o : Operator) (ep : Epoch) : FenceResponse :=
  {| fr_node := n; fr_operator := o; fr_head_index := NoEntryId; fr_epoch := ep |}.

Definition fence_response (n : Node) (o : Operator) (ep : Epoch) : Message :=
  FENCE_RESPONSE (fence_record n o ep).

(** The entry that node 1 writes in epoch 3. *)
Definition entry_1_3 : LogEntry :=
  {| entry_id := {| offset := 1; epoch := 3 |}; value := Some 7 |}.

(** Operator 0 elects node 0 in epoch 1 and contracts the ensemble by node
    3 in epoch 2; the leader commits the contraction and its response to
    operator 0 stays in flight.  Operator 1 starts, and runs an election in
    epoch 3 that fences nodes 1, 2 and 3 and elects node 1; node 1 writes
    value 7, replicates it to nodes 2 and 3 and commits it.  Operator 0
    then receives the response of the contraction and completes it. *)
Definition stale_completion : list Action :=
  [ AOperatorStarts 0;
    AOperatorStartsElection 0 [0; 1; 2];
    ANodeHandlesFencingRequest (FENCE_REQUEST 0 0 1);
    ANodeHandlesFencingRequest (FENCE_REQUEST 1 0 1);
    ANodeHandlesFencingRequest (FENCE_REQUEST 2 0 1);
    AOperatorHandlesPreQuorumFencingResponse 0 (fence_response 0 0 1);
    AOperatorHandlesPreQuorumFencingResponse 0 (fence_response 1 0 1);
    AOperatorHandlesQuorumFencingResponse 0 (fence_response 2 0 1);
    ANodeHandlesBecomeLeaderRequest
      (BECOME_LEADER_REQUEST 0 0 1 4 [(1, NoEntryId); (2, NoEntryId)]);
    AOperatorHandlesBecomeLeaderResponse 0 (BECOME_LEADER_RESPONSE 0 0 1);
    AOperatorStartsContractReconfiguration 0 3;
    ALeaderHandlesPrepareReconfigRequest
      (PREPARE_RECONFIG_REQUEST CONTRACT 2 0 0 (Some 3));
    AOperatorHandlesPrepareReconfigResponse 0
      (PREPARE_RECONFIG_RESPONSE CONTRACT 2 0 0 None);
    ALeaderHandlesCommitContractReconfigRequest
      (COMMIT_RECONFIG_REQUEST CONTRACT 0 0 2 3 (Some 3) None None);
    AOperatorStarts 1;
    AOperatorStartsElection 1 [1; 2; 3];
    ANodeHandlesFencingRequest (FENCE_REQUEST 1 1 3);
    ANodeHandlesFencingRequest (FENCE_REQUEST 2 1 3);
    ANodeHandlesFencingRequest (FENCE_REQUEST 3 1 3);
    AOperatorHandlesPreQuorumFencingResponse 1 (fence_response 1 1 3);
    AOperatorHandlesPreQuorumFencingResponse 1 (fence_response 2 1 3);
    AOperatorHandlesQuorumFencingResponse 1 (fence_response 3 1 3);
    ANodeHandlesBecomeLeaderRequest
      (BECOME_LEADER_REQUEST 1 1 3 4 [(2, NoEntryId); (3, NoEntryId)]);
    AWrite 1 7;
    ALeaderSendsEntriesToFollowers 1 [2; 3];
    AFollowerConfirmsEntry (ADD_ENTRY_REQUEST 2 1 entry_1_3 NoEntryId 3);
    AFollowerConfirmsEntry (ADD_ENTRY_REQUEST 3 1 entry_1_3 NoEntryId 3);
    ALeaderHandlesEntryConfirm (ADD_ENTRY_RESPONSE 1 2 OK (entry_id entry_1_3) 3);
    ALeaderHandlesEntryConfirm (ADD_ENTRY_RESPONSE 1 3 OK (entry_id entry_1_3) 3);
    AOperatorCompletesReconfiguration 0
      (COMMIT_RECONFIG_RESPONSE CONTRACT 0 0 2 (Some 3) None) ].

(** After the stale completion the metadata is back in epoch 2; operator 0
    starts an expansion in epoch 3, and node 0, never fenced, takes it. *)
Definition stale_completion_then_expand : list Action :=
  stale_completion ++
  [ AOperatorStartsExpandReconfiguration 0 3;
    ALeaderHandlesPrepareReconfigRequest
      (PREPARE_RECONFIG_REQUEST EXPAND 3 0 0 None) ].

(** *** The same scenario for any winners of the two elections

    All logs are empty in both elections, so every responder is a candidate
    and the choice operator decides.  [L] is the node that the first
    election elects among nodes 0, 1 and 2; [W] the node that the second
    election elects among the three nodes other than [L]. *)

Definition without (x : Node) (l : list Node) : list Node :=
  filter (fun n => negb (n =? x)) l.

Definition no_heads (l : list Node) : list (Node * EntryId) :=
  map (fun f => (f, NoEntryId)) l.

(** Operator [o] fences nodes [a], [b] and [c] in epoch [ep] and reaches the
    quorum with the third response. *)
Definition election_of (o : Operator) (ep : Epoch) (a b c : Node) : list Action :=
  [ AOperatorStartsElection o [a; b; c];
    ANodeHandlesFencingRequest (FENCE_REQUEST a o ep);
    ANodeHandlesFencingRequest (FENCE_REQUEST b o ep);
    ANodeHandlesFencingRequest (FENCE_REQUEST c o ep);
    AOperatorHandlesPreQuorumFencingResponse o (fence_response a o ep);
    AOperatorHandlesPreQuorumFencingResponse o (fence_response b o ep);
    AOperatorHandlesQuorumFencingResponse o (fence_response c o ep) ].

(** The second entry that the leader of epoch 3 writes. *)
Definition entry_2_3 : LogEntry :=
  {| entry_id := {| offset := 2; epoch := 3 |}; value := Some 8 |}.

(** Operator 0 elects [L] in epoch 1 and contracts the ensemble by node 3 in
    epoch 2; the response of the leader's commit stays in flight.  Operator
    1 starts, and its election in epoch 3 fences the nodes other than [L]
    and elects [W].  [W] writes value 7, replicates and commits it, then
    writes value 8 and sends it, with the commit index, to its followers.
    Operator 0 then completes the contraction. *)
Definition stale_completion_by (L W : Node) : list Action :=
  let fenced := without L [0; 1; 2; 3] in
  let followers := without W fenced in
  [ AOperatorStarts 0 ] ++
  election_of 0 1 0 1 2 ++
  [ ANodeHandlesBecomeLeaderRequest
      (BECOME_LEADER_REQUEST L 0 1 4 (no_heads (without L [0; 1; 2])));
    AOperatorHandlesBecomeLeaderResponse 0 (BECOME_LEADER_RESPONSE L 0 1);
    AOperatorStartsContractReconfiguration 0 3;
    ALeaderHandlesPrepareReconfigRequest
      (PREPARE_RECONFIG_REQUEST CONTRACT 2 L 0 (Some 3));
    AOperatorHandlesPrepareReconfigResponse 0
      (PREPARE_RECONFIG_RESPONSE CONTRACT 2 L 0 None);
    ALeaderHandlesCommitContractReconfigRequest
      (COMMIT_RECONFIG_REQUEST CONTRACT L 0 2 3 (Some 3) None None);
    AOperatorStarts 1 ] ++
  match fenced with
  | [a; b; c] => election_of 1 3 a b c
  | _ => []
  end ++
  [ ANodeHandlesBecomeLeaderRequest
      (BECOME_LEADER_REQUEST W 1 3 4 (no_heads followers));
    AWrite W 7;
    ALeaderSendsEntriesToFollowers W followers ] ++
  map (fun f => AFollowerConfirmsEntry
                  (ADD_ENTRY_REQUEST f W entry_1_3 NoEntryId 3)) followers ++
  map (fun f => ALeaderHandlesEntryConfirm
                  (ADD_ENTRY_RESPONSE W f OK (entry_id entry_1_3) 3)) followers ++
  [ AWrite W 8;
    ALeaderSendsEntriesToFollowers W followers ] ++
  map (fun f => AFollowerConfirmsEntry
                  (ADD_ENTRY_REQUEST f W entry_2_3 (entry_id entry_1_3) 3))
      followers ++
  [ AOperatorCompletesReconfiguration 0
      (COMMIT_RECONFIG_RESPONSE CONTRACT L 0 2 (Some 3) None) ].

(** Operator 0 then starts an expansion in epoch 3, and [L], never fenced,
    takes it. *)
Definition stale_completion_then_expand_by (L W : Node) : list Action :=
  stale_completion_by L W ++
  [ AOperatorStartsExpandReconfiguration 0 3;
    ALeaderHandlesPrepareReconfigRequest
      (PREPARE_RECONFIG_REQUEST EXPAND 3 L 0 None) ].

(** The candidates of the two elections. *)
Definition first_tie : list FenceResponse :=
  map (fun n => fence_record n 0 1) [0; 1; 2].
Definition second_tie (L : Node) : list FenceResponse :=
  map (fun n => fence_record n 1 3) (without L [0; 1; 2; 3]).

(** The choice that elects [L] and [W], and is forced elsewhere. *)
Definition tie_choice (L W : Node)
  : (FenceResponse -> bool) -> list FenceResponse -> option FenceResponse :=
  choose_tie first_tie (fence_record L 0 1) (second_tie L) (fence_record W 1 3).

Definition run_tie (L W : Node) (trace : list Action) : option State :=
  run_in (four_nodes_with (tie_choice L W) choose_forced) trace
         (init (four_nodes_with (tie_choice L W) choose_forced)).

(** A follower of [W] among nodes 0, 1 and 2. *)
Definition follower_of (L W : Node) : Node :=
  hd 0 (without W (without L [0; 1; 2])).

(** An expansion by node 3 reaches its commit phase, and the operator
    starts an election. *)
Definition expand_to_commit_phase : list Action :=
  [ AOperatorStarts 0;
    AOperatorStartsElection 0 [0; 1];
    ANodeHandlesFencingRequest (FENCE_REQUEST 0 0 1);
    ANodeHandlesFencingRequest (FENCE_REQUEST 1 0 1);
    AOperatorHandlesPreQuorumFencingResponse 0 (fence_response 0 0 1);
    AOperatorHandlesQuorumFencingResponse 0 (fence_response 1 0 1);
    ANodeHandlesBecomeLeaderRequest
      (BECOME_LEADER_REQUEST 0 0 1 3 [(1, NoEntryId)]);
    AOperatorHandlesBecomeLeaderResponse 0 (BECOME_LEADER_RESPONSE 0 0 1);
    AOperatorStartsExpandReconfiguration 0 3;
    ALeaderHandlesPrepareReconfigRequest
      (PREPARE_RECONFIG_REQUEST EXPAND 2 0 0 None);
    AOperatorHandlesPrepareReconfigResponse 0
      (PREPARE_RECONFIG_RESPONSE EXPAND 2 0 0
         (Some ([], NoEntryId, NoEntryId)));
    ANodeHandlesSnapshotRequest
      (SNAPSHOT_REQUEST 3 0 2 [] NoEntryId NoEntryId);
    AOperatorHandlesSnapshotResponse 0 (SNAPSHOT_RESPONSE 3 0 2 NoEntryId) ].

(** Node 0, its leadership of epoch 3 obtained through the stale
    completion, writes value 8 and sends the entry to nodes 1 and 2; node 1
    is itself a leader in epoch 3. *)
Definition entry_8_by_node_0 : LogEntry :=
  {| entry_id := {| offset := 1; epoch := 3 |}; value := Some 8 |}.

Definition leader_sends_to_leader : list Action :=
  stale_completion_then_expand ++
  [ AWrite 0 8;
    ALeaderSendsEntriesToFollowers 0 [1; 2] ].

(** The entries that node 0 writes in the trace below. *)
Definition entry_7 : LogEntry :=
  {| entry_id := {| offset := 1; epoch := 1 |}; value := Some 7 |}.
Definition entry_8 : LogEntry :=
  {| entry_id := {| offset := 2; epoch := 1 |}; value := Some 8 |}.
Definition entry_9 : LogEntry :=
  {| entry_id := {| offset := 3; epoch := 2 |}; value := Some 9 |}.

(** Node 0 is elected in epoch 1 with node 1 as follower, and commits the
    entries of values 7 and 8; node 1 learns the commit index (1, 1) with the
    second entry.  An expansion by node 3 moves the leader to epoch 2, and
    the leader commits the expansion. *)
Definition expand_commit : list Action :=
  [ AOperatorStarts 0;
    AOperatorStartsElection 0 [0; 1];
    ANodeHandlesFencingRequest (FENCE_REQUEST 0 0 1);
    ANodeHandlesFencingRequest (FENCE_REQUEST 1 0 1);
    AOperatorHandlesPreQuorumFencingResponse 0 (fence_response 0 0 1);
    AOperatorHandlesQuorumFencingResponse 0 (fence_response 1 0 1);
    ANodeHandlesBecomeLeaderRequest
      (BECOME_LEADER_REQUEST 0 0 1 3 [(1, NoEntryId)]);
    AOperatorHandlesBecomeLeaderResponse 0 (BECOME_LEADER_RESPONSE 0 0 1);
    AWrite 0 7;
    ALeaderSendsEntriesToFollowers 0 [1];
    AFollowerConfirmsEntry (ADD_ENTRY_REQUEST 1 0 entry_7 NoEntryId 1);
    ALeaderHandlesEntryConfirm (ADD_ENTRY_RESPONSE 0 1 OK (entry_id entry_7) 1);
    AWrite 0 8;
    ALeaderSendsEntriesToFollowers 0 [1];
    AFollowerConfirmsEntry
      (ADD_ENTRY_REQUEST 1 0 entry_8 (entry_id entry_7) 1);
    ALeaderHandlesEntryConfirm (ADD_ENTRY_RESPONSE 0 1 OK (entry_id entry_8) 1);
    AOperatorStartsExpandReconfiguration 0 3;
    ALeaderHandlesPrepareReconfigRequest
      (PREPARE_RECONFIG_REQUEST EXPAND 2 0 0 None);
    AOperatorHandlesPrepareReconfigResponse 0
      (PREPARE_RECONFIG_RESPONSE EXPAND 2 0 0
         (Some ([entry_7; entry_8], entry_id entry_8, entry_id entry_8)));
    ANodeHandlesSnapshotRequest
      (SNAPSHOT_REQUEST 3 0 2 [entry_7; entry_8] (entry_id entry_8)
                        (entry_id entry_8));
    AOperatorHandlesSnapshotResponse 0
      (SNAPSHOT_RESPONSE 3 0 2 (entry_id entry_8));
    ALeaderHandlesCommitExpandReconfigRequest
      (COMMIT_RECONFIG_REQUEST EXPAND 0 0 2 4 None (Some 3)
                               (Some (entry_id entry_8))) ].

(** The leader then writes value 9 in epoch 2 and sends the entry, with its
    commit index, to nodes 1 and 3. *)
Definition expand_commit_then_write : list Action :=
  expand_commit ++
  [ AWrite 0 9;
    ALeaderSendsEntriesToFollowers 0 [1; 3] ].

(** The greater of two entry ids. *)
Definition max_id (a b : EntryId) : EntryId :=
  if IsHigherId a b then a else b.

(** Ties between winners are broken by an order on the node ids: some
    strict order [before] places the node of the winner before the node of
    every other response that could have won. *)
Definition tie_break_by_node_order
           (chr : (FenceResponse -> bool) -> list FenceResponse
                  -> option FenceResponse) : Prop :=
  exists before : Node -> Node -> Prop,
    (forall n, ~ before n n) /\
    (forall a b c, before a b -> before b c -> before a c) /\
    forall responses final_ensemble w r,
      WinnerResponse chr responses final_ensemble = Some w ->
      In r responses ->
      is_winner responses final_ensemble r = true ->
      fr_node r <> fr_node w ->
      before (fr_node w) (fr_node r).

(** Three responses of one election, with equal head indexes. *)
Definition response_of (n : Node) : FenceResponse :=
  {| fr_node := n; fr_operator := 0; fr_head_index := NoEntryId; fr_epoch := 1 |}.

(** Whether the state a run ends in satisfies a test. *)
Definition ends_in (M : Model) (trace : list Action) (test : State -> bool)
  : bool :=
  match run_in M trace (init M) with
  | Some s => test s
  | None => false
  end.

(** The state a run from the initial state ends in. *)
Definition state_after (M : Model) (trace : list Action) : State :=
  match run_in M trace (init M) with
  | Some s => s
  | None => init M
  end.

Definition two_leaders_in_epoch (n1 n2 : Node) (ep : Epoch) (s : State) : bool :=
  status_eqb (n_status (node_state s n1)) LEADER
  && status_eqb (n_status (node_state s n2)) LEADER
  && (n_epoch (node_state s n1) =? ep)
  && (n_epoch (node_state s n2) =? ep)
  && negb (n1 =? n2).

(** ** Predicates on states and actions *)

(** Each node and operator record carries the id it is stored under. *)
Definition ids_ok (s : State) : Prop :=
  (forall n, n_id (node_state s n) = n) /\
  (forall o, o_id (operator_state s o) = o).

(** No operator is ahead of the metadata store, and a running operator
    whose version is the version of the store holds the metadata of the
    store. *)
Definition md_current (s : State) : Prop :=
  forall o,
    md_version (operator_state s o) <= metadata_version s /\
    (o_status (operator_state s o) = RUNNING ->
     md_version (operator_state s o) = metadata_version s ->
     md (operator_state s o) = Some (metadata s)).

(** The operator that takes an action: the [o] that the action binds with
    [\E o \in Operators]. *)
Definition action_operator (a : Action) : option Operator :=
  match a with
  | AOperatorStarts o | AOperatorStops o | AOperatorStartsElection o _
  | AOperatorHandlesPreQuorumFencingResponse o _
  | AOperatorHandlesQuorumFencingResponse o _
  | AOperatorHandlesBecomeLeaderResponse o _
  | AOperatorHandlesPostQuorumFencingResponse o _
  | AOperatorStartsNodeSwapReconfiguration o _ _
  | AOperatorStartsExpandReconfiguration o _
  | AOperatorStartsContractReconfiguration o _
  | AOperatorHandlesPrepareReconfigResponse o _
  | AOperatorHandlesSnapshotResponse o _
  | AOperatorCompletesReconfiguration o _ => Some o
  | _ => None
  end.

(** ** More runs *)

(** The model [four_nodes] with one operator stop allowed. *)
Definition with_stops : Model :=
  {| Operators := [0; 1];
     Nodes := [0; 1; 2; 3];
     Values := [7; 8];
     RepFactor := 4;
     MaxEpochs := 10;
     MaxOperatorStops := 1;
     InitEnsemble := [0; 1; 2; 3];
     choose_response := choose_response_low;
     choose_entry := choose_entry_low |}.

(** Operator 0 starts an election, stops, and starts again. *)
Definition stop_and_restart : list Action :=
  [ AOperatorStarts 0;
    AOperatorStartsElection 0 [0; 1; 2];
    AOperatorStops 0;
    AOperatorStarts 0 ].

(** Node 0 is the elected leader of epoch 1, and the operator starts the
    election of epoch 2. *)
Definition second_election : list Action :=
  firstn 10 stale_completion ++ [ AOperatorStartsElection 0 [0; 1; 2] ].

(** The response of a node with head index [h] to a fence request. *)
Definition head_response (n : Node) (o : Operator) (h : EntryId) (ep : Epoch)
  : Message :=
  FENCE_RESPONSE {| fr_node := n; fr_operator := o; fr_head_index := h;
                    fr_epoch := ep |}.

(** Node 0, leader of epoch 1, writes values 7 and 8 as [entry_7] and
    [entry_8]; node 1 receives the first entry only.  The election of epoch 2 fences nodes 1, 2 and 3 and
    elects node 1.  Node 0 is fenced afterwards, with a head index ahead of
    the new leader; the leader tells it to truncate its log to the entry of
    value 7, and it does. *)
Definition late_follower : list Action :=
  firstn 10 stale_completion ++
  [ AWrite 0 7;
    ALeaderSendsEntriesToFollowers 0 [1; 2];
    AFollowerConfirmsEntry (ADD_ENTRY_REQUEST 1 0 entry_7 NoEntryId 1);
    AWrite 0 8;
    AOperatorStartsElection 0 [1; 2; 3];
    ANodeHandlesFencingRequest (FENCE_REQUEST 1 0 2);
    ANodeHandlesFencingRequest (FENCE_REQUEST 2 0 2);
    ANodeHandlesFencingRequest (FENCE_REQUEST 3 0 2);
    AOperatorHandlesPreQuorumFencingResponse 0
      (head_response 1 0 (entry_id entry_7) 2);
    AOperatorHandlesPreQuorumFencingResponse 0 (fence_response 2 0 2);
    AOperatorHandlesQuorumFencingResponse 0 (fence_response 3 0 2);
    ANodeHandlesBecomeLeaderRequest
      (BECOME_LEADER_REQUEST 1 0 2 4 [(2, NoEntryId); (3, NoEntryId)]);
    AOperatorHandlesBecomeLeaderResponse 0 (BECOME_LEADER_RESPONSE 1 0 2);
    ANodeHandlesFencingRequest (FENCE_REQUEST 0 0 2);
    AOperatorHandlesPostQuorumFencingResponse 0
      (head_response 0 0 (entry_id entry_8) 2);
    ALeaderHandlesAddFollowerRequest
      (ADD_FOLLOWER_REQUEST 1 0 (entry_id entry_8) 2);
    ANodeHandlesTruncateRequest
      (TRUNCATE_REQUEST 0 1 2 (entry_id entry_7)) ].

(** ** Epochs in messages *)

(** The epoch that a message carries; every message type of the module has
    an [epoch] field. *)
Definition msg_epoch (m : Message) : Epoch :=
  match m with
  | FENCE_REQUEST _ _ ep => ep
  | FENCE_RESPONSE r => fr_epoch r
  | BECOME_LEADER_REQUEST _ _ ep _ _ => ep
  | BECOME_LEADER_RESPONSE _ _ ep => ep
  | ADD_FOLLOWER_REQUEST _ _ _ ep => ep
  | TRUNCATE_REQUEST _ _ ep _ => ep
  | TRUNCATE_RESPONSE _ _ ep _ => ep
  | ADD_ENTRY_REQUEST _ _ _ _ ep => ep
  | ADD_ENTRY_RESPONSE _ _ _ _ ep => ep
  | PREPARE_RECONFIG_REQUEST _ ep _ _ _ => ep
  | PREPARE_RECONFIG_RESPONSE _ ep _ _ _ => ep
  | SNAPSHOT_REQUEST _ _ ep _ _ _ => ep
  | SNAPSHOT_RESPONSE _ _ ep _ => ep
  | COMMIT_RECONFIG_REQUEST _ _ _ ep _ _ _ _ => ep
  | COMMIT_RECONFIG_RESPONSE _ _ _ ep _ _ => ep
  end.

(** The log entries that a message carries: the entry of an add-entry
    request, and the snapshot of a prepare response and of a snapshot
    request. *)
Definition msg_entries (m : Message) : list LogEntry :=
  match m with
  | ADD_ENTRY_REQUEST _ _ e _ _ => [e]
  | PREPARE_RECONFIG_RESPONSE _ _ _ _ (Some p) => fst (fst p)
  | SNAPSHOT_REQUEST _ _ _ snap _ _ => snap
  | _ => []
  end.

(** Every epoch of the state is at most [maxe]: that of the metadata, of
    the copy of each operator, of each node and of each message in flight. *)
Definition epochs_within (maxe : nat) (s : State) : Prop :=
  md_epoch (metadata s) <= maxe /\
  (forall o m, md (operator_state s o) = Some m -> md_epoch m <= maxe) /\
  (forall n, n_epoch (node_state s n) <= maxe) /\
  (forall m, In m (messages s) -> msg_epoch m <= maxe).

(** No entry is of a later epoch than the node that holds it, or than the
    message that carries it. *)
Definition entries_within (s : State) : Prop :=
  (forall n e, In e (log (node_state s n)) ->
               epoch (entry_id e) <= n_epoch (node_state s n)) /\
  (forall m e, In m (messages s) -> In e (msg_entries m) ->
               epoch (entry_id e) <= msg_epoch m).

(** ** Choice operators are admissible *)

Lemma lex_leb_total a : forall b, lex_leb a b = true \/ lex_leb b a = true.
Proof.
  induction a as [|x a IH]; intros [|y b]; simpl; auto.
  destruct (Nat.ltb_spec x y); simpl; auto.
  destruct (Nat.ltb_spec y x); simpl; auto.
  assert (x = y) by lia. subst y. rewrite Nat.eqb_refl. simpl. apply IH.
Qed.

Lemma lex_leb_trans a : forall b c,
  lex_leb a b = true -> lex_leb b c = true -> lex_leb a c = true.
Proof.
  induction a as [|x a IH]; intros [|y b] [|z c]; simpl; auto; try discriminate.
  intros H1 H2.
  apply orb_true_iff in H1. apply orb_true_iff in H2. apply orb_true_iff.
  destruct H1 as [H1|H1], H2 as [H2|H2].
  - apply Nat.ltb_lt in H1, H2. left. apply Nat.ltb_lt. lia.
  - apply andb_true_iff in H2 as [H2 _]. apply Nat.eqb_eq in H2. subst z.
    now left.
  - apply andb_true_iff in H1 as [H1 _]. apply Nat.eqb_eq in H1. subst y.
    now left.
  - apply andb_true_iff in H1 as [H1 H1']. apply andb_true_iff in H2 as [H2 H2'].
    apply Nat.eqb_eq in H1, H2. subst y z. right.
    rewrite Nat.eqb_refl. simpl. eapply IH; eauto.
Qed.

Lemma lex_leb_antisym a : forall b,
  List.length a = List.length b ->
  lex_leb a b = true -> lex_leb b a = true -> a = b.
Proof.
  induction a as [|x a IH]; intros [|y b]; simpl; auto; try discriminate.
  intros Hlen H1 H2.
  apply orb_true_iff in H1. apply orb_true_iff in H2.
  destruct H1 as [H1|H1], H2 as [H2|H2];
    try (apply Nat.ltb_lt in H1); try (apply Nat.ltb_lt in H2);
    try (apply andb_true_iff in H1 as [H1 H1']; apply Nat.eqb_eq in H1);
    try (apply andb_true_iff in H2 as [H2 H2']; apply Nat.eqb_eq in H2);
    try lia.
  subst y. f_equal. apply IH; auto.
Qed.

Lemma argmin_spec {A : Type} (key : A -> list nat) (l : list A) m :
  argmin key l = Some m ->
  In m l /\ forall x, In x l -> lex_leb (key m) (key x) = true.
Proof.
  revert m. induction l as [|x l IH]; simpl; [discriminate|].
  intros m. destruct (argmin key l) as [y|] eqn:E.
  - destruct (IH y eq_refl) as [Hin Hmin].
    destruct (lex_leb (key x) (key y)) eqn:Hxy; intros [= <-].
    + split; [now left|]. intros z [<-|Hz].
      * destruct (lex_leb_total (key x) (key x)); auto.
      * eapply lex_leb_trans; eauto.
    + split; [now right|]. intros z [<-|Hz]; auto.
      destruct (lex_leb_total (key x) (key y)) as [H|H]; congruence.
  - intros [= <-]. destruct l; [|simpl in E; destruct (argmin key l);
      [destruct (lex_leb _ _)|]; discriminate].
    split; [now left|]. intros z [<-|[]].
    destruct (lex_leb_total (key x) (key x)); auto.
Qed.

Lemma argmin_none {A : Type} (key : A -> list nat) (l : list A) :
  argmin key l = None -> l = [].
Proof.
  destruct l as [|x l]; simpl; auto.
  destruct (argmin key l); [destruct (lex_leb _ _)|]; discriminate.
Qed.

Lemma choose_by_admissible {A : Type} (key : A -> list nat) :
  (forall x y, List.length (key x) = List.length (key y)) ->
  (forall x y, key x = key y -> x = y) ->
  admissible (choose_by key).
Proof.
  intros Hlen Hinj. unfold admissible, choose_by. split; [|split].
  - intros P l x H. apply argmin_spec in H as [H _].
    apply filter_In in H. exact H.
  - intros P l x Hin HP H. apply argmin_none in H.
    assert (In x (filter P l)) by (apply filter_In; auto).
    rewrite H in *. contradiction.
  - intros P Q l l' Hext.
    assert (Hset : forall x, In x (filter P l) <-> In x (filter Q l')).
    { intros x. rewrite !filter_In. apply Hext. }
    destruct (argmin key (filter P l)) as [m|] eqn:E1;
      destruct (argmin key (filter Q l')) as [m'|] eqn:E2.
    + apply argmin_spec in E1 as [I1 M1]. apply argmin_spec in E2 as [I2 M2].
      f_equal. apply Hinj. apply lex_leb_antisym; auto.
      * apply M1. now apply Hset.
      * apply M2. now apply Hset.
    + apply argmin_spec in E1 as [I1 _]. apply argmin_none in E2.
      apply Hset in I1. rewrite E2 in I1. contradiction.
    + apply argmin_spec in E2 as [I2 _]. apply argmin_none in E1.
      apply Hset in I2. rewrite E1 in I2. contradiction.
    + reflexivity.
Qed.

Lemma response_key_inj x y : response_key x = response_key y -> x = y.
Proof.
  destruct x as [n o [off ep] e], y as [n' o' [off' ep'] e'].
  unfold response_key. simpl. intros [= -> -> -> -> ->]. reflexivity.
Qed.

Lemma entry_key_inj x y : entry_key x = entry_key y -> x = y.
Proof.
  destruct x as [[off ep] v], y as [[off' ep'] v'].
  unfold entry_key. simpl. intros [= -> -> Hv].
  destruct v, v'; try discriminate; [injection Hv as ->|]; reflexivity.
Qed.

Lemma choose_response_low_admissible : admissible choose_response_low.
Proof.
  apply choose_by_admissible; [reflexivity | apply response_key_inj].
Qed.

Lemma choose_entry_low_admissible : admissible choose_entry_low.
Proof.
  apply choose_by_admissible; [reflexivity | apply entry_key_inj].
Qed.

Lemma choose_response_cyclic_admissible : admissible choose_response_cyclic.
Proof.
  assert (Hs : admissible (choose_by response_key_swapped)).
  { apply choose_by_admissible; [reflexivity|].
    unfold response_key_swapped. intros x y H.
    apply response_key_inj.
    change (tl ((if fr_node x =? 0 then 1 else 0) :: response_key x)
            = tl ((if fr_node y =? 0 then 1 else 0) :: response_key y)).
    now rewrite H. }
  pose proof choose_response_low_admissible as Hl.
  unfold choose_response_low in Hl.
  destruct Hs as [S1 [S2 S3]], Hl as [L1 [L2 L3]].
  unfold admissible, choose_response_cyclic. split; [|split].
  - intros P l x. destruct (forallb _ _); [apply S1 | apply L1].
  - intros P l x. destruct (forallb _ _); [apply S2 | apply L2].
  - intros P Q l l' Hext.
    assert (Hset : forall x, In x (filter P l) <-> In x (filter Q l')).
    { intros x. rewrite !filter_In. apply Hext. }
    assert (Hall : forallb (fun r => (fr_node r =? 0) || (fr_node r =? 2))
                           (filter P l)
                   = forallb (fun r => (fr_node r =? 0) || (fr_node r =? 2))
                             (filter Q l')).
    { apply eq_true_iff_eq. rewrite !forallb_forall.
      split; intros H x Hx; apply H; now apply Hset. }
    rewrite Hall. destruct (forallb _ (filter Q l')); [apply S3 | apply L3]; auto.
Qed.

Lemma four_nodes_well_formed : well_formed four_nodes.
Proof.
  unfold well_formed. simpl.
  split; [|split; [|split; [|split]]].
  - repeat constructor; simpl; intuition discriminate.
  - reflexivity.
  - auto.
  - apply choose_response_low_admissible.
  - apply choose_entry_low_admissible.
Qed.

Lemma three_of_four_well_formed : well_formed three_of_four.
Proof.
  unfold well_formed. simpl.
  split; [|split; [|split; [|split]]].
  - repeat constructor; simpl; intuition discriminate.
  - reflexivity.
  - intros n H. intuition.
  - apply choose_response_low_admissible.
  - apply choose_entry_low_admissible.
Qed.

(** ** Runs are reachable *)

Lemma run_reachable (M : Model) (trace : list Action) :
  forall s s', reachable M s -> run_in M trace s = Some s' -> reachable M s'.
Proof.
  unfold reachable, run_in.
  induction trace as [|a trace IH]; simpl; intros s s' Hs Hrun.
  - now injection Hrun as <-.
  - destruct (step _ _ _ _ _ _ _ a s) as [s1|] eqn:E; [|discriminate].
    apply (IH s1 s'); auto.
    eapply Reachable_Next; eauto. exists a. exact E.
Qed.

Lemma run_from_init_reachable (M : Model) (trace : list Action) s :
  run_in M trace (init M) = Some s -> reachable M s.
Proof.
  apply run_reachable. unfold reachable, init. apply Reachable_Init.
Qed.

Lemma run_app (M : Model) (t1 t2 : list Action) s :
  run_in M (t1 ++ t2) s
  = match run_in M t1 s with
    | Some s1 => run_in M t2 s1
    | None => None
    end.
Proof.
  unfold run_in. revert s. induction t1 as [|a t1 IH]; intros s; simpl; auto.
  destruct (step _ _ _ _ _ _ _ a s); auto.
Qed.

(** Destructs the guards of an action that returned a state. *)
Ltac guards H :=
  repeat match type of H with
         | (if ?b then _ else None) = Some _ =>
             let E := fresh "G" in destruct b eqn:E; [|discriminate H]
         | match ?x with Some _ => _ | None => None end = Some _ =>
             let E := fresh "G" in destruct x eqn:E; [|discriminate H]
         end.

(** ** Runs under a finer choice

    A step, and so a run, that is enabled with choice operators [chr0] and
    [che0] is the same step with any operators that refine them. *)

Lemma choose_forced_refines {A : Type} (ch : (A -> bool) -> list A -> option A) :
  admissible ch -> refines choose_forced ch.
Proof.
  intros [Hsound [Hcomplete _]] P l x H. unfold choose_forced in H.
  destruct (filter P l) as [|y [|z rest]] eqn:E; try discriminate.
  injection H as ->.
  assert (Hx : In x (filter P l)) by (rewrite E; now left).
  apply filter_In in Hx as [Hin HP].
  destruct (ch P l) as [y|] eqn:Ey.
  - apply Hsound in Ey as [Hy HPy].
    assert (Hy' : In y (filter P l)) by (apply filter_In; auto).
    rewrite E in Hy'. destruct Hy' as [->|[]]. reflexivity.
  - exfalso. exact (Hcomplete P l x Hin HP Ey).
Qed.

Section Refinement.

Variables chr0 chr :
  (FenceResponse -> bool) -> list FenceResponse -> option FenceResponse.
Variables che0 che : (LogEntry -> bool) -> list LogEntry -> option LogEntry.
Hypothesis Hr : refines chr0 chr.
Hypothesis He : refines che0 che.

Lemma GetFollowerMap_refines nodes ostate leader responses fe fm :
  GetFollowerMap nodes chr0 ostate leader responses fe = Some fm ->
  GetFollowerMap nodes chr ostate leader responses fe = Some fm.
Proof.
  unfold GetFollowerMap.
  generalize (filter (fun f => negb (f =? leader)
                               && existsb (fun r => fr_node r =? f) responses)
                     (filter (fun f => mem f fe) nodes)).
  intros followers. revert fm.
  induction followers as [|f followers IH]; simpl; auto.
  intros fm H. guards H. rewrite (IH _ eq_refl).
  unfold FollowerResponse in *. now rewrite (Hr _ _ _ G0).
Qed.

Lemma HeadEntry_refines l e :
  HeadEntry che0 l = Some e -> HeadEntry che l = Some e.
Proof. unfold HeadEntry. destruct l; auto. Qed.

Lemma GetTruncateRequest_refines nstate f ep m :
  GetTruncateRequest che0 nstate f ep = Some m ->
  GetTruncateRequest che nstate f ep = Some m.
Proof.
  unfold GetTruncateRequest, GetHighestEntryOfEpoch.
  destruct (existsb _ (log nstate)); auto.
  intros H. guards H. now rewrite (He _ _ _ G).
Qed.

Lemma GetTruncateRequests_refines nodes nstate fm ms :
  GetTruncateRequests nodes che0 nstate fm = Some ms ->
  GetTruncateRequests nodes che nstate fm = Some ms.
Proof.
  unfold GetTruncateRequests.
  generalize (FollowersToTruncate nodes nstate fm). intros fs. revert ms.
  induction fs as [|f fs IH]; simpl; auto.
  intros ms H. guards H. rewrite (IH _ eq_refl).
  now rewrite (GetTruncateRequest_refines _ _ _ _ G1).
Qed.

Lemma GetNextEntries_refines lstate followers es :
  GetNextEntries che0 lstate followers = Some es ->
  GetNextEntries che lstate followers = Some es.
Proof.
  unfold GetNextEntries. revert es.
  induction followers as [|f fs IH]; simpl; auto.
  intros es H. guards H. rewrite (IH _ eq_refl).
  unfold NextEntry in *. now rewrite (He _ _ _ G0).
Qed.

Lemma NewCommitIndex_refines nodes nstate fc rf i :
  NewCommitIndex nodes che0 nstate fc rf = Some i ->
  NewCommitIndex nodes che nstate fc rf = Some i.
Proof.
  unfold NewCommitIndex. destruct (existsb _ (log nstate)); auto.
  intros H. guards H. now rewrite (He _ _ _ G).
Qed.

Lemma step_refines ops nodes vals maxe maxs a s s' :
  step ops nodes vals maxe maxs chr0 che0 a s = Some s' ->
  step ops nodes vals maxe maxs chr che a s = Some s'.
Proof.
  destruct a; simpl; auto.
  - unfold OperatorHandlesQuorumFencingResponse. intros H. guards H.
    destruct msg; try discriminate H. guards H.
    unfold WinnerResponse in *. rewrite (Hr _ _ _ G9).
    now rewrite (GetFollowerMap_refines _ _ _ _ _ _ G10).
  - unfold NodeHandlesBecomeLeaderRequest. destruct msg; auto.
    intros H. guards H. now rewrite (GetTruncateRequests_refines _ _ _ _ G1).
  - unfold NodeHandlesTruncateRequest. destruct msg; auto.
    intros H. guards H. now rewrite (HeadEntry_refines _ _ G2).
  - unfold LeaderHandlesAddFollowerRequest. destruct msg; auto.
    intros H. guards H.
    destruct (NeedsTruncation _ _); auto.
    guards H. now rewrite (GetTruncateRequest_refines _ _ _ _ G3).
  - unfold LeaderSendsEntriesToFollowers. intros H. guards H.
    now rewrite (GetNextEntries_refines _ _ _ G4).
  - unfold LeaderHandlesEntryConfirm. destruct msg; auto.
    intros H. guards H.
    destruct (EntryIsCommitted _ _ _ _ _); auto.
    guards H. unfold GetEntry in *. now rewrite (He _ _ _ G4).
  - unfold LeaderHandlesCommitNodeSwapReconfigRequest.
    destruct msg as [| | | | | | | | | | | | | op nd opr ep rf old new hd |];
      auto.
    destruct old; auto. destruct new; auto. destruct hd; auto.
    intros H. guards H.
    rewrite (NewCommitIndex_refines _ _ _ _ _ G6). exact H.
  - unfold LeaderHandlesCommitExpandReconfigRequest.
    destruct msg as [| | | | | | | | | | | | | op nd opr ep rf old new hd |];
      auto.
    destruct new; auto. destruct hd; auto.
    intros H. guards H.
    rewrite (NewCommitIndex_refines _ _ _ _ _ G5). exact H.
  - unfold LeaderHandlesCommitContractReconfigRequest.
    destruct msg as [| | | | | | | | | | | | | op nd opr ep rf old new hd |];
      auto.
    destruct old; auto.
    intros H. guards H.
    rewrite (NewCommitIndex_refines _ _ _ _ _ G5). cbv beta iota.
    rewrite G6. exact H.
Qed.

Lemma run_refines ops nodes vals maxe maxs trace :
  forall s s',
    run ops nodes vals maxe maxs chr0 che0 trace s = Some s' ->
    run ops nodes vals maxe maxs chr che trace s = Some s'.
Proof.
  induction trace as [|a trace IH]; simpl; auto.
  intros s s' H. guards H.
  rewrite (step_refines _ _ _ _ _ _ _ _ G). now apply IH.
Qed.

End Refinement.

(** ** The winners of tied elections *)

Lemma mem_response_In r l : mem_response r l = true <-> In r l.
Proof.
  unfold mem_response. destruct (in_dec FenceResponse_eq_dec r l); split; auto.
  discriminate.
Qed.

Lemma same_responses_spec l1 l2 :
  same_responses l1 l2 = true -> forall r, In r l1 <-> In r l2.
Proof.
  unfold same_responses. intros H r.
  apply andb_true_iff in H as [H1 H2].
  rewrite forallb_forall in H1, H2. split; intros Hin.
  - apply mem_response_In. now apply H1.
  - apply mem_response_In. now apply H2.
Qed.

(** An admissible choice among all elements of a list that is not empty
    takes one of them. *)
Lemma tie_winner {A : Type} (ch : (A -> bool) -> list A -> option A) x l :
  admissible ch ->
  exists r, In r (x :: l) /\ ch (fun _ => true) (x :: l) = Some r.
Proof.
  intros [Hsound [Hcomplete _]].
  destruct (ch (fun _ => true) (x :: l)) as [r|] eqn:E.
  - exists r. split; auto. now apply Hsound in E.
  - exfalso. apply (Hcomplete (fun _ => true) (x :: l) x); auto. now left.
Qed.

(** An admissible choice that takes [r1] among [set1] and [r2] among [set2]
    refines the choice that is forced elsewhere. *)
Lemma choose_tie_refines chr set1 r1 set2 r2 :
  admissible chr ->
  chr (fun _ => true) set1 = Some r1 ->
  chr (fun _ => true) set2 = Some r2 ->
  refines (choose_tie set1 r1 set2 r2) chr.
Proof.
  intros Hadm H1 H2 P l x H. unfold choose_tie in H.
  destruct (choose_forced P l) as [y|] eqn:E.
  - injection H as <-. now apply (choose_forced_refines chr Hadm).
  - destruct Hadm as [_ [_ Hext]].
    destruct (same_responses (filter P l) set1) eqn:E1.
    + injection H as <-. rewrite <- H1. apply Hext. intros r.
      rewrite <- (same_responses_spec _ _ E1 r), filter_In. tauto.
    + destruct (same_responses (filter P l) set2) eqn:E2; [|discriminate].
      injection H as <-. rewrite <- H2. apply Hext. intros r.
      rewrite <- (same_responses_spec _ _ E2 r), filter_In. tauto.
Qed.

Lemma four_nodes_with_well_formed chr che :
  admissible chr -> admissible che -> well_formed (four_nodes_with chr che).
Proof.
  intros Hr He. split; [|split; [|split; [|split]]]; auto.
  repeat constructor; simpl; intuition discriminate.
Qed.

Lemma without_In x n l : In n (without x l) -> In n l.
Proof. unfold without. intros H. now apply filter_In in H. Qed.

(** Whatever the choice operators are, the two elections have winners [L]
    and [W], and every run under [tie_choice L W] and the forced choice of
    entries is a run of the model. *)
Lemma tie_choice_runs chr che :
  admissible chr -> admissible che ->
  exists L W,
    In L [0; 1; 2] /\ In W (without L [0; 1; 2; 3]) /\
    forall trace s,
      run_tie L W trace = Some s -> reachable (four_nodes_with chr che) s.
Proof.
  intros Hr He.
  destruct (tie_winner chr (fence_record 0 0 1)
                       (map (fun n => fence_record n 0 1) [1; 2]) Hr)
    as [r1 [Hin1 H1]].
  change (In r1 first_tie) in Hin1. apply in_map_iff in Hin1 as [L [<- HL]].
  exists L.
  assert (Hne : exists x l, second_tie L = x :: l).
  { simpl in HL. destruct HL as [<-|[<-|[<-|[]]]]; eexists; eexists; reflexivity. }
  destruct Hne as [x [l Hxl]].
  destruct (tie_winner chr x l Hr) as [r2 [Hin2 H2]].
  rewrite <- Hxl in Hin2, H2.
  apply in_map_iff in Hin2 as [W [<- HW]].
  exists W. split; [exact HL|]. split; [exact HW|].
  intros trace s Hrun.
  apply run_from_init_reachable with (trace := trace).
  apply (run_refines (tie_choice L W) chr choose_forced che); auto.
  - apply choose_tie_refines; auto.
  - now apply choose_forced_refines.
Qed.

(** ** The completion of a reconfiguration does not check the version *)

(** The state the trace [stale_completion_by L W] ends in: the metadata
    names [L] as leader, with nodes 0, 1 and 2 as ensemble; value 7 is
    confirmed; the log of [L] is empty; and a follower of [W] in the
    ensemble holds the entry of value 7 at its commit index. *)
Lemma stale_completion_by_end L W :
  In L [0; 1; 2] -> In W (without L [0; 1; 2; 3]) ->
  exists s,
    run_tie L W (stale_completion_by L W) = Some s /\
    md_leader (metadata s) = Some L /\
    ensemble (metadata s) = [0; 1; 2] /\
    confirmed s = [(7, true); (8, false)] /\
    log (node_state s L) = [] /\
    In (follower_of L W) [0; 1; 2] /\
    log (node_state s (follower_of L W)) = [entry_1_3; entry_2_3] /\
    commit_index (node_state s (follower_of L W)) = entry_id entry_1_3 /\
    NoLossOfConfirmedWrite s = false /\
    NoLogDivergence s = false.
Proof.
  intros HL HW. simpl in HL.
  destruct HL as [<-|[<-|[<-|[]]]]; simpl in HW;
    destruct HW as [<-|[<-|[<-|[]]]];
    (destruct (run_tie _ _ _) as [s|] eqn:E; [|vm_compute in E; discriminate];
     exists s; split; [reflexivity|];
     vm_compute in E; injection E as <-;
     repeat split; simpl; auto).
Qed.

(** The state the trace [stale_completion_then_expand_by L W] ends in: [L]
    and [W] are both in [LEADER] status with epoch 3. *)
Lemma stale_completion_then_expand_by_end L W :
  In L [0; 1; 2] -> In W (without L [0; 1; 2; 3]) ->
  exists s,
    run_tie L W (stale_completion_then_expand_by L W) = Some s /\
    L <> W /\
    n_status (node_state s L) = LEADER /\
    n_status (node_state s W) = LEADER /\
    n_epoch (node_state s L) = 3 /\
    n_epoch (node_state s W) = 3.
Proof.
  intros HL HW. simpl in HL.
  destruct HL as [<-|[<-|[<-|[]]]]; simpl in HW;
    destruct HW as [<-|[<-|[<-|[]]]];
    (destruct (run_tie _ _ _) as [s|] eqn:E; [|vm_compute in E; discriminate];
     exists s; split; [reflexivity|];
     vm_compute in E; injection E as <-;
     repeat split; discriminate).
Qed.

(** C1.  With four nodes and two operators, whatever the admissible choice
    operators are, a state is reachable in which the metadata records a
    leader, value 7 has been reported committed, and the log of that leader
    holds no entry with that value: [NoLossOfConfirmedWrite] is false
    there. *)
Theorem confirmed_write_lost
        (chr : (FenceResponse -> bool) -> list FenceResponse
               -> option FenceResponse)
        (che : (LogEntry -> bool) -> list LogEntry -> option LogEntry) :
  admissible chr -> admissible che ->
  well_formed (four_nodes_with chr che) /\
  exists s leader,
    reachable (four_nodes_with chr che) s /\
    md_leader (metadata s) = Some leader /\
    In (7, true) (confirmed s) /\
    (forall entry, In entry (log (node_state s leader)) ->
                   value entry <> Some 7) /\
    NoLossOfConfirmedWrite s = false.
Proof.
  intros Hr He. split; [now apply four_nodes_with_well_formed|].
  destruct (tie_choice_runs chr che Hr He) as [L [W [HL [HW Hreach]]]].
  destruct (stale_completion_by_end L W HL HW)
    as [s [Hrun [Hl [_ [Hc [Hlog [_ [_ [_ [Hlost _]]]]]]]]]].
  exists s, L. split; [exact (Hreach _ _ Hrun)|].
  split; [exact Hl|]. split; [rewrite Hc; now left|].
  split; [rewrite Hlog; intros entry []|exact Hlost].
Qed.

(** The theorem on the choices that prefer the lowest keys. *)
Lemma confirmed_write_lost_witness :
  admissible choose_response_low /\
  admissible choose_entry_low /\
  well_formed four_nodes /\
  exists s leader,
    reachable four_nodes s /\
    md_leader (metadata s) = Some leader /\
    In (7, true) (confirmed s) /\
    (forall entry, In entry (log (node_state s leader)) ->
                   value entry <> Some 7) /\
    NoLossOfConfirmedWrite s = false.
Proof.
  split; [exact choose_response_low_admissible|].
  split; [exact choose_entry_low_admissible|].
  exact (confirmed_write_lost choose_response_low choose_entry_low
           choose_response_low_admissible choose_entry_low_admissible).
Defined.

(** C2.  With four nodes and two operators, whatever the admissible choice
    operators are, a state is reachable in which the metadata records a
    leader, a node [n] belongs to the metadata ensemble, and the log of [n]
    holds, at its commit index, an entry that the log of the leader does not
    hold: [NoLogDivergence] is false there. *)
Theorem committed_entry_missing_from_leader
        (chr : (FenceResponse -> bool) -> list FenceResponse
               -> option FenceResponse)
        (che : (LogEntry -> bool) -> list LogEntry -> option LogEntry) :
  admissible chr -> admissible che ->
  well_formed (four_nodes_with chr che) /\
  exists s leader n,
    reachable (four_nodes_with chr che) s /\
    md_leader (metadata s) = Some leader /\
    In n (ensemble (metadata s)) /\
    In entry_1_3 (log (node_state s n)) /\
    IsLowerOrEqualId (entry_id entry_1_3) (commit_index (node_state s n))
    = true /\
    ~ In entry_1_3 (log (node_state s leader)) /\
    NoLogDivergence s = false.
Proof.
  intros Hr He. split; [now apply four_nodes_with_well_formed|].
  destruct (tie_choice_runs chr che Hr He) as [L [W [HL [HW Hreach]]]].
  destruct (stale_completion_by_end L W HL HW)
    as [s [Hrun [Hl [Hens [_ [Hlog [Hin [Hlogn [Hci [_ Hdiv]]]]]]]]]].
  exists s, L, (follower_of L W). split; [exact (Hreach _ _ Hrun)|].
  split; [exact Hl|]. split; [now rewrite Hens|].
  split; [rewrite Hlogn; now left|].
  split; [rewrite Hci; reflexivity|].
  split; [rewrite Hlog; intros []|exact Hdiv].
Qed.

(** The theorem on the choices that prefer the lowest keys. *)
Lemma committed_entry_missing_from_leader_witness :
  admissible choose_response_low /\
  admissible choose_entry_low /\
  well_formed four_nodes /\
  exists s leader n,
    reachable four_nodes s /\
    md_leader (metadata s) = Some leader /\
    In n (ensemble (metadata s)) /\
    In entry_1_3 (log (node_state s n)) /\
    IsLowerOrEqualId (entry_id entry_1_3) (commit_index (node_state s n))
    = true /\
    ~ In entry_1_3 (log (node_state s leader)) /\
    NoLogDivergence s = false.
Proof.
  split; [exact choose_response_low_admissible|].
  split; [exact choose_entry_low_admissible|].
  exact (committed_entry_missing_from_leader
           choose_response_low choose_entry_low
           choose_response_low_admissible choose_entry_low_admissible).
Defined.

(** C5.  With four nodes and two operators, whatever the admissible choice
    operators are, a state is reachable in which two distinct nodes are both
    in [LEADER] status with epoch 3. *)
Theorem two_leaders_in_one_term
        (chr : (FenceResponse -> bool) -> list FenceResponse
               -> option FenceResponse)
        (che : (LogEntry -> bool) -> list LogEntry -> option LogEntry) :
  admissible chr -> admissible che ->
  well_formed (four_nodes_with chr che) /\
  exists s n1 n2,
    reachable (four_nodes_with chr che) s /\
    n1 <> n2 /\
    n_status (node_state s n1) = LEADER /\
    n_status (node_state s n2) = LEADER /\
    n_epoch (node_state s n1) = 3 /\
    n_epoch (node_state s n2) = 3 /\
    ~ UniqueLeaderPerTerm (Nodes (four_nodes_with chr che)) s.
Proof.
  intros Hr He. split; [now apply four_nodes_with_well_formed|].
  destruct (tie_choice_runs chr che Hr He) as [L [W [HL [HW Hreach]]]].
  destruct (stale_completion_then_expand_by_end L W HL HW)
    as [s [Hrun [Hne [HsL [HsW [HeL HeW]]]]]].
  exists s, L, W. split; [exact (Hreach _ _ Hrun)|].
  repeat (split; [assumption|]).
  intros H. apply Hne. apply H; try assumption; try congruence.
  - simpl in *. tauto.
  - simpl. apply (without_In _ _ _ HW).
Qed.

(** The theorem on the choices that prefer the lowest keys. *)
Lemma two_leaders_in_one_term_witness :
  admissible choose_response_low /\
  admissible choose_entry_low /\
  well_formed four_nodes /\
  exists s n1 n2,
    reachable four_nodes s /\
    n1 <> n2 /\
    n_status (node_state s n1) = LEADER /\
    n_status (node_state s n2) = LEADER /\
    n_epoch (node_state s n1) = 3 /\
    n_epoch (node_state s n2) = 3 /\
    ~ UniqueLeaderPerTerm (Nodes four_nodes) s.
Proof.
  split; [exact choose_response_low_admissible|].
  split; [exact choose_entry_low_admissible|].
  exact (two_leaders_in_one_term choose_response_low choose_entry_low
           choose_response_low_admissible choose_entry_low_admissible).
Defined.

(** ** Entry ids *)

Lemma upd_same {A : Type} (f : nat -> A) k v : upd f k v k = v.
Proof. unfold upd. now rewrite Nat.eqb_refl. Qed.

Lemma upd_other {A : Type} (f : nat -> A) k v n : n <> k -> upd f k v n = f n.
Proof. unfold upd. intros H. apply Nat.eqb_neq in H. now rewrite H. Qed.

Lemma CompareLogEntries_cases a b :
  (CompareLogEntries a b = 1%Z /\
   (epoch b < epoch a \/ (epoch a = epoch b /\ offset b < offset a))) \/
  (CompareLogEntries a b = 0%Z /\ a = b) \/
  (CompareLogEntries a b = (-1)%Z /\
   (epoch a < epoch b \/ (epoch a = epoch b /\ offset a < offset b))).
Proof.
  unfold CompareLogEntries. destruct a as [oa ea], b as [ob eb]. simpl.
  destruct (Nat.ltb_spec eb ea); [left; split; auto|].
  destruct (Nat.eqb_spec ea eb); simpl.
  - destruct (Nat.ltb_spec ob oa); [left; split; auto|].
    destruct (Nat.eqb_spec oa ob); [right; left; split; congruence|].
    right; right. split; auto. right. lia.
  - right; right. split; auto. left. lia.
Qed.

(** [IsHigherId] is the strict lexicographic order on (epoch, offset). *)
Lemma IsHigherId_lex a b :
  IsHigherId a b = true <->
  (epoch b < epoch a \/ (epoch a = epoch b /\ offset b < offset a)).
Proof.
  unfold IsHigherId.
  destruct (CompareLogEntries_cases a b) as [[-> H]|[[-> H]|[-> H]]]; simpl.
  - tauto.
  - subst b. split; [discriminate | lia].
  - split; [discriminate | lia].
Qed.

Lemma IsLowerOrEqualId_lex a b :
  IsLowerOrEqualId a b = true <->
  (epoch a < epoch b \/ (epoch a = epoch b /\ offset a <= offset b)).
Proof.
  unfold IsLowerOrEqualId.
  destruct (CompareLogEntries_cases a b) as [[-> H]|[[-> H]|[-> H]]]; simpl.
  - split; [discriminate | lia].
  - subst b. split; [lia | reflexivity].
  - split; [lia | reflexivity].
Qed.

Lemma IsHigherId_not_lower a b : IsHigherId a b = negb (IsLowerOrEqualId a b).
Proof.
  unfold IsHigherId, IsLowerOrEqualId.
  destruct (CompareLogEntries_cases a b) as [[-> _]|[[-> _]|[-> _]]]; reflexivity.
Qed.

Lemma IsSameId_eq a b : IsSameId a b = true <-> a = b.
Proof.
  unfold IsSameId.
  destruct (CompareLogEntries_cases a b) as [[-> H]|[[-> H]|[-> H]]]; simpl.
  - split; [discriminate|]. intros ->. lia.
  - tauto.
  - split; [discriminate|]. intros ->. lia.
Qed.

Lemma IsLowerOrEqualId_refl a : IsLowerOrEqualId a a = true.
Proof. apply IsLowerOrEqualId_lex. right. lia. Qed.

(** ** Starting an election *)

Lemma OperatorStartsElection_sends ops max o visible s s' :
  OperatorStartsElection ops max o visible s = Some s' ->
  exists fencing_ensemble omd,
    FencingEnsemble s = Some fencing_ensemble /\
    md (operator_state s o) = Some omd /\
    election_fencing_ensemble (operator_state s' o) = fencing_ensemble /\
    messages s' = messages s ++ GetFenceRequests o (md_epoch omd + 1) (ensemble omd).
Proof.
  unfold OperatorStartsElection. intros H. guards H.
  injection H as <-. eexists. eexists. repeat split.
  simpl. now rewrite upd_same.
Qed.

(** C6.  When the operator starts an election, the quorum is counted
    against the fencing ensemble, but the fence requests go to the ensemble
    of the operator's metadata.  In the reachable state where the expansion
    by node 3 is in its commit phase, the fencing ensemble of the election
    is {0, 1, 2, 3}, the operator records it for the quorum, and the fence
    requests of epoch 3 are sent to nodes 0, 1 and 2: no fence request is
    ever addressed to node 3, a member of the fencing ensemble. *)
Theorem fence_requests_skip_new_node :
  well_formed three_of_four /\
  exists s s',
    reachable three_of_four s /\
    step_in three_of_four (AOperatorStartsElection 0 [0; 1; 2]) s = Some s' /\
    FencingEnsemble s = Some [0; 1; 2; 3] /\
    election_fencing_ensemble (operator_state s' 0) = [0; 1; 2; 3] /\
    In (FENCE_REQUEST 0 0 3) (messages s') /\
    In (FENCE_REQUEST 1 0 3) (messages s') /\
    In (FENCE_REQUEST 2 0 3) (messages s') /\
    (forall o ep, ~ In (FENCE_REQUEST 3 o ep) (messages s')).
Proof.
  split; [exact three_of_four_well_formed|].
  destruct (run_in three_of_four expand_to_commit_phase (init three_of_four))
    as [s|] eqn:E; [|vm_compute in E; discriminate].
  destruct (step_in three_of_four (AOperatorStartsElection 0 [0; 1; 2]) s)
    as [s'|] eqn:E';
    [|vm_compute in E; injection E as <-; vm_compute in E'; discriminate].
  exists s, s'.
  split; [now apply run_from_init_reachable
                with (trace := expand_to_commit_phase)|].
  split; [exact E'|].
  vm_compute in E. injection E as <-.
  vm_compute in E'. injection E' as <-.
  split; [reflexivity|]. split; [reflexivity|].
  simpl. repeat split; auto 10.
  intros o ep H. intuition discriminate.
Qed.

(** ** The commit rule *)

Lemma quorum_cursors_spec nodes eid fc n :
  In n (quorum_cursors nodes eid fc) <->
  In n nodes /\ status (fc n) = ATTACHED /\
  IsLowerOrEqualId eid (last_confirmed (fc n)) = true.
Proof.
  unfold quorum_cursors. rewrite filter_In, andb_true_iff.
  unfold cstatus_eqb. destruct (CursorStatus_eq_dec (status (fc n)) ATTACHED);
    intuition congruence.
Qed.

Lemma EntryReachedQuorum_spec nodes eid fc rf :
  EntryReachedQuorum nodes eid fc rf = true <->
  rf / 2 <= card_nodes (quorum_cursors nodes eid fc).
Proof. unfold EntryReachedQuorum. apply Nat.leb_le. Qed.

Lemma EntryIsCommitted_spec nodes nstate eid fc rf :
  EntryIsCommitted nodes nstate eid fc rf = true <->
  epoch eid = n_epoch nstate /\
  forall entry,
    In entry (log nstate) ->
    IsLowerOrEqualId (entry_id entry) eid = true ->
    rf / 2 <= card_nodes (quorum_cursors nodes (entry_id entry) fc).
Proof.
  unfold EntryIsCommitted, LogPrefixAtQuorum.
  rewrite andb_true_iff, Nat.eqb_eq, forallb_forall.
  split.
  - intros [Hall Hep]. split; [exact Hep|].
    intros entry Hin Hle. specialize (Hall entry Hin).
    rewrite IsHigherId_not_lower, Hle in Hall. simpl in Hall.
    now apply EntryReachedQuorum_spec.
  - intros [Hep Hall]. split; [|exact Hep].
    intros entry Hin. rewrite IsHigherId_not_lower.
    destruct (IsLowerOrEqualId (entry_id entry) eid) eqn:Hle; simpl; auto.
    apply EntryReachedQuorum_spec. now apply Hall.
Qed.

Lemma NewCommitIndex_committed nodes che nstate fc rf i :
  admissible che ->
  NewCommitIndex nodes che nstate fc rf = Some i ->
  i = NoEntryId \/
  (exists entry, In entry (log nstate) /\ entry_id entry = i) /\
  EntryIsCommitted nodes nstate i fc rf = true.
Proof.
  intros [Hsound _]. unfold NewCommitIndex.
  destruct (existsb _ (log nstate)); [|intros [= <-]; now left].
  intros H. guards H. injection H as <-.
  apply Hsound in G as [Hin HP]. apply andb_true_iff in HP as [HP _].
  right. split; [|exact HP]. eauto.
Qed.

(** C3.  When the leader handles an add-entry response and the entry of
    the response becomes committed (the commit index of the leader or the
    confirmation of a value changes), then: (c) the epoch of the entry id is
    the epoch of the leader; (a) the number of follow cursors that are
    attached and confirmed up to the entry is at least [rep_factor / 2];
    (b) the same holds of every entry of the log at or below the entry; a
    cursor counts only when it is attached; the entry is in the leader's
    log, and the new commit index is the entry id or the old commit index.
    Whatever the cursors, an entry id of another epoch than the leader's is
    not committed; and the commit index that a reconfiguration recomputes is
    the id of no entry or of an entry that satisfies the same rule. *)
Theorem entry_commit_rule
        (nodes : list Node) (che : (LogEntry -> bool) -> list LogEntry -> option LogEntry)
        (s s' : State) (leader follower : Node) (code : ReturnCode)
        (eid : EntryId) (ep : Epoch) :
  admissible che ->
  LeaderHandlesEntryConfirm nodes che
    (ADD_ENTRY_RESPONSE leader follower code eid ep) s = Some s' ->
  (commit_index (node_state s' leader) <> commit_index (node_state s leader)
   \/ confirmed s' <> confirmed s) ->
  let nstate := node_state s leader in
  let cursors := follow_cursor (node_state s' leader) in
  epoch eid = n_epoch nstate /\
  n_rep_factor nstate / 2 <= card_nodes (quorum_cursors nodes eid cursors) /\
  (forall entry,
      In entry (log nstate) ->
      IsLowerOrEqualId (entry_id entry) eid = true ->
      n_rep_factor nstate / 2
      <= card_nodes (quorum_cursors nodes (entry_id entry) cursors)) /\
  (forall e n,
      In n (quorum_cursors nodes e cursors) <->
      In n nodes /\ status (cursors n) = ATTACHED /\
      IsLowerOrEqualId e (last_confirmed (cursors n)) = true) /\
  (exists entry, In entry (log nstate) /\ entry_id entry = eid) /\
  (commit_index (node_state s' leader) = eid \/
   commit_index (node_state s' leader) = commit_index nstate) /\
  (forall eid' fc rf,
      epoch eid' <> n_epoch nstate ->
      EntryIsCommitted nodes nstate eid' fc rf = false) /\
  (forall nst fc rf i,
      NewCommitIndex nodes che nst fc rf = Some i ->
      i = NoEntryId \/
      (exists entry, In entry (log nst) /\ entry_id entry = i) /\
      epoch i = n_epoch nst /\
      forall entry,
        In entry (log nst) ->
        IsLowerOrEqualId (entry_id entry) i = true ->
        rf / 2 <= card_nodes (quorum_cursors nodes (entry_id entry) fc)).
Proof.
  intros Hadm H Hchanged nstate cursors.
  assert (Hprior : forall eid' fc rf,
             epoch eid' <> n_epoch nstate ->
             EntryIsCommitted nodes nstate eid' fc rf = false).
  { intros eid' fc rf Hne.
    destruct (EntryIsCommitted nodes nstate eid' fc rf) eqn:E; auto.
    apply EntryIsCommitted_spec in E as [E _]. contradiction. }
  assert (Hnew : forall nst fc rf i,
             NewCommitIndex nodes che nst fc rf = Some i ->
             i = NoEntryId \/
             (exists entry, In entry (log nst) /\ entry_id entry = i) /\
             epoch i = n_epoch nst /\
             forall entry,
               In entry (log nst) ->
               IsLowerOrEqualId (entry_id entry) i = true ->
               rf / 2 <= card_nodes (quorum_cursors nodes (entry_id entry) fc)).
  { intros nst fc rf i Hi.
    destruct (NewCommitIndex_committed _ _ _ _ _ _ Hadm Hi) as [->|[Hin Hc]];
      [now left|].
    right. split; [exact Hin|]. now apply EntryIsCommitted_spec. }
  unfold LeaderHandlesEntryConfirm in H. guards H.
  fold nstate in H.
  destruct (EntryIsCommitted nodes nstate eid _ (n_rep_factor nstate)) eqn:Hc.
  - guards H. injection H as <-.
    subst cursors. cbn -[Nat.div card_nodes quorum_cursors].
    rewrite upd_same. cbn -[Nat.div card_nodes quorum_cursors].
    apply EntryIsCommitted_spec in Hc as [Hep Hall].
    destruct Hadm as [Hsound _].
    apply Hsound in G4 as [Hin Hsame]. apply IsSameId_eq in Hsame.
    split; [exact Hep|].
    split.
    { pose proof (Hall _ Hin) as Ha. rewrite Hsame in Ha.
      apply Ha. apply IsLowerOrEqualId_refl. }
    split; [exact Hall|].
    split; [intros e n; apply quorum_cursors_spec|].
    split; [eauto|].
    split; [destruct (IsHigherId eid (commit_index nstate)); auto|].
    split; [exact Hprior | exact Hnew].
  - injection H as <-. exfalso.
    cbn in Hchanged. rewrite upd_same in Hchanged. cbn in Hchanged.
    destruct Hchanged as [Hx|Hx]; now apply Hx.
Qed.

(** The theorem on the second confirmation of [stale_completion]: node 1,
    leader in epoch 3 with replication factor 4, receives the confirmation
    of node 3 after that of node 2, and commits the entry (1, 3). *)
Lemma entry_commit_rule_witness :
  let s := state_after four_nodes (firstn 28 stale_completion) in
  let s' := state_after four_nodes (firstn 29 stale_completion) in
  admissible choose_entry_low /\
  LeaderHandlesEntryConfirm [0; 1; 2; 3] choose_entry_low
    (ADD_ENTRY_RESPONSE 1 3 OK (entry_id entry_1_3) 3) s = Some s' /\
  commit_index (node_state s' 1) <> commit_index (node_state s 1) /\
  epoch (entry_id entry_1_3) = n_epoch (node_state s 1) /\
  n_rep_factor (node_state s 1) / 2
  <= card_nodes (quorum_cursors [0; 1; 2; 3] (entry_id entry_1_3)
                                (follow_cursor (node_state s' 1))).
Proof.
  intros s s'.
  assert (Hadm : admissible choose_entry_low)
    by exact choose_entry_low_admissible.
  assert (Hrun : LeaderHandlesEntryConfirm [0; 1; 2; 3] choose_entry_low
                   (ADD_ENTRY_RESPONSE 1 3 OK (entry_id entry_1_3) 3) s
                 = Some s') by (vm_compute; reflexivity).
  assert (Hch : commit_index (node_state s' 1) <> commit_index (node_state s 1))
    by (vm_compute; discriminate).
  split; [exact Hadm|]. split; [exact Hrun|]. split; [exact Hch|].
  pose proof (entry_commit_rule [0; 1; 2; 3] choose_entry_low s s' 1 3 OK
                (entry_id entry_1_3) 3 Hadm Hrun (or_introl Hch)) as H.
  cbv zeta in H. destruct H as [Hc [Ha _]]. split; [exact Hc | exact Ha].
Defined.

(** ** The commit of a contraction *)

Lemma IsHigherId_irrefl a : IsHigherId a a = false.
Proof.
  destruct (IsHigherId a a) eqn:E; auto. apply IsHigherId_lex in E. lia.
Qed.

Lemma IsHigherId_trans a b c :
  IsHigherId a b = true -> IsHigherId b c = true -> IsHigherId a c = true.
Proof. rewrite !IsHigherId_lex. lia. Qed.

Lemma IsHigherId_total a b :
  IsHigherId a b = true \/ IsHigherId b a = true \/ a = b.
Proof.
  rewrite !IsHigherId_lex. destruct a as [oa ea], b as [ob eb]. simpl.
  destruct (Nat.lt_total ea eb) as [|[->|]]; auto.
  destruct (Nat.lt_total oa ob) as [|[->|]]; auto.
Qed.

(** A finite set of items with a property has a highest such item, for
    the order of the entry ids of the items. *)
Lemma highest_exists {A : Type} (id : A -> EntryId) (P : A -> bool) (l : list A) :
  existsb P l = true ->
  exists m, In m l /\ P m = true /\
            existsb (fun e1 => IsHigherId (id e1) (id m) && P e1) l = false.
Proof.
  induction l as [|x l IH]; simpl; [discriminate|].
  intros H.
  assert (Hnone : forall m (l' : list A),
             (forall e1, In e1 l' -> P e1 = true ->
                         IsHigherId (id e1) (id m) = false) ->
             existsb (fun e1 => IsHigherId (id e1) (id m) && P e1) l' = false).
  { intros m l' Hl'. destruct (existsb _ l') eqn:E; auto.
    apply existsb_exists in E as [e1 [Hin He]].
    apply andb_true_iff in He as [He HP]. rewrite (Hl' e1 Hin HP) in He.
    discriminate. }
  destruct (existsb P l) eqn:El.
  - destruct (IH eq_refl) as [m [Hin [HPm Hmax]]].
    assert (Hmax' : forall e1, In e1 l -> P e1 = true ->
                               IsHigherId (id e1) (id m) = false).
    { intros e1 H1 HP1.
      destruct (IsHigherId (id e1) (id m)) eqn:E; auto.
      assert (existsb (fun e1 => IsHigherId (id e1) (id m) && P e1) l = true).
      { apply existsb_exists. exists e1. split; auto. now rewrite E, HP1. }
      congruence. }
    destruct (P x && IsHigherId (id x) (id m)) eqn:Ex.
    + apply andb_true_iff in Ex as [HPx Hxm].
      exists x. split; [now left|]. split; [exact HPx|].
      rewrite IsHigherId_irrefl. simpl. apply Hnone.
      intros e1 H1 HP1.
      destruct (IsHigherId (id e1) (id x)) eqn:E; auto.
      rewrite <- (Hmax' e1 H1 HP1). symmetry.
      eapply IsHigherId_trans; eauto.
    + exists m. split; [now right|]. split; [exact HPm|].
      rewrite (andb_comm (IsHigherId _ _)), Ex. simpl. exact Hmax.
  - rewrite orb_false_r in H.
    exists x. split; [now left|]. split; [exact H|].
    rewrite IsHigherId_irrefl. simpl. apply Hnone.
    intros e1 H1 HP1.
    assert (existsb P l = true) by (apply existsb_exists; eauto).
    congruence.
Qed.


Lemma in_remove_one_app msg m (msgs new : list Message) :
  In m new -> In m (remove_one msg msgs ++ new).
Proof. intros H. apply in_or_app. now right. Qed.



Lemma state_after_reachable (M : Model) (trace : list Action) :
  reachable M (state_after M trace).
Proof.
  unfold state_after.
  destruct (run_in M trace (init M)) as [s|] eqn:E.
  - now apply run_from_init_reachable with (trace := trace).
  - unfold reachable, init. apply Reachable_Init.
Qed.


(** ** A follower handles an add entry request *)

Lemma add_entry_spec entry l e :
  In e (add_entry entry l) <-> e = entry \/ In e l.
Proof.
  unfold add_entry, mem_entry.
  destruct (in_dec LogEntry_eq_dec entry l) as [Hin|Hout].
  - split; [auto|]. intros [->|H]; auto.
  - rewrite in_app_iff. simpl. intuition.
Qed.

Lemma add_entry_present entry l : In entry l -> add_entry entry l = l.
Proof.
  unfold add_entry, mem_entry. intros H.
  destruct (in_dec LogEntry_eq_dec entry l); [reflexivity | contradiction].
Qed.

(** C8 (amended).  A node handles the earliest receivable add-entry request
    addressed to it as follows.  It rejects it, with [INVALID_EPOCH], the
    entry id and the epoch of the request, and no change of the nodes, if
    and only if its own epoch is strictly greater than the epoch of the
    request.  It confirms it if and only if its own epoch is not greater
    and its status is [FOLLOWER] or [FENCED]; it then becomes [FOLLOWER]
    with the sender as leader, adopts the epoch of the request, adds the
    entry to its log (the log is unchanged when it holds the entry
    already), sets its head index to the entry id, sets its commit index to
    the commit index of the request, and replies [OK] with the entry id and
    its epoch of before the request. *)
Theorem follower_append_rule
        (s : State) (dest_node source_node : Node) (entry : LogEntry)
        (commit : EntryId) (ep : Epoch) :
  let msg := ADD_ENTRY_REQUEST dest_node source_node entry commit ep in
  let nstate := node_state s dest_node in
  IsEarliestReceivableEntryMessage (messages s) msg = true ->
  ((exists s', FollowerRejectsEntry msg s = Some s') <-> ep < n_epoch nstate) /\
  (forall s',
      FollowerRejectsEntry msg s = Some s' ->
      node_state s' = node_state s /\
      In (ADD_ENTRY_RESPONSE source_node (n_id nstate) INVALID_EPOCH
                             (entry_id entry) ep) (messages s')) /\
  ((exists s', FollowerConfirmsEntry msg s = Some s') <->
   n_epoch nstate <= ep /\
   (n_status nstate = FOLLOWER \/ n_status nstate = FENCED)) /\
  (forall s',
      FollowerConfirmsEntry msg s = Some s' ->
      let nstate' := node_state s' dest_node in
      n_status nstate' = FOLLOWER /\
      n_leader nstate' = Some source_node /\
      n_epoch nstate' = ep /\
      log nstate' = add_entry entry (log nstate) /\
      (forall e, In e (log nstate') <-> e = entry \/ In e (log nstate)) /\
      (In entry (log nstate) -> log nstate' = log nstate) /\
      head_index nstate' = entry_id entry /\
      commit_index nstate' = commit /\
      In (ADD_ENTRY_RESPONSE source_node (n_id nstate) OK (entry_id entry)
                             (n_epoch nstate)) (messages s') /\
      (forall n, n <> dest_node -> node_state s' n = node_state s n)).
Proof.
  intros msg nstate Hrecv.
  split; [|split; [|split]].
  - unfold FollowerRejectsEntry. unfold msg in *. rewrite Hrecv. fold nstate.
    destruct (Nat.ltb_spec ep (n_epoch nstate)).
    + split; eauto.
    + split; [intros [s' Hs']; discriminate | lia].
  - intros s' H. unfold FollowerRejectsEntry in H. unfold msg in *.
    rewrite Hrecv in H. fold nstate in H. guards H. injection H as <-.
    split; [reflexivity|]. cbn. apply in_remove_one_app. now left.
  - unfold FollowerConfirmsEntry. unfold msg in *. rewrite Hrecv. fold nstate.
    unfold status_eqb.
    destruct (NodeStatus_eq_dec (n_status nstate) FOLLOWER) as [Hf|Hf];
      destruct (NodeStatus_eq_dec (n_status nstate) FENCED) as [Hd|Hd];
      destruct (Nat.leb_spec (n_epoch nstate) ep); simpl;
      split; try (intros [s' Hs']; discriminate); eauto;
      try (intros [Hle _]; lia); try (intros [_ [Hx|Hx]]; contradiction).
  - intros s' H. unfold FollowerConfirmsEntry in H. unfold msg in *.
    rewrite Hrecv in H. fold nstate in H. guards H. injection H as <-.
    cbn. rewrite upd_same. cbn.
    repeat split; auto.
    + apply add_entry_spec.
    + apply add_entry_spec.
    + apply add_entry_present.
    + apply in_remove_one_app. now left.
    + intros n Hn. now apply upd_other.
Qed.

(** The theorem on a request of [stale_completion]: node 2, fenced in epoch
    3, receives the entry of value 7 from node 1. *)
Lemma follower_append_rule_witness :
  let s := state_after four_nodes (firstn 25 stale_completion) in
  let msg := ADD_ENTRY_REQUEST 2 1 entry_1_3 NoEntryId 3 in
  IsEarliestReceivableEntryMessage (messages s) msg = true /\
  ((exists s', FollowerConfirmsEntry msg s = Some s') <->
   n_epoch (node_state s 2) <= 3 /\
   (n_status (node_state s 2) = FOLLOWER \/ n_status (node_state s 2) = FENCED)) /\
  n_status (node_state s 2) = FENCED /\
  n_epoch (node_state s 2) = 3.
Proof.
  intros s msg.
  assert (H : IsEarliestReceivableEntryMessage (messages s) msg = true)
    by (vm_compute; reflexivity).
  split; [exact H|].
  destruct (follower_append_rule s 2 1 entry_1_3 NoEntryId 3 H)
    as [_ [_ [Hiff _]]].
  split; [exact Hiff|]. split; vm_compute; reflexivity.
Defined.

(** C8 as stated fails in two places.  First, the commit index of the
    follower is overwritten, not raised: in the reachable state after
    [expand_commit_then_write], node 1, a follower in epoch 1 with commit
    index (offset 1, epoch 1), confirms the request of epoch 2 that carries
    the commit index (0, 0), and its commit index becomes (0, 0), which is
    not the greater of the two.  Second, a node whose epoch is not greater
    than that of the request does not always become a follower: in the
    reachable state after [leader_sends_to_leader], node 1 is a leader in
    epoch 3 and the request of node 0 has epoch 3; the node neither rejects
    nor confirms it. *)
Lemma follower_commit_index_not_max :
  (let s := state_after three_of_four expand_commit_then_write in
   let msg := ADD_ENTRY_REQUEST 1 0 entry_9 NoEntryId 2 in
   reachable three_of_four s /\
   IsEarliestReceivableEntryMessage (messages s) msg = true /\
   n_epoch (node_state s 1) <= 2 /\
   commit_index (node_state s 1) = entry_id entry_7 /\
   exists s',
     FollowerConfirmsEntry msg s = Some s' /\
     commit_index (node_state s' 1) = NoEntryId /\
     commit_index (node_state s' 1)
     <> max_id (commit_index (node_state s 1)) NoEntryId) /\
  (let s := state_after four_nodes leader_sends_to_leader in
   let msg := ADD_ENTRY_REQUEST 1 0 entry_8_by_node_0 NoEntryId 3 in
   reachable four_nodes s /\
   IsEarliestReceivableEntryMessage (messages s) msg = true /\
   n_status (node_state s 1) = LEADER /\
   n_epoch (node_state s 1) = 3 /\
   FollowerRejectsEntry msg s = None /\
   FollowerConfirmsEntry msg s = None).
Proof.
  split.
  - intros s msg.
    split; [apply state_after_reachable|].
    split; [vm_compute; reflexivity|].
    split; [vm_compute; lia|].
    split; [vm_compute; reflexivity|].
    destruct (FollowerConfirmsEntry msg s) as [s'|] eqn:E;
      [|vm_compute in E; discriminate].
    exists s'. split; [reflexivity|].
    vm_compute in E. injection E as <-.
    split; [reflexivity | vm_compute; discriminate].
  - intros s msg.
    split; [apply state_after_reachable|].
    repeat split; vm_compute; reflexivity.
Qed.

(** ** The winner of an election *)

Lemma mem_In n s : mem n s = true <-> In n s.
Proof.
  unfold mem. rewrite existsb_exists. split.
  - intros [x [Hin Hx]]. apply Nat.eqb_eq in Hx. now subst x.
  - intros H. exists n. split; [exact H | apply Nat.eqb_refl].
Qed.

Lemma is_winner_spec responses final_ensemble r1 :
  is_winner responses final_ensemble r1 = true <->
  In (fr_node r1) final_ensemble /\
  forall r2, In r2 responses -> In (fr_node r2) final_ensemble ->
             IsHigherId (fr_head_index r2) (fr_head_index r1) = false.
Proof.
  unfold is_winner. rewrite andb_true_iff, negb_true_iff, mem_In.
  split; intros [H1 H2]; split; auto.
  - intros r2 Hin Hfe.
    destruct (IsHigherId (fr_head_index r2) (fr_head_index r1)) eqn:E; auto.
    assert (existsb (fun r2 => IsHigherId (fr_head_index r2) (fr_head_index r1)
                               && mem (fr_node r2) final_ensemble) responses
            = true); [|congruence].
    apply existsb_exists. exists r2. split; auto.
    rewrite E. simpl. now apply mem_In.
  - destruct (existsb _ responses) eqn:E; auto.
    apply existsb_exists in E as [r2 [Hin Hr2]].
    apply andb_true_iff in Hr2 as [Hh Hm]. apply mem_In in Hm.
    rewrite (H2 r2 Hin Hm) in Hh. discriminate.
Qed.

(** C7 (amended).  For every admissible choice operator: the winner of an
    election is one of the responses, its node belongs to the final
    ensemble, and its head index is greatest, in the lexicographic order on
    (epoch, offset), among the responses of nodes of the final ensemble;
    there is a winner as soon as one response comes from a node of the final
    ensemble; the winner depends only on the set of responses and on the
    final ensemble, so that the choice among tied responses is
    deterministic; and the operator that reaches the quorum of fence
    responses records the node of the winner as the election leader and
    sends it the Become Leader request. *)
Theorem winner_response_rule
        (chr : (FenceResponse -> bool) -> list FenceResponse
               -> option FenceResponse) :
  admissible chr ->
  (forall responses final_ensemble w,
      WinnerResponse chr responses final_ensemble = Some w ->
      In w responses /\
      In (fr_node w) final_ensemble /\
      forall r, In r responses -> In (fr_node r) final_ensemble ->
                epoch (fr_head_index r) < epoch (fr_head_index w) \/
                (epoch (fr_head_index r) = epoch (fr_head_index w) /\
                 offset (fr_head_index r) <= offset (fr_head_index w))) /\
  (forall responses final_ensemble r,
      In r responses -> In (fr_node r) final_ensemble ->
      exists w, WinnerResponse chr responses final_ensemble = Some w) /\
  (forall responses responses' final_ensemble final_ensemble',
      (forall r, In r responses <-> In r responses') ->
      (forall n, In n final_ensemble <-> In n final_ensemble') ->
      WinnerResponse chr responses final_ensemble
      = WinnerResponse chr responses' final_ensemble') /\
  (forall ops nodes o msg s s',
      OperatorHandlesQuorumFencingResponse ops nodes chr o msg s = Some s' ->
      exists r final_ensemble w omd,
        msg = FENCE_RESPONSE r /\
        md (operator_state s o) = Some omd /\
        FinalElectionEnsemble
          (operator_state s o)
          (add_response r (election_fence_responses (operator_state s o)))
        = Some final_ensemble /\
        WinnerResponse
          chr (add_response r (election_fence_responses (operator_state s o)))
          final_ensemble = Some w /\
        election_leader (operator_state s' o) = Some (fr_node w) /\
        election_final_ensemble (operator_state s' o) = final_ensemble /\
        exists follower_map,
          In (BECOME_LEADER_REQUEST (fr_node w) o (md_epoch omd)
                                    (md_rep_factor omd) follower_map)
             (messages s')).
Proof.
  intros [Hsound [Hcomplete Hext]].
  split; [|split; [|split]].
  - intros responses fe w H. unfold WinnerResponse in H.
    apply Hsound in H as [Hin Hw]. apply is_winner_spec in Hw as [Hfe Hmax].
    split; [exact Hin|]. split; [exact Hfe|].
    intros r Hr Hrfe. specialize (Hmax r Hr Hrfe).
    rewrite IsHigherId_not_lower in Hmax. apply negb_false_iff in Hmax.
    now apply IsLowerOrEqualId_lex.
  - intros responses fe r Hin Hfe. unfold WinnerResponse.
    assert (E : existsb (fun r => mem (fr_node r) fe) responses = true).
    { apply existsb_exists. exists r. split; auto. now apply mem_In. }
    apply (highest_exists fr_head_index) in E as [m [Hm [HP Hmax]]].
    destruct (chr (is_winner responses fe) responses) as [w|] eqn:Ew; [eauto|].
    exfalso. apply (Hcomplete (is_winner responses fe) responses m Hm);
      [|exact Ew].
    unfold is_winner. now rewrite HP, Hmax.
  - intros responses responses' fe fe' Hrs Hfe. unfold WinnerResponse.
    apply Hext. intros x.
    assert (Hw : is_winner responses fe x = is_winner responses' fe' x).
    { apply eq_true_iff_eq. rewrite !is_winner_spec, Hfe.
      split; intros [H1 H2]; split; auto; intros r2 Hin Hn; apply H2;
        first [ now apply Hrs | now apply Hfe ]. }
    rewrite Hw, Hrs. tauto.
  - intros ops nodes o msg s s' H.
    unfold OperatorHandlesQuorumFencingResponse in H. guards H.
    destruct msg; try discriminate H. guards H. injection H as <-.
    eexists. eexists. eexists. eexists.
    split; [reflexivity|]. split; [reflexivity|].
    split; [eassumption|]. split; [eassumption|].
    cbn. rewrite upd_same. cbn.
    split; [reflexivity|]. split; [reflexivity|].
    eexists. apply in_remove_one_app. now left.
Qed.

(** The theorem on the choice operator that prefers the lowest node id, and
    two tied responses of nodes 0 and 1. *)
Lemma winner_response_rule_witness :
  admissible choose_response_low /\
  WinnerResponse choose_response_low [response_of 0; response_of 1] [0; 1; 2]
  = Some (response_of 0) /\
  In (fr_node (response_of 0)) [0; 1; 2] /\
  forall r, In r [response_of 0; response_of 1] -> In (fr_node r) [0; 1; 2] ->
            epoch (fr_head_index r) < epoch (fr_head_index (response_of 0)) \/
            (epoch (fr_head_index r) = epoch (fr_head_index (response_of 0)) /\
             offset (fr_head_index r) <= offset (fr_head_index (response_of 0))).
Proof.
  assert (Hadm : admissible choose_response_low)
    by exact choose_response_low_admissible.
  assert (Hw : WinnerResponse choose_response_low
                 [response_of 0; response_of 1] [0; 1; 2]
               = Some (response_of 0)) by reflexivity.
  split; [exact Hadm|]. split; [exact Hw|].
  destruct (winner_response_rule choose_response_low Hadm) as [H _].
  destruct (H _ _ _ Hw) as [_ [Hfe Hmax]].
  split; [exact Hfe | exact Hmax].
Defined.

(** C7 as stated fails in its last part: the tie is not broken by an order
    on the node ids.  The choice operator [choose_response_cyclic] is
    admissible; among equal head indexes it elects node 0 against node 1,
    node 1 against node 2 and node 2 against node 0, which no order on the
    node ids explains. *)
Lemma tie_not_broken_by_node_order :
  admissible choose_response_cyclic /\
  WinnerResponse choose_response_cyclic [response_of 0; response_of 1] [0; 1; 2]
  = Some (response_of 0) /\
  WinnerResponse choose_response_cyclic [response_of 1; response_of 2] [0; 1; 2]
  = Some (response_of 1) /\
  WinnerResponse choose_response_cyclic [response_of 0; response_of 2] [0; 1; 2]
  = Some (response_of 2) /\
  ~ tie_break_by_node_order choose_response_cyclic.
Proof.
  split; [exact choose_response_cyclic_admissible|].
  split; [reflexivity|]. split; [reflexivity|]. split; [reflexivity|].
  intros [before [Hirr [Htrans H]]].
  assert (H01 : before 0 1).
  { apply (H [response_of 0; response_of 1] [0; 1; 2]
             (response_of 0) (response_of 1));
      [reflexivity | simpl; auto | reflexivity | discriminate]. }
  assert (H12 : before 1 2).
  { apply (H [response_of 1; response_of 2] [0; 1; 2]
             (response_of 1) (response_of 2));
      [reflexivity | simpl; auto | reflexivity | discriminate]. }
  assert (H20 : before 2 0).
  { apply (H [response_of 0; response_of 2] [0; 1; 2]
             (response_of 2) (response_of 0));
      [reflexivity | simpl; auto | reflexivity | discriminate]. }
  apply (Hirr 0). eapply Htrans; [exact H01|]. eapply Htrans; eauto.
Qed.

(** * Properties of the step relation *)

(** ** Case analysis of a step *)

(** Destructs the guards and the partial results of an action that
    returned a state, down to the state it returned. *)
Ltac crack :=
  repeat match goal with
         | H : match ?x with _ => _ end = Some _ |- _ =>
             let E := fresh "G" in destruct x eqn:E; try discriminate H
         | H : Some _ = Some _ |- _ => injection H as <-
         end.

Ltac unfold_actions H :=
  unfold step, OperatorStarts, OperatorStops, OperatorStartsElection,
    NodeHandlesFencingRequest, OperatorHandlesPreQuorumFencingResponse,
    OperatorHandlesQuorumFencingResponse, NodeHandlesBecomeLeaderRequest,
    OperatorHandlesBecomeLeaderResponse, NodeHandlesTruncateRequest,
    LeaderHandlesTruncateResponse, OperatorHandlesPostQuorumFencingResponse,
    LeaderHandlesAddFollowerRequest, Write, LeaderSendsEntriesToFollowers,
    FollowerConfirmsEntry, FollowerRejectsEntry, LeaderHandlesEntryConfirm,
    LeaderHandlesEntryRejection, OperatorStartsNodeSwapReconfiguration,
    OperatorStartsExpandReconfiguration, OperatorStartsContractReconfiguration,
    LeaderHandlesPrepareReconfigRequest, OperatorHandlesPrepareReconfigResponse,
    NodeHandlesSnapshotRequest, OperatorHandlesSnapshotResponse,
    LeaderHandlesCommitNodeSwapReconfigRequest,
    LeaderHandlesCommitExpandReconfigRequest,
    LeaderHandlesCommitContractReconfigRequest,
    OperatorCompletesReconfiguration in H.

Ltac step_cases a H := destruct a; unfold_actions H; crack.

Lemma status_eqb_eq a b : status_eqb a b = true <-> a = b.
Proof.
  unfold status_eqb. destruct (NodeStatus_eq_dec a b); split; auto; discriminate.
Qed.

Lemma ostatus_eqb_eq a b : ostatus_eqb a b = true <-> a = b.
Proof.
  unfold ostatus_eqb.
  destruct (OperatorStatus_eq_dec a b); split; auto; discriminate.
Qed.

(** Turns the boolean guards of the context into propositions. *)
Ltac props :=
  repeat match goal with
         | H : (_ && _) = true |- _ => apply andb_true_iff in H; destruct H
         | H : (_ || _) = true |- _ => apply orb_true_iff in H; destruct H
         | H : (if ?d then true else false) = true |- _ =>
             destruct d; [|discriminate H]
         | H : negb _ = true |- _ => apply negb_true_iff in H
         | H : (_ =? _) = true |- _ => apply Nat.eqb_eq in H
         | H : (_ =? _) = false |- _ => apply Nat.eqb_neq in H
         | H : (_ <? _) = true |- _ => apply Nat.ltb_lt in H
         | H : (_ <=? _) = true |- _ => apply Nat.leb_le in H
         | H : status_eqb _ _ = true |- _ => apply status_eqb_eq in H
         | H : ostatus_eqb _ _ = true |- _ => apply ostatus_eqb_eq in H
         end.

Lemma upd_apply {A : Type} (f : nat -> A) k v n :
  upd f k v n = if n =? k then v else f n.
Proof. reflexivity. Qed.

Lemma set_confirmed_true_keeps v c x :
  In (x, true) c -> In (x, true) (set_confirmed_true v c).
Proof.
  destruct v as [v|]; simpl; auto. intros H.
  apply in_map_iff. exists (x, true). split; auto. simpl.
  now destruct (x =? v).
Qed.

Lemma set_confirmed_true_fst v c :
  map fst (set_confirmed_true v c) = map fst c.
Proof.
  destruct v as [v|]; simpl; auto. rewrite map_map.
  apply map_ext. intros [a b]. simpl. now destruct (a =? v).
Qed.

Lemma set_confirmed_true_new ov c v :
  In (v, true) (set_confirmed_true ov c) -> ~ In (v, true) c -> ov = Some v.
Proof.
  destruct ov as [v0|]; simpl; [|contradiction].
  intros H Hn. apply in_map_iff in H as [[x b] [Hp Hin]]. simpl in Hp.
  destruct (Nat.eqb_spec x v0).
  - injection Hp as <-. congruence.
  - injection Hp as -> ->. contradiction.
Qed.

Lemma UpdateConfirmed_keeps c nstate i x :
  In (x, true) c -> In (x, true) (UpdateConfirmed c nstate i).
Proof.
  intros H. unfold UpdateConfirmed. apply in_map_iff. exists (x, true). auto.
Qed.

Lemma UpdateConfirmed_fst c nstate i :
  map fst (UpdateConfirmed c nstate i) = map fst c.
Proof.
  unfold UpdateConfirmed. rewrite map_map. apply map_ext. intros [a b]. simpl.
  destruct b; auto. now destruct (existsb _ _).
Qed.

Lemma UpdateConfirmed_new c nstate i v :
  In (v, true) (UpdateConfirmed c nstate i) -> ~ In (v, true) c ->
  exists e, In e (log nstate) /\ value e = Some v /\
            IsLowerOrEqualId (entry_id e) i = true.
Proof.
  unfold UpdateConfirmed. intros H Hn.
  apply in_map_iff in H as [[x b] [Hp Hin]]. simpl in Hp.
  destruct b; [injection Hp as ->; contradiction|].
  destruct (existsb _ (log nstate)) eqn:E; [|discriminate].
  injection Hp as ->.
  apply existsb_exists in E as [e [He Hv]].
  apply andb_true_iff in Hv as [Hle Hv].
  exists e. split; [exact He|]. split; [|exact Hle].
  destruct (value e) as [w|]; [|discriminate].
  apply Nat.eqb_eq in Hv. now subst.
Qed.

Lemma in_domain_In v c : in_domain v c = true <-> In v (map fst c).
Proof.
  unfold in_domain. rewrite existsb_exists, in_map_iff. split.
  - intros [p [Hin Hp]]. apply Nat.eqb_eq in Hp. eauto.
  - intros [p [Hp Hin]]. exists p. split; auto. now apply Nat.eqb_eq.
Qed.

Lemma IsHigherOrEqualId_flip a b :
  IsHigherOrEqualId a b = IsLowerOrEqualId b a.
Proof.
  unfold IsHigherOrEqualId, IsLowerOrEqualId.
  destruct (CompareLogEntries_cases a b) as [[E H]|[[E H]|[E H]]];
    destruct (CompareLogEntries_cases b a) as [[E' H']|[[E' H']|[E' H']]];
    rewrite E, E'; try reflexivity; try lia; subst; lia.
Qed.

Section Steps.

Variables (ops : list Operator) (nodes : list Node) (vals : list Value).
Variables (maxe maxs : nat).
Variable chr :
  (FenceResponse -> bool) -> list FenceResponse -> option FenceResponse.
Variable che : (LogEntry -> bool) -> list LogEntry -> option LogEntry.

Lemma step_ids_ok a s s' :
  step ops nodes vals maxe maxs chr che a s = Some s' -> ids_ok s -> ids_ok s'.
Proof.
  intros H [Hn Ho].
  step_cases a H; (split; intros ?); cbn;
    rewrite ?upd_apply;
    repeat match goal with
           | |- context [if ?b then _ else _] => destruct b eqn:?
           end; cbn; rewrite ?Hn, ?Ho; auto;
    try (match goal with
         | E : (_ =? _) = true |- _ => apply Nat.eqb_eq in E
         end; congruence).
Qed.

Lemma step_epoch a s s' :
  step ops nodes vals maxe maxs chr che a s = Some s' -> ids_ok s ->
  forall n, n_epoch (node_state s n) <= n_epoch (node_state s' n).
Proof.
  intros H [Hn Ho] x.
  step_cases a H; cbn; rewrite ?upd_apply, ?Hn; auto;
    destruct (x =? _) eqn:Ex; auto; props; subst; cbn; lia.
Qed.

Lemma step_version a s s' :
  step ops nodes vals maxe maxs chr che a s = Some s' ->
  (metadata_version s' = metadata_version s /\ metadata s' = metadata s) \/
  metadata_version s' = metadata_version s + 1.
Proof.
  intros H. step_cases a H; cbn; auto.
Qed.

Lemma step_writer_current a s s' :
  step ops nodes vals maxe maxs chr che a s = Some s' ->
  metadata_version s' <> metadata_version s ->
  (exists o, action_operator a = Some o /\
             o_status (operator_state s o) = RUNNING /\
             md_version (operator_state s o) = metadata_version s) \/
  (exists o m, a = AOperatorCompletesReconfiguration o m).
Proof.
  intros H. step_cases a H; cbn; try congruence; intros _;
    try (right; eauto; fail); left; eexists; (split; [reflexivity|]);
    unfold ReconfigurationAllowed in *; props; auto.
Qed.

Lemma step_md_current a s s' :
  step ops nodes vals maxe maxs chr che a s = Some s' ->
  md_current s -> md_current s'.
Proof.
  intros H Hc x. pose proof (Hc x) as [Hle Hx].
  step_cases a H; cbn; rewrite ?upd_apply; auto;
    try (destruct (x =? _) eqn:Ex; cbn; props; subst;
         try (split; [lia | intros; first [reflexivity | discriminate | lia | auto]])).
  match goal with
  | K1 : o_status _ = RUNNING, K2 : md_version _ = metadata_version _ |- _ =>
      specialize (Hx K1 K2); congruence
  end.
Qed.

Lemma step_md_epoch a s s' :
  step ops nodes vals maxe maxs chr che a s = Some s' ->
  md_current s ->
  (forall o m, a <> AOperatorCompletesReconfiguration o m) ->
  md_epoch (metadata s) <= md_epoch (metadata s').
Proof.
  intros H Hc Ha.
  step_cases a H; cbn; auto; props;
    try match goal with
        | G : md (operator_state s ?o) = Some ?m |- _ =>
            let K := fresh in
            destruct (Hc o) as [_ K];
            rewrite K in G by (auto; congruence); injection G as <-
        end; cbn; try lia.
  exfalso. eapply Ha. reflexivity.
Qed.

Lemma step_confirmed a s s' :
  step ops nodes vals maxe maxs chr che a s = Some s' ->
  forall v, In (v, true) (confirmed s) -> In (v, true) (confirmed s').
Proof.
  intros H v Hv.
  step_cases a H; cbn; auto using set_confirmed_true_keeps, UpdateConfirmed_keeps.
  apply in_or_app. now left.
Qed.

Lemma step_written a s s' :
  step ops nodes vals maxe maxs chr che a s = Some s' ->
  map fst (confirmed s') = map fst (confirmed s) \/
  exists n v, a = AWrite n v /\ In v vals /\
              ~ In v (map fst (confirmed s)) /\
              map fst (confirmed s') = map fst (confirmed s) ++ [v].
Proof.
  intros H.
  step_cases a H; cbn; rewrite ?set_confirmed_true_fst, ?UpdateConfirmed_fst; auto.
  right. exists n, v. split; [reflexivity|]. props. split; [|split].
  - now apply mem_In.
  - rewrite <- in_domain_In. congruence.
  - now rewrite map_app.
Qed.

Lemma step_stops a s s' :
  step ops nodes vals maxe maxs chr che a s = Some s' ->
  operator_stop_ctr s <= maxs -> operator_stop_ctr s' <= maxs.
Proof.
  intros H Hle. step_cases a H; cbn; auto. props. lia.
Qed.

Lemma step_leader_acquire a s s' n :
  step ops nodes vals maxe maxs chr che a s = Some s' -> ids_ok s ->
  n_status (node_state s' n) = LEADER ->
  n_status (node_state s n) = LEADER \/
  exists o rf fm,
    a = ANodeHandlesBecomeLeaderRequest
          (BECOME_LEADER_REQUEST n o (n_epoch (node_state s n)) rf fm).
Proof.
  intros H [Hn Ho].
  step_cases a H; cbn; rewrite ?upd_apply, ?Hn; auto;
    destruct (n =? _) eqn:Ex; auto; props; subst; cbn;
    try discriminate; auto.
  intros _. right. eauto.
Qed.

Lemma step_leader_lose a s s' n :
  step ops nodes vals maxe maxs chr che a s = Some s' -> ids_ok s ->
  n_status (node_state s n) = LEADER ->
  n_status (node_state s' n) <> LEADER ->
  (exists o ep, a = ANodeHandlesFencingRequest (FENCE_REQUEST n o ep)) \/
  (exists o ep snap h c,
      a = ANodeHandlesSnapshotRequest (SNAPSHOT_REQUEST n o ep snap h c)) \/
  (exists src i,
      a = ALeaderHandlesEntryRejection
            (ADD_ENTRY_RESPONSE n src INVALID_EPOCH i
                                (n_epoch (node_state s n)))).
Proof.
  intros H [Hn Ho] Hl.
  step_cases a H; cbn; rewrite ?upd_apply, ?Hn; try contradiction;
    destruct (n =? _) eqn:Ex; try contradiction; props; subst; cbn;
    try contradiction; try congruence; intros _;
    first [ left; solve [eauto]
          | right; left; solve [eauto 10]
          | right; right; solve [eauto] ].
Qed.

Lemma step_log a s s' :
  step ops nodes vals maxe maxs chr che a s = Some s' -> ids_ok s ->
  (forall m, a <> ANodeHandlesTruncateRequest m) ->
  (forall m, a <> ANodeHandlesSnapshotRequest m) ->
  forall n e, In e (log (node_state s n)) -> In e (log (node_state s' n)).
Proof.
  intros H [Hn Ho] Ht Hs n e He.
  step_cases a H; cbn; rewrite ?upd_apply, ?Hn; auto;
    try (exfalso; first [eapply Ht; reflexivity | eapply Hs; reflexivity]);
    destruct (n =? _) eqn:Ex; auto; props; subst; cbn; auto;
    apply add_entry_spec; auto.
Qed.

Lemma step_leader_commit a s s' n :
  step ops nodes vals maxe maxs chr che a s = Some s' -> ids_ok s ->
  n_status (node_state s n) = LEADER ->
  n_status (node_state s' n) = LEADER ->
  (forall m, a <> ALeaderHandlesCommitNodeSwapReconfigRequest m) ->
  (forall m, a <> ALeaderHandlesCommitExpandReconfigRequest m) ->
  IsLowerOrEqualId (commit_index (node_state s n))
                   (commit_index (node_state s' n)) = true.
Proof.
  intros H [Hn Ho] Hl Hl' Hs He. revert Hl'.
  step_cases a H; cbn; rewrite ?upd_apply, ?Hn;
    auto using IsLowerOrEqualId_refl;
    try (exfalso; first [eapply Hs; reflexivity | eapply He; reflexivity]);
    destruct (n =? _) eqn:Ex; auto using IsLowerOrEqualId_refl;
    props; subst; cbn; auto using IsLowerOrEqualId_refl;
    try congruence; try discriminate.
  intros _.
  destruct (IsHigherId eid _) eqn:E; auto using IsLowerOrEqualId_refl.
  apply IsHigherId_lex in E. apply IsLowerOrEqualId_lex. lia.
Qed.

Lemma step_newly_confirmed a s s' v :
  admissible che ->
  step ops nodes vals maxe maxs chr che a s = Some s' -> ids_ok s ->
  In (v, true) (confirmed s') -> ~ In (v, true) (confirmed s) ->
  exists n e,
    n_status (node_state s n) = LEADER /\
    n_status (node_state s' n) = LEADER /\
    In e (log (node_state s n)) /\ value e = Some v /\
    IsLowerOrEqualId (entry_id e) (commit_index (node_state s' n)) = true.
Proof.
  intros [Hsound _] H [Hn Ho].
  step_cases a H; cbn; try contradiction; intros Hv Hnew.
  - apply in_app_or in Hv as [Hv|[Hv|[]]]; [contradiction | discriminate].
  - pose proof (set_confirmed_true_new _ _ _ Hv Hnew) as Hval.
    unfold GetEntry in *.
    match goal with
    | G : che _ _ = Some ?e |- _ =>
        apply Hsound in G as [Hin Hid]; exists dest_node, e
    end.
    apply IsSameId_eq in Hid. props.
    rewrite upd_apply, Nat.eqb_refl. cbn.
    repeat (split; auto). rewrite Hid.
    destruct (IsHigherId eid _) eqn:E; [apply IsLowerOrEqualId_refl|].
    rewrite IsHigherId_not_lower in E. now apply negb_false_iff in E.
  - destruct (UpdateConfirmed_new _ _ _ _ Hv Hnew) as [x [Hx [Hval Hle]]].
    props. exists node, x. rewrite upd_apply, Hn, Nat.eqb_refl. cbn. auto.
  - destruct (UpdateConfirmed_new _ _ _ _ Hv Hnew) as [x [Hx [Hval Hle]]].
    props. exists node, x. rewrite upd_apply, Hn, Nat.eqb_refl. cbn. auto.
Qed.

Lemma step_stopped_operator a s o :
  action_operator a = Some o ->
  o_status (operator_state s o) = NOT_RUNNING ->
  a <> AOperatorStarts o ->
  step ops nodes vals maxe maxs chr che a s = None.
Proof.
  intros Ha Hs Hne.
  destruct (step ops nodes vals maxe maxs chr che a s) as [s'|] eqn:H; auto.
  exfalso. destruct a; simpl in Ha; try discriminate; injection Ha as ->;
    try (now contradiction Hne);
    unfold_actions H; unfold ReconfigurationAllowed in *; crack; props;
    congruence.
Qed.

End Steps.

(** ** Invariants of the reachable states *)

Lemma reachable_ids_ok (M : Model) s : reachable M s -> ids_ok s.
Proof.
  unfold reachable. induction 1 as [|s s' Hs IH [a Ha]].
  - split; reflexivity.
  - eapply step_ids_ok; eauto.
Qed.

Lemma reachable_md_current (M : Model) s : reachable M s -> md_current s.
Proof.
  unfold reachable. induction 1 as [|s s' Hs IH [a Ha]].
  - intros o. simpl. split; [lia | discriminate].
  - eapply step_md_current; eauto.
Qed.

(** ** Subsets, the highest entry and the commit index *)

Lemma subset_incl a e : subset a e = true -> incl a e.
Proof.
  unfold subset. rewrite forallb_forall. intros H n Hn. apply mem_In. auto.
Qed.

(** With an admissible choice operator [HeadEntry] is defined on every
    log, and picks an entry with the highest id. *)
Lemma HeadEntry_spec
      (che : (LogEntry -> bool) -> list LogEntry -> option LogEntry)
      (l : list LogEntry) :
  admissible che ->
  exists e,
    HeadEntry che l = Some e /\
    (l = [] -> e = NoLogEntry) /\
    (l <> [] ->
     In e l /\
     forall e', In e' l -> IsLowerOrEqualId (entry_id e') (entry_id e) = true).
Proof.
  intros [Hsound [Hcomplete _]]. unfold HeadEntry.
  destruct l as [|x l]; [exists NoLogEntry; repeat split; congruence|].
  set (l0 := x :: l).
  set (P := fun entry : LogEntry =>
              forallb (fun e => IsHigherOrEqualId (entry_id entry) (entry_id e))
                      l0).
  destruct (che P l0) as [e|] eqn:E.
  - exists e. split; [reflexivity|]. split; [discriminate|]. intros _.
    apply Hsound in E as [Hin HP]. split; [exact Hin|].
    intros e' He'. unfold P in HP. rewrite forallb_forall in HP.
    specialize (HP e' He'). now rewrite <- IsHigherOrEqualId_flip.
  - exfalso.
    destruct (highest_exists entry_id (fun _ => true) l0 eq_refl)
      as [m [Hm [_ Hmax]]].
    apply (Hcomplete P l0 m Hm); [|exact E].
    unfold P. apply forallb_forall. intros e' He'.
    destruct (IsHigherId (entry_id e') (entry_id m)) eqn:Eh.
    + assert (existsb (fun e1 => IsHigherId (entry_id e1) (entry_id m) && true)
                      l0 = true).
      { apply existsb_exists. exists e'. split; auto. now rewrite Eh. }
      congruence.
    + rewrite IsHigherId_not_lower in Eh. apply negb_false_iff in Eh.
      now rewrite IsHigherOrEqualId_flip.
Qed.

Lemma NewCommitIndex_no_current_entry nodes che nstate fc rf :
  (forall e, In e (log nstate) -> epoch (entry_id e) <> n_epoch nstate) ->
  NewCommitIndex nodes che nstate fc rf = Some NoEntryId.
Proof.
  intros H. unfold NewCommitIndex.
  destruct (existsb _ (log nstate)) eqn:E; [|reflexivity].
  apply existsb_exists in E as [e [He Hc]].
  unfold EntryIsCommitted in Hc. apply andb_true_iff in Hc as [_ Hc].
  apply Nat.eqb_eq in Hc. now contradiction (H e He).
Qed.

(** ** Epochs and the metadata store *)

(** X7.  The epoch of a node never decreases: in every step from a
    reachable state, each node keeps its epoch or takes a greater one. *)
Theorem node_epochs_never_decrease (M : Model) (a : Action) (s s' : State) :
  reachable M s -> step_in M a s = Some s' ->
  forall n, n_epoch (node_state s n) <= n_epoch (node_state s' n).
Proof.
  intros Hr H. unfold step_in in H.
  eapply step_epoch; eauto using reachable_ids_ok.
Qed.

(** The theorem on the first fence request of [stale_completion]: node 0
    moves from epoch 0 to epoch 1. *)
Lemma node_epochs_never_decrease_witness :
  let s := state_after four_nodes (firstn 2 stale_completion) in
  let s' := state_after four_nodes (firstn 3 stale_completion) in
  reachable four_nodes s /\
  step_in four_nodes (ANodeHandlesFencingRequest (FENCE_REQUEST 0 0 1)) s
  = Some s' /\
  n_epoch (node_state s' 0) = 1 /\
  n_epoch (node_state s 0) <= n_epoch (node_state s' 0).
Proof.
  intros s s'.
  assert (Hr : reachable four_nodes s) by apply state_after_reachable.
  assert (Hs : step_in four_nodes
                 (ANodeHandlesFencingRequest (FENCE_REQUEST 0 0 1)) s = Some s')
    by (vm_compute; reflexivity).
  split; [exact Hr|]. split; [exact Hs|]. split; [vm_compute; reflexivity|].
  exact (node_epochs_never_decrease four_nodes _ s s' Hr Hs 0).
Defined.

(** X8.  The metadata store is written under a version counter: a step
    either leaves the metadata and its version as they are, or adds one to
    the version; and the step that adds one is taken by a running operator
    whose version is the version of the store, unless it is
    [OperatorCompletesReconfiguration], the one writer that does not compare
    versions. *)
Theorem metadata_writes_are_versioned (M : Model) (a : Action) (s s' : State) :
  step_in M a s = Some s' ->
  (metadata_version s' = metadata_version s /\ metadata s' = metadata s) \/
  (metadata_version s' = metadata_version s + 1 /\
   ((exists o, action_operator a = Some o /\
               o_status (operator_state s o) = RUNNING /\
               md_version (operator_state s o) = metadata_version s) \/
    (exists o m, a = AOperatorCompletesReconfiguration o m))).
Proof.
  intros H. unfold step_in in H.
  destruct (step_version _ _ _ _ _ _ _ _ _ _ H) as [Hsame|Hbump]; [now left|].
  right. split; [exact Hbump|].
  apply (step_writer_current _ _ _ _ _ _ _ _ _ _ H). lia.
Qed.

(** The theorem on the first election of [stale_completion]: operator 0,
    whose version is current, moves the store from version 0 to version 1. *)
Lemma metadata_writes_are_versioned_witness :
  let s := state_after four_nodes (firstn 1 stale_completion) in
  let s' := state_after four_nodes (firstn 2 stale_completion) in
  step_in four_nodes (AOperatorStartsElection 0 [0; 1; 2]) s = Some s' /\
  metadata_version s' = 1 /\
  ((metadata_version s' = metadata_version s /\ metadata s' = metadata s) \/
   (metadata_version s' = metadata_version s + 1 /\
    ((exists o, action_operator (AOperatorStartsElection 0 [0; 1; 2]) = Some o /\
                o_status (operator_state s o) = RUNNING /\
                md_version (operator_state s o) = metadata_version s) \/
     (exists o m, AOperatorStartsElection 0 [0; 1; 2]
                  = AOperatorCompletesReconfiguration o m)))).
Proof.
  intros s s'.
  assert (Hs : step_in four_nodes (AOperatorStartsElection 0 [0; 1; 2]) s
               = Some s') by (vm_compute; reflexivity).
  split; [exact Hs|]. split; [vm_compute; reflexivity|].
  exact (metadata_writes_are_versioned four_nodes _ s s' Hs).
Defined.

(** X9.  In every reachable state no operator is ahead of the metadata
    store, and a running operator whose version equals the version of the
    store holds exactly the metadata of the store. *)
Theorem current_operator_holds_the_metadata (M : Model) (s : State) :
  reachable M s ->
  forall o,
    md_version (operator_state s o) <= metadata_version s /\
    (o_status (operator_state s o) = RUNNING ->
     md_version (operator_state s o) = metadata_version s ->
     md (operator_state s o) = Some (metadata s)).
Proof. intros Hr. exact (reachable_md_current M s Hr). Qed.

(** The theorem at the end of [stale_completion]: operator 0 is current and
    holds the metadata; operator 1 is behind. *)
Lemma current_operator_holds_the_metadata_witness :
  let s := state_after four_nodes stale_completion in
  reachable four_nodes s /\
  md_version (operator_state s 0) = metadata_version s /\
  md (operator_state s 0) = Some (metadata s) /\
  md_version (operator_state s 1) < metadata_version s.
Proof.
  intros s.
  assert (Hr : reachable four_nodes s) by apply state_after_reachable.
  assert (Hv : md_version (operator_state s 0) = metadata_version s)
    by (vm_compute; reflexivity).
  assert (Hrun : o_status (operator_state s 0) = RUNNING)
    by (vm_compute; reflexivity).
  split; [exact Hr|]. split; [exact Hv|]. split.
  - destruct (current_operator_holds_the_metadata four_nodes s Hr 0) as [_ H].
    exact (H Hrun Hv).
  - vm_compute. lia.
Defined.

(** X10.  From a reachable state, every step other than
    [OperatorCompletesReconfiguration] keeps or raises the epoch of the
    metadata. *)
Theorem metadata_epoch_decreases_only_by_completion
        (M : Model) (a : Action) (s s' : State) :
  reachable M s -> step_in M a s = Some s' ->
  (forall o m, a <> AOperatorCompletesReconfiguration o m) ->
  md_epoch (metadata s) <= md_epoch (metadata s').
Proof.
  intros Hr H Ha. unfold step_in in H.
  eapply step_md_epoch; eauto using reachable_md_current.
Qed.

(** The theorem on the second election of [stale_completion], by operator
    1: the metadata moves from epoch 2 to epoch 3. *)
Lemma metadata_epoch_decreases_only_by_completion_witness :
  let s := state_after four_nodes (firstn 15 stale_completion) in
  let s' := state_after four_nodes (firstn 16 stale_completion) in
  reachable four_nodes s /\
  step_in four_nodes (AOperatorStartsElection 1 [1; 2; 3]) s = Some s' /\
  md_epoch (metadata s) = 2 /\ md_epoch (metadata s') = 3 /\
  md_epoch (metadata s) <= md_epoch (metadata s').
Proof.
  intros s s'.
  assert (Hr : reachable four_nodes s) by apply state_after_reachable.
  assert (Hs : step_in four_nodes (AOperatorStartsElection 1 [1; 2; 3]) s
               = Some s') by (vm_compute; reflexivity).
  split; [exact Hr|]. split; [exact Hs|].
  split; [vm_compute; reflexivity|]. split; [vm_compute; reflexivity|].
  apply (metadata_epoch_decreases_only_by_completion four_nodes _ s s' Hr Hs).
  intros o m. discriminate.
Defined.

(** ** Writes and confirmations *)

(** X11.  Confirmations are never withdrawn and written values are never
    forgotten: a value that [confirmed] maps to [TRUE] before a step is
    mapped to [TRUE] after it, and the domain of [confirmed] only grows. *)
Theorem confirmations_are_never_withdrawn (M : Model) (a : Action) (s s' : State) :
  step_in M a s = Some s' ->
  (forall v, In (v, true) (confirmed s) -> In (v, true) (confirmed s')) /\
  (forall v, In v (map fst (confirmed s)) -> In v (map fst (confirmed s'))).
Proof.
  intros H. unfold step_in in H. split.
  - eapply step_confirmed; eauto.
  - intros v Hv.
    destruct (step_written _ _ _ _ _ _ _ _ _ _ H) as [E|[n [w [_ [_ [_ E]]]]]];
      rewrite E; auto.
    apply in_or_app. now left.
Qed.

(** The theorem on the last step of [stale_completion]: the stale
    completion rewrites the metadata, and value 7 stays confirmed. *)
Lemma confirmations_are_never_withdrawn_witness :
  let s := state_after four_nodes (firstn 29 stale_completion) in
  let s' := state_after four_nodes stale_completion in
  step_in four_nodes
    (AOperatorCompletesReconfiguration 0
       (COMMIT_RECONFIG_RESPONSE CONTRACT 0 0 2 (Some 3) None)) s = Some s' /\
  In (7, true) (confirmed s) /\
  In (7, true) (confirmed s').
Proof.
  intros s s'.
  assert (Hs : step_in four_nodes
                 (AOperatorCompletesReconfiguration 0
                    (COMMIT_RECONFIG_RESPONSE CONTRACT 0 0 2 (Some 3) None)) s
               = Some s') by (vm_compute; reflexivity).
  assert (H7 : In (7, true) (confirmed s)) by (vm_compute; auto).
  split; [exact Hs|]. split; [exact H7|].
  destruct (confirmations_are_never_withdrawn four_nodes _ s s' Hs) as [H _].
  exact (H 7 H7).
Defined.

(** X12.  A value is written at most once: in every reachable state the
    values in the domain of [confirmed] are pairwise distinct, and each is
    one of [Values]. *)
Theorem values_are_written_once (M : Model) (s : State) :
  reachable M s ->
  NoDup (map fst (confirmed s)) /\
  (forall v, In v (map fst (confirmed s)) -> In v (Values M)).
Proof.
  unfold reachable. induction 1 as [|s s' Hs [IH1 IH2] [a Ha]].
  - split; [constructor | intros v []].
  - destruct (step_written _ _ _ _ _ _ _ _ _ _ Ha)
      as [E|[n [w [_ [Hw [Hnew E]]]]]]; rewrite E; [auto|].
    split.
    + apply NoDup_app; auto.
      * repeat constructor. intros [].
      * intros x Hx [<-|[]]. contradiction.
    + intros v Hv. apply in_app_or in Hv as [Hv|[<-|[]]]; auto.
Qed.

(** The theorem after the two writes of [leader_sends_to_leader]. *)
Lemma values_are_written_once_witness :
  let s := state_after four_nodes leader_sends_to_leader in
  reachable four_nodes s /\
  map fst (confirmed s) = [7; 8] /\
  NoDup (map fst (confirmed s)).
Proof.
  intros s.
  assert (Hr : reachable four_nodes s) by apply state_after_reachable.
  split; [exact Hr|]. split; [vm_compute; reflexivity|].
  exact (proj1 (values_are_written_once four_nodes s Hr)).
Defined.

(** X13.  A value is reported committed only by a leader that holds it:
    when a step from a reachable state turns a value to confirmed, some node
    is in [LEADER] status before and after the step, its log holds an entry
    with that value, and after the step the id of that entry is at or below
    its commit index. *)
Theorem confirmed_value_is_in_a_leader_log
        (M : Model) (a : Action) (s s' : State) (v : Value) :
  admissible (choose_entry M) ->
  reachable M s -> step_in M a s = Some s' ->
  In (v, true) (confirmed s') -> ~ In (v, true) (confirmed s) ->
  exists n e,
    n_status (node_state s n) = LEADER /\
    n_status (node_state s' n) = LEADER /\
    In e (log (node_state s n)) /\ value e = Some v /\
    IsLowerOrEqualId (entry_id e) (commit_index (node_state s' n)) = true.
Proof.
  intros Hadm Hr H. unfold step_in in H.
  eapply step_newly_confirmed; eauto using reachable_ids_ok.
Qed.

(** The theorem on the second confirmation of [stale_completion], which
    commits value 7 on node 1. *)
Lemma confirmed_value_is_in_a_leader_log_witness :
  let s := state_after four_nodes (firstn 28 stale_completion) in
  let s' := state_after four_nodes (firstn 29 stale_completion) in
  admissible (choose_entry four_nodes) /\
  reachable four_nodes s /\
  step_in four_nodes
    (ALeaderHandlesEntryConfirm
       (ADD_ENTRY_RESPONSE 1 3 OK (entry_id entry_1_3) 3)) s = Some s' /\
  In (7, true) (confirmed s') /\ ~ In (7, true) (confirmed s) /\
  exists n e,
    n_status (node_state s n) = LEADER /\
    In e (log (node_state s n)) /\ value e = Some 7.
Proof.
  intros s s'.
  assert (Hadm : admissible (choose_entry four_nodes))
    by exact choose_entry_low_admissible.
  assert (Hr : reachable four_nodes s) by apply state_after_reachable.
  assert (Hs : step_in four_nodes
                 (ALeaderHandlesEntryConfirm
                    (ADD_ENTRY_RESPONSE 1 3 OK (entry_id entry_1_3) 3)) s
               = Some s') by (vm_compute; reflexivity).
  assert (H7 : In (7, true) (confirmed s')) by (vm_compute; auto).
  assert (Hn : ~ In (7, true) (confirmed s)).
  { vm_compute. intros [H|[]]. discriminate H. }
  split; [exact Hadm|]. split; [exact Hr|]. split; [exact Hs|].
  split; [exact H7|]. split; [exact Hn|].
  destruct (confirmed_value_is_in_a_leader_log four_nodes _ s s' 7
              Hadm Hr Hs H7 Hn) as [n [e [H1 [_ [H2 [H3 _]]]]]].
  exists n, e. split; [exact H1 | split; [exact H2 | exact H3]].
Defined.

(** ** Leadership *)

(** X14.  A node becomes leader only through a become-leader request: when
    a step from a reachable state puts a node into [LEADER] status that was
    not in it before, the step is [NodeHandlesBecomeLeaderRequest] of a
    request addressed to that node and carrying the epoch of the node. *)
Theorem leadership_only_by_become_leader_request
        (M : Model) (a : Action) (s s' : State) (n : Node) :
  reachable M s -> step_in M a s = Some s' ->
  n_status (node_state s n) <> LEADER ->
  n_status (node_state s' n) = LEADER ->
  exists o rf fm,
    a = ANodeHandlesBecomeLeaderRequest
          (BECOME_LEADER_REQUEST n o (n_epoch (node_state s n)) rf fm).
Proof.
  intros Hr H Hn Hl. unfold step_in in H.
  destruct (step_leader_acquire _ _ _ _ _ _ _ _ _ _ n H
              (reachable_ids_ok M s Hr) Hl) as [K|K];
    [contradiction | exact K].
Qed.

(** The theorem on the first election of [stale_completion]: the fenced
    node 0 becomes leader of epoch 1. *)
Lemma leadership_only_by_become_leader_request_witness :
  let s := state_after four_nodes (firstn 8 stale_completion) in
  let s' := state_after four_nodes (firstn 9 stale_completion) in
  let a := ANodeHandlesBecomeLeaderRequest
             (BECOME_LEADER_REQUEST 0 0 1 4 [(1, NoEntryId); (2, NoEntryId)]) in
  reachable four_nodes s /\ step_in four_nodes a s = Some s' /\
  n_status (node_state s 0) = FENCED /\
  n_status (node_state s' 0) = LEADER /\
  exists o rf fm,
    a = ANodeHandlesBecomeLeaderRequest
          (BECOME_LEADER_REQUEST 0 o (n_epoch (node_state s 0)) rf fm).
Proof.
  intros s s' a.
  assert (Hr : reachable four_nodes s) by apply state_after_reachable.
  assert (Hs : step_in four_nodes a s = Some s') by (vm_compute; reflexivity).
  assert (Hf : n_status (node_state s 0) = FENCED) by (vm_compute; reflexivity).
  assert (Hl : n_status (node_state s' 0) = LEADER) by (vm_compute; reflexivity).
  assert (Hne : n_status (node_state s 0) <> LEADER)
    by (rewrite Hf; discriminate).
  split; [exact Hr|]. split; [exact Hs|]. split; [exact Hf|]. split; [exact Hl|].
  exact (leadership_only_by_become_leader_request four_nodes a s s' 0
           Hr Hs Hne Hl).
Defined.

(** X15.  A leader stays leader unless it is fenced, takes a snapshot or is
    told that its epoch is over: when a step from a reachable state takes a
    node out of [LEADER] status, the step is [NodeHandlesFencingRequest] or
    [NodeHandlesSnapshotRequest] of a request addressed to that node, or
    [LeaderHandlesEntryRejection] of an [INVALID_EPOCH] response to it. *)
Theorem leadership_lost_only_by_fence_snapshot_or_rejection
        (M : Model) (a : Action) (s s' : State) (n : Node) :
  reachable M s -> step_in M a s = Some s' ->
  n_status (node_state s n) = LEADER ->
  n_status (node_state s' n) <> LEADER ->
  (exists o ep, a = ANodeHandlesFencingRequest (FENCE_REQUEST n o ep)) \/
  (exists o ep snap h c,
      a = ANodeHandlesSnapshotRequest (SNAPSHOT_REQUEST n o ep snap h c)) \/
  (exists src i,
      a = ALeaderHandlesEntryRejection
            (ADD_ENTRY_RESPONSE n src INVALID_EPOCH i
                                (n_epoch (node_state s n)))).
Proof.
  intros Hr H Hl Hn. unfold step_in in H.
  exact (step_leader_lose _ _ _ _ _ _ _ _ _ _ n H
           (reachable_ids_ok M s Hr) Hl Hn).
Qed.

(** The theorem on the fence request of [second_election] to the leader of
    epoch 1. *)
Lemma leadership_lost_only_by_fence_snapshot_or_rejection_witness :
  let s := state_after four_nodes second_election in
  let a := ANodeHandlesFencingRequest (FENCE_REQUEST 0 0 2) in
  let s' := state_after four_nodes (second_election ++ [a]) in
  reachable four_nodes s /\ step_in four_nodes a s = Some s' /\
  n_status (node_state s 0) = LEADER /\
  n_status (node_state s' 0) = FENCED /\
  ((exists o ep, a = ANodeHandlesFencingRequest (FENCE_REQUEST 0 o ep)) \/
   (exists o ep snap h c,
       a = ANodeHandlesSnapshotRequest (SNAPSHOT_REQUEST 0 o ep snap h c)) \/
   (exists src i,
       a = ALeaderHandlesEntryRejection
             (ADD_ENTRY_RESPONSE 0 src INVALID_EPOCH i
                                 (n_epoch (node_state s 0))))).
Proof.
  intros s a s'.
  assert (Hr : reachable four_nodes s) by apply state_after_reachable.
  assert (Hs : step_in four_nodes a s = Some s') by (vm_compute; reflexivity).
  assert (Hl : n_status (node_state s 0) = LEADER) by (vm_compute; reflexivity).
  assert (Hf : n_status (node_state s' 0) = FENCED) by (vm_compute; reflexivity).
  assert (Hne : n_status (node_state s' 0) <> LEADER)
    by (rewrite Hf; discriminate).
  split; [exact Hr|]. split; [exact Hs|]. split; [exact Hl|]. split; [exact Hf|].
  exact (leadership_lost_only_by_fence_snapshot_or_rejection four_nodes a s s' 0
           Hr Hs Hl Hne).
Defined.

(** X16.  What a fence request does to a node.  The request is taken only
    with an epoch above the epoch of the node.  The node is then [FENCED] in
    the epoch of the request, with no cursors and no reconfiguration in
    progress; its log, head index and commit index are as before, no other
    node changes, and the response carries the head index.  In the state
    after the request the node accepts no write, sends no entries, and
    takes no fence request of that epoch or a lower one. *)
Theorem fenced_node_is_inert
        (nodes : list Node) (vals : list Value)
        (che : (LogEntry -> bool) -> list LogEntry -> option LogEntry)
        (s s' : State) (node : Node) (o : Operator) (ep : Epoch) :
  NodeHandlesFencingRequest (FENCE_REQUEST node o ep) s = Some s' ->
  let before := node_state s node in
  let after := node_state s' node in
  n_epoch before < ep /\
  n_status after = FENCED /\ n_epoch after = ep /\ n_rep_factor after = 0 /\
  reconfig_inprog after = false /\
  (forall f, follow_cursor after f = NoCursor) /\
  log after = log before /\ head_index after = head_index before /\
  commit_index after = commit_index before /\
  (forall n, n <> node -> node_state s' n = node_state s n) /\
  In (FENCE_RESPONSE {| fr_node := n_id before; fr_operator := o;
                        fr_head_index := head_index before; fr_epoch := ep |})
     (messages s') /\
  (forall v, Write nodes vals node v s' = None) /\
  (forall followers,
      LeaderSendsEntriesToFollowers nodes che node followers s' = None) /\
  (forall o' ep', ep' <= ep ->
      NodeHandlesFencingRequest (FENCE_REQUEST node o' ep') s' = None).
Proof.
  intros H before after. unfold NodeHandlesFencingRequest in H.
  destruct (receivable (messages s) _); [|discriminate].
  destruct (Nat.ltb_spec (n_epoch (node_state s node)) ep) as [Hlt|];
    [|discriminate].
  injection H as H.
  assert (Hafter : after = set_reconfig_inprog
                     (set_follow_cursor
                        (set_n_rep_factor
                           (set_n_status (set_n_epoch before ep) FENCED) 0)
                        (fun _ => NoCursor)) false).
  { unfold after. rewrite <- H. cbn. unfold upd. now rewrite Nat.eqb_refl. }
  split; [exact Hlt|].
  split; [now rewrite Hafter|]. split; [now rewrite Hafter|].
  split; [now rewrite Hafter|]. split; [now rewrite Hafter|].
  split; [now rewrite Hafter|]. split; [now rewrite Hafter|].
  split; [now rewrite Hafter|]. split; [now rewrite Hafter|].
  split; [|split; [|split; [|split]]].
  - intros n Hn. rewrite <- H. cbn. unfold upd. apply Nat.eqb_neq in Hn.
    now rewrite Hn.
  - rewrite <- H. apply in_remove_one_app. now left.
  - intros v. unfold Write. fold after. rewrite Hafter. cbn.
    destruct (mem node nodes); auto. destruct (mem v vals); auto.
  - intros followers. unfold LeaderSendsEntriesToFollowers. fold after.
    rewrite Hafter. cbn.
    destruct (mem node nodes); auto. destruct (subset followers nodes); auto.
    destruct followers; auto.
  - intros o' ep' Hle. unfold NodeHandlesFencingRequest. fold after.
    destruct (receivable _ _); auto.
    rewrite Hafter.
    change (n_epoch (set_reconfig_inprog _ false)) with ep.
    destruct (Nat.ltb_spec ep ep'); [lia | reflexivity].
Qed.

(** The theorem on the fence request of [second_election] to the leader of
    epoch 1: node 0 is fenced in epoch 2 and refuses the write of value 7. *)
Lemma fenced_node_is_inert_witness :
  let s := state_after four_nodes second_election in
  let s' := state_after four_nodes
              (second_election
                 ++ [ANodeHandlesFencingRequest (FENCE_REQUEST 0 0 2)]) in
  NodeHandlesFencingRequest (FENCE_REQUEST 0 0 2) s = Some s' /\
  Write [0; 1; 2; 3] [7; 8] 0 7 s <> None /\
  n_status (node_state s' 0) = FENCED /\
  Write [0; 1; 2; 3] [7; 8] 0 7 s' = None.
Proof.
  intros s s'.
  assert (Hs : NodeHandlesFencingRequest (FENCE_REQUEST 0 0 2) s = Some s')
    by (vm_compute; reflexivity).
  assert (Hw : Write [0; 1; 2; 3] [7; 8] 0 7 s <> None)
    by (vm_compute; discriminate).
  split; [exact Hs|]. split; [exact Hw|].
  destruct (fenced_node_is_inert [0; 1; 2; 3] [7; 8] choose_entry_low
              s s' 0 0 2 Hs)
    as [_ [Hf [_ [_ [_ [_ [_ [_ [_ [_ [_ [Hwr _]]]]]]]]]]]].
  split; [exact Hf | exact (Hwr 7)].
Defined.

(** ** Logs and commit indexes *)

(** X17.  Logs shrink only by truncation or snapshot: in every step from a
    reachable state other than [NodeHandlesTruncateRequest] and
    [NodeHandlesSnapshotRequest], every entry in the log of a node is still
    in the log of that node after the step. *)
Theorem logs_shrink_only_by_truncate_or_snapshot
        (M : Model) (a : Action) (s s' : State) :
  reachable M s -> step_in M a s = Some s' ->
  (forall m, a <> ANodeHandlesTruncateRequest m) ->
  (forall m, a <> ANodeHandlesSnapshotRequest m) ->
  forall n e, In e (log (node_state s n)) -> In e (log (node_state s' n)).
Proof.
  intros Hr H Ht Hs. unfold step_in in H.
  exact (step_log _ _ _ _ _ _ _ _ _ _ H (reachable_ids_ok M s Hr) Ht Hs).
Qed.

(** The theorem on the second confirmation of [stale_completion]: the
    leader, node 1, keeps its entry. *)
Lemma logs_shrink_only_by_truncate_or_snapshot_witness :
  let s := state_after four_nodes (firstn 28 stale_completion) in
  let s' := state_after four_nodes (firstn 29 stale_completion) in
  let a := ALeaderHandlesEntryConfirm
             (ADD_ENTRY_RESPONSE 1 3 OK (entry_id entry_1_3) 3) in
  reachable four_nodes s /\ step_in four_nodes a s = Some s' /\
  In entry_1_3 (log (node_state s 1)) /\
  In entry_1_3 (log (node_state s' 1)).
Proof.
  intros s s' a.
  assert (Hr : reachable four_nodes s) by apply state_after_reachable.
  assert (Hs : step_in four_nodes a s = Some s') by (vm_compute; reflexivity).
  assert (Hin : In entry_1_3 (log (node_state s 1)))
    by (vm_compute; left; reflexivity).
  split; [exact Hr|]. split; [exact Hs|]. split; [exact Hin|].
  apply (logs_shrink_only_by_truncate_or_snapshot four_nodes a s s' Hr Hs).
  - intros m. discriminate.
  - intros m. discriminate.
  - exact Hin.
Defined.

(** X18.  The commit index of a leader is lowered only by the commit of a
    node swap or of an expansion: in every other step from a reachable state
    that keeps a node in [LEADER] status, the commit index of that node
    after the step is at or above its commit index before. *)
Theorem leader_commit_index_lowered_only_by_reconfig_commit
        (M : Model) (a : Action) (s s' : State) (n : Node) :
  reachable M s -> step_in M a s = Some s' ->
  n_status (node_state s n) = LEADER ->
  n_status (node_state s' n) = LEADER ->
  (forall m, a <> ALeaderHandlesCommitNodeSwapReconfigRequest m) ->
  (forall m, a <> ALeaderHandlesCommitExpandReconfigRequest m) ->
  IsLowerOrEqualId (commit_index (node_state s n))
                   (commit_index (node_state s' n)) = true.
Proof.
  intros Hr H Hl Hl' Hs He. unfold step_in in H.
  exact (step_leader_commit _ _ _ _ _ _ _ _ _ _ n H
           (reachable_ids_ok M s Hr) Hl Hl' Hs He).
Qed.

(** The theorem on the second confirmation of [stale_completion]: the
    commit index of node 1 moves from no entry to the entry of value 7. *)
Lemma leader_commit_index_lowered_only_by_reconfig_commit_witness :
  let s := state_after four_nodes (firstn 28 stale_completion) in
  let s' := state_after four_nodes (firstn 29 stale_completion) in
  let a := ALeaderHandlesEntryConfirm
             (ADD_ENTRY_RESPONSE 1 3 OK (entry_id entry_1_3) 3) in
  reachable four_nodes s /\ step_in four_nodes a s = Some s' /\
  n_status (node_state s 1) = LEADER /\
  n_status (node_state s' 1) = LEADER /\
  commit_index (node_state s 1) = NoEntryId /\
  commit_index (node_state s' 1) = entry_id entry_1_3 /\
  IsLowerOrEqualId (commit_index (node_state s 1))
                   (commit_index (node_state s' 1)) = true.
Proof.
  intros s s' a.
  assert (Hr : reachable four_nodes s) by apply state_after_reachable.
  assert (Hs : step_in four_nodes a s = Some s') by (vm_compute; reflexivity).
  assert (Hl : n_status (node_state s 1) = LEADER) by (vm_compute; reflexivity).
  assert (Hl' : n_status (node_state s' 1) = LEADER)
    by (vm_compute; reflexivity).
  split; [exact Hr|]. split; [exact Hs|]. split; [exact Hl|].
  split; [exact Hl'|].
  split; [vm_compute; reflexivity|]. split; [vm_compute; reflexivity|].
  apply (leader_commit_index_lowered_only_by_reconfig_commit
           four_nodes a s s' 1 Hr Hs Hl Hl').
  - intros m. discriminate.
  - intros m. discriminate.
Defined.

(** X19.  What a truncate request does to a node.  It is taken exactly by
    a [FENCED] node in the epoch of the request.  The node becomes a
    follower of the sender; its log is the part of the old log at or below
    the head index of the request; its new head index is the id of the
    highest entry kept (no entry id when none is kept), which is at or below
    the head index of the request and is reported in the response; the
    commit index and the other nodes are unchanged. *)
Theorem truncate_keeps_safe_prefix
        (che : (LogEntry -> bool) -> list LogEntry -> option LogEntry)
        (s : State) (dest src : Node) (ep : Epoch) (head : EntryId) :
  admissible che ->
  let msg := TRUNCATE_REQUEST dest src ep head in
  let before := node_state s dest in
  ((exists s', NodeHandlesTruncateRequest che msg s = Some s') <->
   receivable (messages s) msg = true /\
   n_status before = FENCED /\ n_epoch before = ep) /\
  (forall s',
      NodeHandlesTruncateRequest che msg s = Some s' ->
      let after := node_state s' dest in
      n_status after = FOLLOWER /\ n_leader after = Some src /\
      n_epoch after = ep /\ commit_index after = commit_index before /\
      (forall e, In e (log after) <->
                 In e (log before) /\ IsLowerOrEqualId (entry_id e) head = true) /\
      (forall e, In e (log after) ->
                 IsLowerOrEqualId (entry_id e) (head_index after) = true) /\
      (log after = [] -> head_index after = NoEntryId) /\
      (log after <> [] ->
       exists e, In e (log after) /\ entry_id e = head_index after) /\
      IsLowerOrEqualId (head_index after) head = true /\
      (forall f, follow_cursor after f = NoCursor) /\
      In (TRUNCATE_RESPONSE src dest ep (head_index after)) (messages s') /\
      (forall n, n <> dest -> node_state s' n = node_state s n)).
Proof.
  intros Hadm msg before.
  destruct (HeadEntry_spec che (TruncateLog (log before) head) Hadm)
    as [he [Hhe [Hnil Hcons]]].
  assert (Hlog : forall e, In e (TruncateLog (log before) head) <->
                           In e (log before) /\
                           IsLowerOrEqualId (entry_id e) head = true).
  { intros e. unfold TruncateLog. apply filter_In. }
  split.
  - unfold NodeHandlesTruncateRequest, msg. fold before. rewrite Hhe.
    destruct (receivable _ _);
      [|split; [intros [? ?]; discriminate | intros [? _]; discriminate]].
    destruct (NodeStatus_eq_dec (n_status before) FENCED) as [Es|Es].
    + unfold status_eqb. destruct (NodeStatus_eq_dec _ _); [|contradiction].
      destruct (Nat.eqb_spec (n_epoch before) ep).
      * split; eauto.
      * split; [intros [? ?]; discriminate | intros [_ [_ ?]]; contradiction].
    + unfold status_eqb. destruct (NodeStatus_eq_dec _ _); [contradiction|].
      split; [intros [? ?]; discriminate | intros [_ [? _]]; contradiction].
  - intros s' H after.
    unfold NodeHandlesTruncateRequest, msg in H. fold before in H.
    rewrite Hhe in H.
    destruct (receivable _ _); [|discriminate].
    destruct (status_eqb _ _); [|discriminate].
    destruct (Nat.eqb_spec (n_epoch before) ep) as [Hep|]; [|discriminate].
    injection H as H.
    assert (Hafter : after =
                     set_follow_cursor
                       (set_head_index
                          (set_log
                             (set_n_leader
                                (set_n_epoch (set_n_status before FOLLOWER) ep)
                                (Some src))
                             (TruncateLog (log before) head))
                          (entry_id he))
                       (fun _ => NoCursor)).
    { unfold after. rewrite <- H. cbn. unfold upd. now rewrite Nat.eqb_refl. }
    rewrite Hafter. cbn.
    repeat (split; [reflexivity|]).
    split; [exact Hlog|].
    assert (He0 : TruncateLog (log before) head = [] -> entry_id he = NoEntryId).
    { intros E. now rewrite (Hnil E). }
    split; [|split; [exact He0|split; [|split]]].
    + intros e He. destruct Hcons as [_ Hmax]; [|now apply Hmax].
      intros E. rewrite E in He. contradiction.
    + intros Hne. destruct (Hcons Hne) as [Hin _]. eauto.
    + destruct (TruncateLog (log before) head) as [|x l] eqn:E.
      * rewrite (He0 eq_refl). apply IsLowerOrEqualId_lex. simpl. lia.
      * destruct Hcons as [Hin _]; [discriminate|].
        now apply Hlog in Hin.
    + split; [reflexivity|]. split.
      * rewrite <- H. apply in_remove_one_app. now left.
      * intros n Hn. rewrite <- H. cbn. unfold upd. apply Nat.eqb_neq in Hn.
        now rewrite Hn.
Qed.

(** The theorem on the last step of [late_follower]: node 0, the fenced
    leader of epoch 1, holds the entries of values 7 and 8; the leader of
    epoch 2 holds the first only, and the truncation drops the second. *)
Lemma truncate_keeps_safe_prefix_witness :
  let s := state_after four_nodes (firstn 26 late_follower) in
  let s' := state_after four_nodes late_follower in
  let msg := TRUNCATE_REQUEST 0 1 2 (entry_id entry_7) in
  admissible choose_entry_low /\
  NodeHandlesTruncateRequest choose_entry_low msg s = Some s' /\
  In entry_8 (log (node_state s 0)) /\
  n_status (node_state s' 0) = FOLLOWER /\
  ~ In entry_8 (log (node_state s' 0)).
Proof.
  intros s s' msg.
  assert (Hadm : admissible choose_entry_low)
    by exact choose_entry_low_admissible.
  assert (Hs : NodeHandlesTruncateRequest choose_entry_low msg s = Some s')
    by (vm_compute; reflexivity).
  assert (Hin : In entry_8 (log (node_state s 0)))
    by (vm_compute; auto).
  split; [exact Hadm|]. split; [exact Hs|]. split; [exact Hin|].
  destruct (truncate_keeps_safe_prefix choose_entry_low s 0 1 2
              (entry_id entry_7) Hadm) as [_ H].
  destruct (H s' Hs) as [Hf [_ [_ [_ [Hlog _]]]]].
  split; [exact Hf|].
  intros Hk. destruct (proj1 (Hlog entry_8) Hk) as [_ Hid].
  vm_compute in Hid. discriminate Hid.
Defined.

(** X20.  The highest entry of a log.  With an admissible choice operator,
    [HeadEntry] always has a value: the null entry on the empty log, and
    otherwise an entry of the log whose id is at or above the id of every
    entry of the log. *)
Theorem head_entry_is_highest
        (che : (LogEntry -> bool) -> list LogEntry -> option LogEntry)
        (l : list LogEntry) :
  admissible che ->
  exists e,
    HeadEntry che l = Some e /\
    (l = [] -> e = NoLogEntry) /\
    (l <> [] ->
     In e l /\
     forall e', In e' l -> IsLowerOrEqualId (entry_id e') (entry_id e) = true).
Proof. apply HeadEntry_spec. Qed.

(** The theorem on a log of two entries. *)
Lemma head_entry_is_highest_witness :
  admissible choose_entry_low /\
  HeadEntry choose_entry_low [entry_7; entry_8] = Some entry_8 /\
  exists e,
    HeadEntry choose_entry_low [entry_7; entry_8] = Some e /\
    ([entry_7; entry_8] = [] -> e = NoLogEntry) /\
    ([entry_7; entry_8] <> [] ->
     In e [entry_7; entry_8] /\
     forall e', In e' [entry_7; entry_8] ->
                IsLowerOrEqualId (entry_id e') (entry_id e) = true).
Proof.
  split; [exact choose_entry_low_admissible|].
  split; [vm_compute; reflexivity|].
  exact (head_entry_is_highest choose_entry_low [entry_7; entry_8]
           choose_entry_low_admissible).
Defined.

(** X21.  A leader without an entry of its own epoch commits nothing anew.
    When no entry in the log of a node carries the epoch of the node,
    [NewCommitIndex] is the null entry id for every cursor map and
    replication factor; so the commit of an expansion or of a node swap,
    which assign [NewCommitIndex] as it is, leave that node with no commit
    index, whatever it was before. *)
Theorem commit_index_resets_without_current_entry
        (nodes : list Node)
        (che : (LogEntry -> bool) -> list LogEntry -> option LogEntry)
        (s : State) (node : Node) :
  n_id (node_state s node) = node ->
  (forall e, In e (log (node_state s node)) ->
             epoch (entry_id e) <> n_epoch (node_state s node)) ->
  (forall fc rf,
      NewCommitIndex nodes che (node_state s node) fc rf = Some NoEntryId) /\
  (forall s' op operator ep rf old new head,
      let msg := COMMIT_RECONFIG_REQUEST op node operator ep rf old new head in
      LeaderHandlesCommitExpandReconfigRequest nodes che msg s = Some s' \/
      LeaderHandlesCommitNodeSwapReconfigRequest nodes che msg s = Some s' ->
      commit_index (node_state s' node) = NoEntryId).
Proof.
  intros Hid Hlog.
  split; [intros; now apply NewCommitIndex_no_current_entry|].
  intros s' op operator ep rf old new head msg [H|H]; unfold msg in H;
    [unfold LeaderHandlesCommitExpandReconfigRequest in H
    |unfold LeaderHandlesCommitNodeSwapReconfigRequest in H];
    crack;
    match goal with
    | G : NewCommitIndex _ _ _ _ _ = Some _ |- _ =>
        rewrite NewCommitIndex_no_current_entry in G by exact Hlog;
        injection G as <-
    end; cbn; rewrite Hid; unfold upd; rewrite Nat.eqb_refl; cbn; auto.
Qed.

(** The theorem on the last step of [expand_commit]: node 0 leads epoch 2,
    its two entries are of epoch 1 and its commit index is the second of
    them; the commit of the expansion leaves it with no commit index. *)
Lemma commit_index_resets_without_current_entry_witness :
  let s := state_after three_of_four (firstn 21 expand_commit) in
  let s' := state_after three_of_four expand_commit in
  let msg := COMMIT_RECONFIG_REQUEST EXPAND 0 0 2 4 None (Some 3)
                                     (Some (entry_id entry_8)) in
  n_id (node_state s 0) = 0 /\
  log (node_state s 0) = [entry_7; entry_8] /\
  n_epoch (node_state s 0) = 2 /\
  commit_index (node_state s 0) = entry_id entry_8 /\
  LeaderHandlesCommitExpandReconfigRequest [0; 1; 2; 3] choose_entry_low msg s
  = Some s' /\
  commit_index (node_state s' 0) = NoEntryId.
Proof.
  intros s s' msg.
  assert (Hid : n_id (node_state s 0) = 0) by (vm_compute; reflexivity).
  assert (Hl : log (node_state s 0) = [entry_7; entry_8])
    by (vm_compute; reflexivity).
  assert (Hep : n_epoch (node_state s 0) = 2) by (vm_compute; reflexivity).
  assert (Hs : LeaderHandlesCommitExpandReconfigRequest
                 [0; 1; 2; 3] choose_entry_low msg s = Some s')
    by (vm_compute; reflexivity).
  assert (Hlog : forall e, In e (log (node_state s 0)) ->
                           epoch (entry_id e) <> n_epoch (node_state s 0)).
  { rewrite Hl, Hep. intros e [<-|[<-|[]]]; discriminate. }
  split; [exact Hid|]. split; [exact Hl|]. split; [exact Hep|].
  split; [vm_compute; reflexivity|]. split; [exact Hs|].
  destruct (commit_index_resets_without_current_entry
              [0; 1; 2; 3] choose_entry_low s 0 Hid Hlog) as [_ H].
  apply (H s' EXPAND 0 2 4 None (Some 3) (Some (entry_id entry_8))).
  left. exact Hs.
Defined.

(** ** Entry ids and quorums *)

(** X22.  [CompareLogEntries] is a total order on entry ids, epoch first:
    it is 0 exactly on equal ids, 1 one way exactly when it is -1 the other
    way, and the comparisons built on it are total, antisymmetric and
    transitive and complement one another. *)
Theorem entry_id_order :
  (forall a b, CompareLogEntries a b = 0%Z <-> a = b) /\
  (forall a b, CompareLogEntries a b = 1%Z <-> CompareLogEntries b a = (-1)%Z) /\
  (forall a b,
      CompareLogEntries a b = 1%Z <->
      epoch b < epoch a \/ (epoch a = epoch b /\ offset b < offset a)) /\
  (forall a b, IsLowerOrEqualId a b = true \/ IsLowerOrEqualId b a = true) /\
  (forall a b, IsLowerOrEqualId a b = true -> IsLowerOrEqualId b a = true ->
               a = b) /\
  (forall a b c, IsLowerOrEqualId a b = true -> IsLowerOrEqualId b c = true ->
                 IsLowerOrEqualId a c = true) /\
  (forall a b, IsHigherId a b = negb (IsLowerOrEqualId a b)) /\
  (forall a b, IsHigherOrEqualId a b = IsLowerOrEqualId b a) /\
  (forall a b, IsLowerId a b = IsHigherId b a).
Proof.
  split; [|split; [|split; [|split; [|split; [|split; [|split; [|split]]]]]]].
  - intros a b. destruct (CompareLogEntries_cases a b) as [[E H]|[[E H]|[E H]]];
      rewrite E; split; try discriminate; auto; intros ->; lia.
  - intros a b.
    destruct (CompareLogEntries_cases a b) as [[E H]|[[E H]|[E H]]];
      destruct (CompareLogEntries_cases b a) as [[E' H']|[[E' H']|[E' H']]];
      rewrite E, E'; split; try discriminate; auto; try lia;
      subst; lia.
  - intros a b.
    destruct (CompareLogEntries_cases a b) as [[E H]|[[E H]|[E H]]];
      rewrite E; split; try discriminate; try lia; auto; subst; lia.
  - intros a b. rewrite !IsLowerOrEqualId_lex.
    destruct a as [oa ea], b as [ob eb]. simpl. lia.
  - intros a b. rewrite !IsLowerOrEqualId_lex.
    destruct a as [oa ea], b as [ob eb]. simpl. intros H1 H2.
    f_equal; lia.
  - intros a b c. rewrite !IsLowerOrEqualId_lex. lia.
  - apply IsHigherId_not_lower.
  - apply IsHigherOrEqualId_flip.
  - intros a b. unfold IsLowerId, IsHigherId.
    destruct (CompareLogEntries_cases a b) as [[E H]|[[E H]|[E H]]];
      destruct (CompareLogEntries_cases b a) as [[E' H']|[[E' H']|[E' H']]];
      rewrite E, E'; try reflexivity; try lia; subst; lia.
Qed.

(** X23.  Two quorums of one ensemble share a node: when [a] and [b] are
    subsets of [e] and both cardinalities pass [IsQuorum] against the
    cardinality of [e], some node is in both. *)
Theorem quorums_intersect (a b e : list Node) :
  subset a e = true -> subset b e = true ->
  IsQuorum (card_nodes a) (card_nodes e) = true ->
  IsQuorum (card_nodes b) (card_nodes e) = true ->
  exists n, In n a /\ In n b.
Proof.
  intros Ha Hb Hqa Hqb.
  destruct (existsb (fun n => mem n b) a) eqn:E.
  - apply existsb_exists in E as [n [Hn Hm]]. exists n. split; auto.
    now apply mem_In.
  - exfalso.
    assert (Hdis : forall n, In n a -> ~ In n b).
    { intros n Hn Hm.
      assert (existsb (fun n => mem n b) a = true).
      { apply existsb_exists. exists n. split; auto. now apply mem_In. }
      congruence. }
    unfold IsQuorum, card_nodes in *.
    apply Nat.leb_le in Hqa, Hqb.
    assert (Hnd : NoDup (nodup Nat.eq_dec a ++ nodup Nat.eq_dec b)).
    { apply NoDup_app; try apply NoDup_nodup.
      intros n Hn Hm. apply nodup_In in Hn, Hm. exact (Hdis n Hn Hm). }
    assert (Hincl : incl (nodup Nat.eq_dec a ++ nodup Nat.eq_dec b)
                         (nodup Nat.eq_dec e)).
    { intros n Hn. apply nodup_In. apply in_app_or in Hn as [Hn|Hn];
        apply nodup_In in Hn;
        [apply (subset_incl _ _ Ha) | apply (subset_incl _ _ Hb)];
        exact Hn. }
    pose proof (NoDup_incl_length Hnd Hincl) as Hlen.
    rewrite length_app in Hlen.
    pose proof (Nat.div_mod_eq (List.length (nodup Nat.eq_dec e)) 2).
    pose proof (Nat.mod_upper_bound (List.length (nodup Nat.eq_dec e)) 2).
    lia.
Qed.

(** The theorem on two fencing quorums of three among four nodes. *)
Lemma quorums_intersect_witness :
  subset [0; 1; 2] [0; 1; 2; 3] = true /\
  subset [1; 2; 3] [0; 1; 2; 3] = true /\
  IsQuorum (card_nodes [0; 1; 2]) (card_nodes [0; 1; 2; 3]) = true /\
  IsQuorum (card_nodes [1; 2; 3]) (card_nodes [0; 1; 2; 3]) = true /\
  exists n, In n [0; 1; 2] /\ In n [1; 2; 3].
Proof.
  assert (Ha : subset [0; 1; 2] [0; 1; 2; 3] = true) by reflexivity.
  assert (Hb : subset [1; 2; 3] [0; 1; 2; 3] = true) by reflexivity.
  assert (Hqa : IsQuorum (card_nodes [0; 1; 2]) (card_nodes [0; 1; 2; 3]) = true)
    by reflexivity.
  assert (Hqb : IsQuorum (card_nodes [1; 2; 3]) (card_nodes [0; 1; 2; 3]) = true)
    by reflexivity.
  split; [exact Ha|]. split; [exact Hb|]. split; [exact Hqa|].
  split; [exact Hqb|].
  exact (quorums_intersect [0; 1; 2] [1; 2; 3] [0; 1; 2; 3] Ha Hb Hqa Hqb).
Defined.

(** ** The operators *)

(** X24.  A stopped operator does nothing but start: every action of an
    operator that is in [NOT_RUNNING] status, other than [OperatorStarts],
    is disabled. *)
Theorem stopped_operator_takes_no_action
        (M : Model) (a : Action) (s : State) (o : Operator) :
  action_operator a = Some o ->
  o_status (operator_state s o) = NOT_RUNNING ->
  a <> AOperatorStarts o ->
  step_in M a s = None.
Proof.
  intros Ha Hs Hne. unfold step_in.
  now apply step_stopped_operator with (o := o).
Qed.

(** The theorem after the stop of operator 0 in [stop_and_restart]: the
    stopped operator cannot start an election. *)
Lemma stopped_operator_takes_no_action_witness :
  let s := state_after with_stops (firstn 3 stop_and_restart) in
  let a := AOperatorStartsElection 0 [0; 1; 2] in
  action_operator a = Some 0 /\
  o_status (operator_state s 0) = NOT_RUNNING /\
  operator_stop_ctr s = 1 /\
  step_in with_stops a s = None.
Proof.
  intros s a.
  assert (Ha : action_operator a = Some 0) by reflexivity.
  assert (Hs : o_status (operator_state s 0) = NOT_RUNNING)
    by (vm_compute; reflexivity).
  split; [exact Ha|]. split; [exact Hs|]. split; [vm_compute; reflexivity|].
  apply (stopped_operator_takes_no_action with_stops a s 0 Ha Hs).
  discriminate.
Defined.

(** X25.  Operators stop at most [MaxOperatorStops] times: in every
    reachable state the stop counter is at or below that bound. *)
Theorem operator_stops_are_bounded (M : Model) (s : State) :
  reachable M s -> operator_stop_ctr s <= MaxOperatorStops M.
Proof.
  unfold reachable. induction 1 as [|s s' Hs IH [a Ha]].
  - simpl. lia.
  - eapply step_stops; eauto.
Qed.

(** The theorem at the end of [stop_and_restart], where the one stop that
    [with_stops] allows is used up and a second stop is disabled. *)
Lemma operator_stops_are_bounded_witness :
  let s := state_after with_stops stop_and_restart in
  reachable with_stops s /\
  operator_stop_ctr s = 1 /\
  step_in with_stops (AOperatorStops 0) s = None /\
  operator_stop_ctr s <= MaxOperatorStops with_stops.
Proof.
  intros s.
  assert (Hr : reachable with_stops s) by apply state_after_reachable.
  split; [exact Hr|]. split; [vm_compute; reflexivity|].
  split; [vm_compute; reflexivity|].
  exact (operator_stops_are_bounded with_stops s Hr).
Defined.

(** ** Epochs are bounded, and entries are not ahead of their node *)

Lemma remove_one_In msg m l : In m (remove_one msg l) -> In m l.
Proof.
  induction l as [|x l IH]; simpl; auto.
  destruct (Message_eq_dec msg x); simpl; intuition.
Qed.

Lemma receivable_In l m : receivable l m = true -> In m l.
Proof. unfold receivable. destruct (in_dec _ _ _); auto; discriminate. Qed.

(** A message that an action receives is in flight. *)
Ltac recv :=
  repeat match goal with
         | H : IsEarliestReceivableEntryMessage _ _ = true |- _ =>
             unfold IsEarliestReceivableEntryMessage in H;
             apply andb_true_iff in H as [H _]
         | H : receivable _ _ = true |- _ => apply receivable_In in H
         end.

Section Epochs.

Variables (ops : list Operator) (nodes : list Node) (vals : list Value).
Variables (maxe maxs : nat).
Variable chr :
  (FenceResponse -> bool) -> list FenceResponse -> option FenceResponse.
Variable che : (LogEntry -> bool) -> list LogEntry -> option LogEntry.

Lemma GetTruncateRequest_shape nstate f te m :
  GetTruncateRequest che nstate f te = Some m ->
  msg_epoch m = n_epoch nstate /\ msg_entries m = [].
Proof.
  unfold GetTruncateRequest.
  destruct (GetHighestEntryOfEpoch _ _ _); [|discriminate].
  intros H. injection H as <-. split; reflexivity.
Qed.

Lemma GetTruncateRequests_shape nstate fm l :
  GetTruncateRequests nodes che nstate fm = Some l ->
  forall m, In m l -> msg_epoch m = n_epoch nstate /\ msg_entries m = [].
Proof.
  unfold GetTruncateRequests.
  generalize (FollowersToTruncate nodes nstate fm) as fs.
  intros fs. revert l. induction fs as [|f fs IH]; simpl; intros l H m Hm.
  - injection H as <-. contradiction.
  - destruct (fold_right _ _ fs) as [acc|]; [|discriminate].
    destruct (lookup_head fm f); [|discriminate].
    destruct (GetTruncateRequest che nstate f _) as [m0|] eqn:E; [|discriminate].
    injection H as <-. destruct Hm as [<-|Hm].
    + eapply GetTruncateRequest_shape; eauto.
    + eapply IH; eauto.
Qed.

Lemma GetNextEntries_In lstate followers l :
  admissible che ->
  GetNextEntries che lstate followers = Some l ->
  forall p, In p l -> In (snd p) (log lstate).
Proof.
  intros [Hsound _]. unfold GetNextEntries. revert l.
  induction followers as [|f fs IH]; simpl; intros l H p Hp.
  - injection H as <-. contradiction.
  - destruct (fold_right _ _ fs) as [acc|]; [|discriminate].
    destruct (NextEntry che lstate _) as [e|] eqn:E; [|discriminate].
    injection H as <-. destruct Hp as [<-|Hp]; [|eapply IH; eauto].
    unfold NextEntry in E. apply Hsound in E as [Hin _]. exact Hin.
Qed.

Lemma step_epochs_within a s s' :
  step ops nodes vals maxe maxs chr che a s = Some s' ->
  ids_ok s -> md_current s -> epochs_within maxe s -> epochs_within maxe s'.
Proof.
  intros H [Hn Ho] Hc [Hm [Hom [Hne Hmsg]]].
  step_cases a H; unfold epochs_within; cbn; props; recv;
    repeat match goal with
           | K : In ?m (messages s) |- _ =>
               lazymatch goal with
               | _ : msg_epoch m <= maxe |- _ => fail
               | _ => pose proof (Hmsg m K)
               end
           | K : md (operator_state s ?o) = Some ?m |- _ =>
               lazymatch goal with
               | _ : md_epoch m <= maxe |- _ => fail
               | _ => pose proof (Hom o m K)
               end
           end; cbn in *.
  (* an operator whose version is current holds the metadata of the store *)
  all: try match goal with
           | K : md (operator_state ?st ?o) = Some ?m,
             V : md_version (operator_state ?st ?o) = metadata_version ?st,
             R : o_status (operator_state ?st ?o) = RUNNING |- _ =>
               let E := fresh in
               destruct (Hc o) as [_ E]; specialize (E R V);
               rewrite E in K; injection K as <-
           end.
  all: (split; [try lia
               |split; [try exact Hom
                       |split; [try exact Hne | try exact Hmsg]]]).
  (* the operators *)
  all: try (intros x y; rewrite ?upd_apply; destruct (x =? _) eqn:Ex; cbn;
            eauto;
            intros K; first [discriminate K | injection K as <-; cbn; lia]).
  (* the nodes *)
  all: try (intros x; rewrite ?upd_apply; destruct (x =? _) eqn:Ex; cbn; auto;
            lia).
  (* the messages that stay *)
  all: try (intros x Hx; apply filter_In in Hx as [Hx _]; auto; fail).
  all: try (intros x Hx; apply remove_one_In in Hx; auto; fail).
  all: intros x Hx;
    first [ apply in_app_or in Hx as [Hx|Hx]; [now apply Hmsg|]
          | apply in_app_or in Hx as [Hx|Hx];
            [apply remove_one_In in Hx; now apply Hmsg|] ].
  (* the messages that are sent *)
  all: try (unfold GetFenceRequests in Hx;
            apply in_map_iff in Hx as [? [<- _]]; cbn; lia).
  all: try (unfold GetNextAddEntryRequests in Hx;
            apply in_map_iff in Hx as [? [<- _]]; cbn; auto; fail).
  all: try (apply in_app_or in Hx as [Hx|[<-|[]]];
            [match goal with
             | G : GetTruncateRequests _ _ _ _ = Some _ |- _ =>
                 rewrite (proj1 (GetTruncateRequests_shape _ _ _ G _ Hx)); auto
             end
            | cbn; lia]).
  all: destruct Hx as [<-|[]].
  all: try (match goal with
            | G : GetTruncateRequest _ _ _ _ = Some _ |- _ =>
                rewrite (proj1 (GetTruncateRequest_shape _ _ _ _ G)); auto
            end; fail).
  all: try (unfold GetAddEntryInvalidEpochResponse; cbn;
            match goal with
            | K : _ < n_epoch (node_state _ ?n) |- _ => specialize (Hne n)
            end; lia).
  all: try (unfold GetPrepareReconfigResponse; destruct (op_eqb _ CONTRACT);
            cbn; lia).
  all: try (cbn; lia).
  all: unfold GetSnapshotRequest, GetCommitContractReconfigRequest,
         GetCommitReconfigRequest in *.
  all: match goal with
       | K : md (operator_state _ _) = Some _, Q : _ = Some ?m
         |- msg_epoch ?m <= _ => rewrite K in Q; crack; cbn; lia
       end.
Qed.

Lemma step_entries_within a s s' :
  admissible che ->
  step ops nodes vals maxe maxs chr che a s = Some s' ->
  ids_ok s -> entries_within s -> entries_within s'.
Proof.
  intros Hadm H [Hn Ho] [Hlog Hmsg].
  step_cases a H; unfold entries_within; cbn; props; recv.
  all: split.
  all: try exact Hlog.
  all: try exact Hmsg.
  (* the logs *)
  all: try (let x := fresh "x" in
            let y := fresh "y" in
            let He := fresh "He" in
            intros x y; rewrite ?upd_apply, ?Hn;
            destruct (x =? _) eqn:Ex; [|apply Hlog];
            apply Nat.eqb_eq in Ex; subst x; cbn; intros He;
            try apply filter_In in He as [He _];
            try (apply add_entry_spec in He as [He|He]; [subst y; cbn|]);
            try match goal with
                | K : In (ADD_ENTRY_REQUEST _ _ ?en _ _) (messages _) |- _ =>
                    pose proof (Hmsg _ en K (or_introl eq_refl))
                | K : In (SNAPSHOT_REQUEST _ _ _ ?sn _ _) (messages _),
                  K' : In ?x ?sn |- _ =>
                    pose proof (Hmsg _ x K K')
                end;
            try match goal with
                | K : In _ (log (node_state _ _)) |- _ => apply Hlog in K
                end;
            cbn in *; lia).
  (* the messages that stay *)
  all: try (intros x y Hx; apply filter_In in Hx as [Hx _]; now apply Hmsg).
  all: try (intros x y Hx; apply remove_one_In in Hx; now apply Hmsg).
  all: intros x y Hx;
    first [ apply in_app_or in Hx as [Hx|Hx]; [now apply Hmsg|]
          | apply in_app_or in Hx as [Hx|Hx];
            [apply remove_one_In in Hx; now apply Hmsg|] ].
  (* the messages that are sent *)
  all: try (unfold GetNextAddEntryRequests in Hx;
            apply in_map_iff in Hx as [p [<- Hp]]; cbn; intros [<-|[]];
            eapply GetNextEntries_In in Hp; eauto; fail).
  all: try (unfold GetFenceRequests in Hx;
            apply in_map_iff in Hx as [? [<- _]]; cbn; intros []; fail).
  all: try (apply in_app_or in Hx as [Hx|[<-|[]]];
            [match goal with
             | G : GetTruncateRequests _ _ _ _ = Some _ |- _ =>
                 rewrite (proj2 (GetTruncateRequests_shape _ _ _ G _ Hx));
                 intros []
             end
            | cbn; intros []]).
  all: destruct Hx as [<-|[]].
  all: try (cbn; intros []; fail).
  all: try (match goal with
            | G : GetTruncateRequest _ _ _ _ = Some _ |- _ =>
                rewrite (proj2 (GetTruncateRequest_shape _ _ _ _ G)); intros []
            end).
  all: try (unfold GetPrepareReconfigResponse; destruct (op_eqb _ CONTRACT);
            cbn; [intros [] | intros K; apply Hlog in K; lia]).
  all: unfold GetSnapshotRequest, GetCommitContractReconfigRequest,
         GetCommitReconfigRequest in *.
  all: match goal with
       | Q : _ = Some ?m |- In _ (msg_entries ?m) -> _ =>
           crack; cbn; try (intros []; fail)
       end.
  all: intros K;
    match goal with
    | Q : In (PREPARE_RECONFIG_RESPONSE _ _ _ _ (Some _)) (messages _) |- _ =>
        pose proof (Hmsg _ _ Q K)
    end; cbn in *; lia.
Qed.

End Epochs.

(** X26.  Epochs stay within [MaxEpochs], the range of the type [Epoch]:
    in every reachable state the epoch of the metadata, of the copy of the
    metadata that an operator holds, of every node, and of every message in
    flight is at most [MaxEpochs]. *)
Theorem epochs_are_bounded (M : Model) (s : State) :
  reachable M s ->
  md_epoch (metadata s) <= MaxEpochs M /\
  (forall o m, md (operator_state s o) = Some m -> md_epoch m <= MaxEpochs M) /\
  (forall n, n_epoch (node_state s n) <= MaxEpochs M) /\
  (forall m, In m (messages s) -> msg_epoch m <= MaxEpochs M).
Proof.
  intros Hr. change (epochs_within (MaxEpochs M) s).
  unfold reachable in Hr. induction Hr as [|s s' Hs IH [a Ha]].
  - repeat split; simpl; try lia; try discriminate; intros m [].
  - eapply step_epochs_within; eauto.
    + exact (reachable_ids_ok M s Hs).
    + exact (reachable_md_current M s Hs).
Qed.

(** The theorem at the end of [stale_completion]: the metadata is in epoch
    2, node 1 in epoch 3, and [four_nodes] allows epochs up to 10. *)
Lemma epochs_are_bounded_witness :
  let s := state_after four_nodes stale_completion in
  reachable four_nodes s /\
  md_epoch (metadata s) = 2 /\ n_epoch (node_state s 1) = 3 /\
  md_epoch (metadata s) <= MaxEpochs four_nodes /\
  n_epoch (node_state s 1) <= MaxEpochs four_nodes.
Proof.
  intros s.
  assert (Hr : reachable four_nodes s) by apply state_after_reachable.
  split; [exact Hr|]. split; [vm_compute; reflexivity|].
  split; [vm_compute; reflexivity|].
  destruct (epochs_are_bounded four_nodes s Hr) as [H1 [_ [H2 _]]].
  split; [exact H1 | exact (H2 1)].
Defined.

(** X27.  No node holds an entry of a later epoch than its own: with an
    admissible choice of entries, in every reachable state the epoch of
    every entry in the log of a node is at most the epoch of the node. *)
Theorem entries_are_not_ahead_of_their_node (M : Model) (s : State) :
  admissible (choose_entry M) -> reachable M s ->
  forall n e, In e (log (node_state s n)) ->
              epoch (entry_id e) <= n_epoch (node_state s n).
Proof.
  intros Hadm Hr.
  enough (H : entries_within s) by exact (proj1 H).
  unfold reachable in Hr. induction Hr as [|s s' Hs IH [a Ha]].
  - split; simpl; [intros _ e [] | intros m e []].
  - eapply step_entries_within; eauto.
    exact (reachable_ids_ok M s Hs).
Qed.

(** The theorem at the end of [expand_commit]: node 0 leads epoch 2 and
    holds [entry_8], an entry of epoch 1. *)
Lemma entries_are_not_ahead_of_their_node_witness :
  let s := state_after three_of_four expand_commit in
  admissible (choose_entry three_of_four) /\
  reachable three_of_four s /\
  In entry_8 (log (node_state s 0)) /\
  n_epoch (node_state s 0) = 2 /\
  epoch (entry_id entry_8) <= n_epoch (node_state s 0).
Proof.
  intros s.
  assert (Hadm : admissible (choose_entry three_of_four))
    by exact choose_entry_low_admissible.
  assert (Hr : reachable three_of_four s) by apply state_after_reachable.
  assert (Hin : In entry_8 (log (node_state s 0))) by (vm_compute; auto).
  split; [exact Hadm|]. split; [exact Hr|]. split; [exact Hin|].
  split; [vm_compute; reflexivity|].
  exact (entries_are_not_ahead_of_their_node three_of_four s Hadm Hr 0
           entry_8 Hin).
Defined.

End Replication.
